(** * Battleship: a shallow embedding of [battleship.py]

    The game's domain engine -- ships, fleets, hit resolution, the
    opponent strategies and the turn engine -- translated function by
    function from the Python source.  Integers are Python's unbounded
    [int], so they are [Z]; list indices and sizes are [nat].  Terminal
    drawing ([stdscr.addstr], [refresh]) has no effect on the game state
    and is left out; key presses and [randint] draws are explicit inputs. *)

From Stdlib Require Import ZArith Lia Bool.
From stdpp Require Import base list strings.

Local Open Scope Z_scope.

(** ** Outcomes of running Python code

    A call either returns, raises, or is still [Pending]: it had not
    returned when the budget of the model ran out -- the fuel given to
    the unbounded loop of [Ship.rotate], or the recorded key presses and
    random draws that [getch] and [randint] consume. *)

Inductive exn : Set := IndexError | ValueError | AttributeError | TypeError.

Inductive result (A : Type) : Type :=
| Ok (a : A)
| Raise (e : exn)
| Pending.

Arguments Ok {A} a.
Arguments Raise {A} e.
Arguments Pending {A}.

#[global] Instance result_bind : MBind result := fun A B k r =>
  match r with
  | Ok a => k a
  | Raise e => Raise e
  | Pending => Pending
  end.

(** ** Geometry *)

Inductive Direction : Set := UP | DOWN | LEFT | RIGHT.

Definition rotate_clockwise (direction : Direction) : Direction :=
  match direction with
  | UP => RIGHT
  | RIGHT => DOWN
  | DOWN => LEFT
  | LEFT => UP
  end.

(** A position is a [(row, column)] tuple; a bound is a [(low, high)] tuple. *)
Definition Pos : Set := (Z * Z)%type.
Definition Bounds : Set := (Z * Z)%type.

Definition pos_in_bounds (pos : Pos) (bounds_y bounds_x : Bounds) : bool :=
  (pos.1 >? bounds_y.1) && (pos.1 <? bounds_y.2)
  && (pos.2 >? bounds_x.1) && (pos.2 <? bounds_x.2).

(** ** Hit values *)

Inductive HitType : Set := MISS | HIT | SUNK.

Definition HitType_eqb (a b : HitType) : bool :=
  match a, b with
  | MISS, MISS | HIT, HIT | SUNK, SUNK => true
  | _, _ => false
  end.

Module Hit.

Record t : Set := Build {
  target_position : Pos;
  hit_type : HitType;
  character : string;
  ship_positions : list Pos
}.

Definition miss (target_pos : Pos) : t := Build target_pos MISS "O" [].

Definition hit (target_pos : Pos) : t := Build target_pos HIT "X" [].

Definition sunk (target_pos : Pos) (ship_char : string)
    (positions : list Pos) : t :=
  Build target_pos SUNK ship_char positions.

End Hit.

(** ** Ship types *)

Module ShipType.

Inductive t : Set := PatrolBoat | Submarine | Destroyer | Battleship | Carrier.

(** The members in definition order, as [for ship_type in ShipType] visits them. *)
Definition members : list t :=
  [PatrolBoat; Submarine; Destroyer; Battleship; Carrier].

Definition value (ship_type : t) : string :=
  match ship_type with
  | PatrolBoat => "P"
  | Submarine => "S"
  | Destroyer => "D"
  | Battleship => "B"
  | Carrier => "C"
  end.

Definition size_of (ship_type : t) : nat :=
  match ship_type with
  | PatrolBoat => 2
  | Submarine => 3
  | Destroyer => 3
  | Battleship => 4
  | Carrier => 5
  end.

End ShipType.

(** ** Ships *)

Module Ship.

Record t : Set := Build {
  ship_type : ShipType.t;
  size : nat;
  hits : list bool;
  start_pos : Pos;
  rotation : Direction;
  bounds_y : Bounds;
  bounds_x : Bounds;
  positions : list Pos
}.

Definition set_positions (self : t) (ps : list Pos) : t :=
  Build (ship_type self) (size self) (hits self) (start_pos self)
        (rotation self) (bounds_y self) (bounds_x self) ps.

Definition set_start_pos (self : t) (p : Pos) : t :=
  Build (ship_type self) (size self) (hits self) p
        (rotation self) (bounds_y self) (bounds_x self) (positions self).

Definition set_rotation (self : t) (d : Direction) : t :=
  Build (ship_type self) (size self) (hits self) (start_pos self)
        d (bounds_y self) (bounds_x self) (positions self).

Definition set_hits (self : t) (hs : list bool) : t :=
  Build (ship_type self) (size self) hs (start_pos self)
        (rotation self) (bounds_y self) (bounds_x self) (positions self).

(** One iteration of the loop body of [generate_positions]. *)
Definition offset (start_pos : Pos) (rotation : Direction) (i : Z) : Pos :=
  let '(y, x) := start_pos in
  match rotation with
  | RIGHT => (y, x + i)
  | LEFT => (y, x - i)
  | UP => (y - i, x)
  | DOWN => (y + i, x)
  end.

Definition generate_positions (start_pos : Pos) (rotation : Direction)
    (ship_size : nat) : list Pos :=
  map (fun i => offset start_pos rotation (Z.of_nat i)) (seq 0 ship_size).

(** [self.positions[0]] and [self.positions[-1]] raise on an empty list. *)
Definition in_bounds (self : t) : result bool :=
  match positions self with
  | [] => Raise IndexError
  | p0 :: rest =>
      Ok (pos_in_bounds p0 (bounds_y self) (bounds_x self)
          && pos_in_bounds (List.last rest p0) (bounds_y self) (bounds_x self))
  end.

Definition update_positions (self : t) (start_pos : Pos) : result (bool * t) :=
  let old_positions := positions self in
  let self := set_positions self
                (generate_positions start_pos (rotation self) (size self)) in
  ok ← in_bounds self;
  if negb ok then Ok (false, set_positions self old_positions)
  else Ok (true, set_start_pos self start_pos).

(** The constructor. *)
Definition init (ship_type : ShipType.t) (start_pos : Pos)
    (rotation : Direction) (bounds_y bounds_x : Bounds) : result t :=
  let size := ShipType.size_of ship_type in
  let self := Build ship_type size (replicate size false) start_pos rotation
                    bounds_y bounds_x [] in
  '(_, self) ← update_positions self start_pos;
  Ok self.

Definition move (self : t) (direction : Direction) : result t :=
  let '(y, x) := start_pos self in
  '(_, self) ← update_positions self
      match direction with
      | RIGHT => (y, x + 1)
      | LEFT => (y, x - 1)
      | UP => (y - 1, x)
      | DOWN => (y + 1, x)
      end;
  Ok self.

(** The [while not self.update_positions(...)] loop of [rotate]; every
    iteration costs one unit of fuel. *)
Fixpoint rotate_loop (fuel : nat) (self : t) : result t :=
  match fuel with
  | O => Pending
  | S fuel =>
      '(ok, self) ← update_positions self (start_pos self);
      if negb ok
      then rotate_loop fuel (set_rotation self (rotate_clockwise (rotation self)))
      else Ok self
  end.

Definition rotate (fuel : nat) (self : t) : result t :=
  rotate_loop fuel (set_rotation self (rotate_clockwise (rotation self))).

(** [for i, pos in enumerate(self.positions): if pos == hit_pos: ...]:
    the body runs at the first index whose position equals [hit_pos]. *)
Definition check_hit (self : t) (hit_pos : Pos) (is_missile : bool)
    : result (Hit.t * t) :=
  match list_find (fun pos => pos = hit_pos) (positions self) with
  | Some (i, _) =>
      match hits self !! i with
      | None => Raise IndexError
      | Some _ =>
          let self := set_hits self (<[i:=is_missile]> (hits self)) in
          if is_missile && forallb id (hits self)
          then Ok (Hit.sunk hit_pos (ShipType.value (ship_type self))
                           (positions self), self)
          else Ok (Hit.hit hit_pos, self)
      end
  | None => Ok (Hit.miss hit_pos, self)
  end.

End Ship.

(** ** Fleets *)

Module Fleet.

Record t : Set := Build { ships : list Ship.t }.

Definition init : t := Build [].

Definition add_ship (self : t) (ship : Ship.t) : t :=
  Build (ships self ++ [ship]).

(** The loop over [self.ships]; [seen] are the ships already consulted
    (each left as it was, since it reported a miss). *)
Fixpoint check_hit_loop (seen todo : list Ship.t) (hit_pos : Pos)
    (is_missile : bool) : result (Hit.t * t) :=
  match todo with
  | [] => Ok (Hit.miss hit_pos, Build seen)
  | ship :: todo =>
      '(hit_object, ship) ← Ship.check_hit ship hit_pos is_missile;
      if negb (HitType_eqb (Hit.hit_type hit_object) MISS)
      then Ok (hit_object, Build (seen ++ ship :: todo))
      else check_hit_loop (seen ++ [ship]) todo hit_pos is_missile
  end.

Definition check_hit (self : t) (hit_pos : Pos) (is_missile : bool)
    : result (Hit.t * t) :=
  check_hit_loop [] (ships self) hit_pos is_missile.

End Fleet.

(** ** Opponent strategies

    Every strategy keeps a reference to the manager; the two things it
    reads through it ([manager.fleet] and [manager.player_bounds_*]) are
    passed as arguments here. *)

Module CopyCatAI.

Record t : Set := Build {
  fleet : option Fleet.t;
  last_player_move : option Pos
}.

Definition init : t := Build None None.

(** [deepcopy] gives the strategy a fleet of its own. *)
Definition place_ships (self : t) (manager_fleet : Fleet.t) : t :=
  Build (Some manager_fleet) (last_player_move self).

Definition get_move (self : t) (move : Pos) : result (Hit.t * t) :=
  let self := Build (fleet self) (Some move) in
  match fleet self with
  | None => Raise AttributeError
  | Some f =>
      '(hit, f) ← Fleet.check_hit f move true;
      Ok (hit, Build (Some f) (last_player_move self))
  end.

Definition send_move (self : t) : option Pos := last_player_move self.

End CopyCatAI.

Module CopyCatWithRandomMissilesAI.

Record t : Set := Build {
  fleet : option Fleet.t;
  possible_moves : list Pos
}.

Definition init : t := Build None [].

(** [range(lo, hi)] over Python integers. *)
Definition range (lo hi : Z) : list Z := seqZ lo (hi - lo).

(** [[i] * n]: empty when [n] is not positive. *)
Definition repeat_list (i : Z) (n : Z) : list Z := replicate (Z.to_nat n) i.

(** [zip] stops at the shorter of its two arguments. *)
Fixpoint zip (xs ys : list Z) : list Pos :=
  match xs, ys with
  | x :: xs, y :: ys => (x, y) :: zip xs ys
  | _, _ => []
  end.

Definition initialize (self : t) (player_bounds_y player_bounds_x : Bounds) : t :=
  Build (fleet self)
    (concat
       (map (fun i => zip (repeat_list i player_bounds_x.2)
                          (range (player_bounds_x.1 + 1) player_bounds_x.2))
            (range (player_bounds_y.1 + 1) player_bounds_y.2))).

Definition place_ships (self : t) (manager_fleet : Fleet.t) : t :=
  Build (Some manager_fleet) (possible_moves self).

Definition get_move (self : t) (move : Pos) : result (Hit.t * t) :=
  match fleet self with
  | None => Raise AttributeError
  | Some f =>
      '(hit, f) ← Fleet.check_hit f move true;
      Ok (hit, Build (Some f) (possible_moves self))
  end.

(** [move_idx] is the value [randint(0, len(self.possible_moves) - 1)]
    returned; [randint] raises on the empty range and [pop] on an index
    outside the list. *)
Definition send_move (self : t) (move_idx : nat) : result (Pos * t) :=
  match possible_moves self with
  | [] => Raise ValueError
  | _ =>
      match possible_moves self !! move_idx with
      | None => Raise IndexError
      | Some move => Ok (move, Build (fleet self) (delete move_idx (possible_moves self)))
      end
  end.

End CopyCatWithRandomMissilesAI.

Module OmniscientAI.

Record t : Set := Build { fleet : option Fleet.t }.

Definition init : t := Build None.

Definition place_ships (self : t) (manager_fleet : Fleet.t) : t :=
  Build (Some manager_fleet).

Definition get_move (self : t) (move : Pos) : result (Hit.t * t) :=
  match fleet self with
  | None => Raise AttributeError
  | Some f =>
      '(hit, f) ← Fleet.check_hit f move true;
      Ok (hit, Build (Some f))
  end.

(** The body is [...]: the call returns [None]. *)
Definition send_move (self : t) : option Pos := None.

End OmniscientAI.

Module AIType.

Inductive t : Set := CopyCat | CopyCatWithRandomMissiles | Omniscient.

End AIType.

(** An instance of one of the three strategy classes, with the dynamic
    dispatch of the four methods of the interface. *)
Module AI.

Inductive t : Set :=
| OfCopyCat (ai : CopyCatAI.t)
| OfRandomMissiles (ai : CopyCatWithRandomMissilesAI.t)
| OfOmniscient (ai : OmniscientAI.t).

(** [AIType.get_ai(ai_type)(manager)]. *)
Definition get_ai (ai_type : AIType.t) : t :=
  match ai_type with
  | AIType.CopyCat => OfCopyCat CopyCatAI.init
  | AIType.CopyCatWithRandomMissiles => OfRandomMissiles CopyCatWithRandomMissilesAI.init
  | AIType.Omniscient => OfOmniscient OmniscientAI.init
  end.

Definition initialize (self : t) (player_bounds_y player_bounds_x : Bounds) : t :=
  match self with
  | OfRandomMissiles ai =>
      OfRandomMissiles
        (CopyCatWithRandomMissilesAI.initialize ai player_bounds_y player_bounds_x)
  | _ => self
  end.

Definition place_ships (self : t) (manager_fleet : Fleet.t) : t :=
  match self with
  | OfCopyCat ai => OfCopyCat (CopyCatAI.place_ships ai manager_fleet)
  | OfRandomMissiles ai =>
      OfRandomMissiles (CopyCatWithRandomMissilesAI.place_ships ai manager_fleet)
  | OfOmniscient ai => OfOmniscient (OmniscientAI.place_ships ai manager_fleet)
  end.

Definition get_move (self : t) (move : Pos) : result (Hit.t * t) :=
  match self with
  | OfCopyCat ai =>
      '(hit, ai) ← CopyCatAI.get_move ai move; Ok (hit, OfCopyCat ai)
  | OfRandomMissiles ai =>
      '(hit, ai) ← CopyCatWithRandomMissilesAI.get_move ai move;
      Ok (hit, OfRandomMissiles ai)
  | OfOmniscient ai =>
      '(hit, ai) ← OmniscientAI.get_move ai move; Ok (hit, OfOmniscient ai)
  end.

(** The random strategy takes its [randint] value from [draws]. *)
Definition send_move (self : t) (draws : list nat)
    : result (option Pos * t * list nat) :=
  match self with
  | OfCopyCat ai => Ok (CopyCatAI.send_move ai, self, draws)
  | OfRandomMissiles ai =>
      match draws with
      | [] => Pending
      | move_idx :: draws =>
          '(move, ai) ← CopyCatWithRandomMissilesAI.send_move ai move_idx;
          Ok (Some move, OfRandomMissiles ai, draws)
      end
  | OfOmniscient ai => Ok (OmniscientAI.send_move ai, self, draws)
  end.

End AI.

(** ** The local player adapter

    Only [LocalPlayer] is modelled: [Multiplayer] talks to a socket.  The
    adapter is taken after [set_manager], when its strategy exists. *)

Module LocalPlayer.

Record t : Set := Build {
  players_turn : bool;
  ai_type : AIType.t;
  ai : AI.t
}.

Definition init (ai_type : AIType.t) : t :=
  Build true ai_type (AI.get_ai ai_type).

Definition set_players_turn (self : t) (b : bool) : t :=
  Build b (ai_type self) (ai self).

Definition set_ai (self : t) (a : AI.t) : t :=
  Build (players_turn self) (ai_type self) a.

Definition ready (self : t) (manager_fleet : Fleet.t) : t :=
  set_ai self (AI.place_ships (ai self) manager_fleet).

Definition send_move (self : t) (move : Pos) : result (Hit.t * t) :=
  '(hit, a) ← AI.get_move (ai self) move;
  Ok (hit, set_ai self a).

End LocalPlayer.

(** ** The turn engine *)

Inductive GameState : Set := SETUP | READY | PLAYING | PLAYER_WON | OPPONENT_WON.

(** What the run reads from outside: the keys [getch] returns, in order,
    and the values [randint] returns, in order. *)
Record Input : Set := { keys : list Z; draws : list nat }.

(** Key codes: [ord(" ")], [ord("r")] and the constants of [curses]. *)
Definition ord_space : Z := 32.
Definition ord_r : Z := 114.
Definition KEY_DOWN : Z := 258.
Definition KEY_UP : Z := 259.
Definition KEY_LEFT : Z := 260.
Definition KEY_RIGHT : Z := 261.

(** [round(n / 2)] for an integer [n]: Python rounds a half to the even
    neighbour. *)
Definition round_half (n : Z) : Z :=
  let k := n / 2 in
  if Z.even n then k else if Z.even k then k else k + 1.

Module Manager.

Record t : Set := Build {
  player : LocalPlayer.t;
  scrheight : Z;
  scrwidth : Z;
  window_center : Pos;
  bounds_x : Bounds;
  bounds_y : Bounds;
  player_board_center : Pos;
  player_bounds_y : Bounds;
  player_bounds_x : Bounds;
  opponent_board_center : Pos;
  opponent_bounds_y : Bounds;
  opponent_bounds_x : Bounds;
  game_state : GameState;
  guesses : list (Pos * Hit.t);
  fleet : Fleet.t;
  player_ships_left : Z;
  opponent_ships_left : Z
}.

Definition set_player (self : t) (p : LocalPlayer.t) : t :=
  Build p (scrheight self) (scrwidth self) (window_center self)
    (bounds_x self) (bounds_y self) (player_board_center self)
    (player_bounds_y self) (player_bounds_x self) (opponent_board_center self)
    (opponent_bounds_y self) (opponent_bounds_x self) (game_state self)
    (guesses self) (fleet self) (player_ships_left self) (opponent_ships_left self).

Definition set_game_state (self : t) (g : GameState) : t :=
  Build (player self) (scrheight self) (scrwidth self) (window_center self)
    (bounds_x self) (bounds_y self) (player_board_center self)
    (player_bounds_y self) (player_bounds_x self) (opponent_board_center self)
    (opponent_bounds_y self) (opponent_bounds_x self) g
    (guesses self) (fleet self) (player_ships_left self) (opponent_ships_left self).

Definition set_guesses (self : t) (gs : list (Pos * Hit.t)) : t :=
  Build (player self) (scrheight self) (scrwidth self) (window_center self)
    (bounds_x self) (bounds_y self) (player_board_center self)
    (player_bounds_y self) (player_bounds_x self) (opponent_board_center self)
    (opponent_bounds_y self) (opponent_bounds_x self) (game_state self)
    gs (fleet self) (player_ships_left self) (opponent_ships_left self).

Definition set_fleet (self : t) (f : Fleet.t) : t :=
  Build (player self) (scrheight self) (scrwidth self) (window_center self)
    (bounds_x self) (bounds_y self) (player_board_center self)
    (player_bounds_y self) (player_bounds_x self) (opponent_board_center self)
    (opponent_bounds_y self) (opponent_bounds_x self) (game_state self)
    (guesses self) f (player_ships_left self) (opponent_ships_left self).

Definition set_opponent_ships_left (self : t) (n : Z) : t :=
  Build (player self) (scrheight self) (scrwidth self) (window_center self)
    (bounds_x self) (bounds_y self) (player_board_center self)
    (player_bounds_y self) (player_bounds_x self) (opponent_board_center self)
    (opponent_bounds_y self) (opponent_bounds_x self) (game_state self)
    (guesses self) (fleet self) (player_ships_left self) n.

(** [__initialize], with [__set_bounds] inlined; [scrheight] and
    [scrwidth] are the sizes [getmaxyx] last reported.  [ceil(40 / 2)],
    [ceil(20 / 2)] and [round(40 / 4)] are 20, 10 and 10. *)
Definition initialize (scrheight scrwidth : Z) (player : LocalPlayer.t) : t :=
  let window_center := (round_half scrheight, round_half scrwidth) in
  let half_width := 20 in
  let bounds_x := (window_center.2 - half_width, window_center.2 + half_width) in
  let half_height := 10 in
  let bounds_y := (window_center.1 - half_height, window_center.1 + half_height) in
  let player_board_center := (window_center.1, window_center.2 - 10) in
  let player_bounds_y := (bounds_y.1, bounds_y.2) in
  let player_bounds_x := (bounds_x.1, window_center.2) in
  let opponent_board_center := (window_center.1, window_center.2 + 10) in
  let opponent_bounds_y := (bounds_y.1, bounds_y.2) in
  let opponent_bounds_x := (window_center.2, bounds_x.2) in
  let player :=
    LocalPlayer.set_ai player
      (AI.initialize (LocalPlayer.ai player) player_bounds_y player_bounds_x) in
  Build player scrheight scrwidth window_center bounds_x bounds_y
    player_board_center player_bounds_y player_bounds_x
    opponent_board_center opponent_bounds_y opponent_bounds_x
    SETUP [] Fleet.init
    (Z.of_nat (length ShipType.members)) (Z.of_nat (length ShipType.members)).

(** [LocalPlayer.listen_for_move]: the strategy's shot resolved against
    the manager's own fleet.  A strategy that answers [None] gets a miss
    at [None], whose [target_position[0]] the caller cannot subscript. *)
Definition listen_for_move (self : t) (inp : Input) : result (Hit.t * t * Input) :=
  '(ai_move, a, ds) ← AI.send_move (LocalPlayer.ai (player self)) (draws inp);
  let self := set_player self (LocalPlayer.set_ai (player self) a) in
  let inp := {| keys := keys inp; draws := ds |} in
  match ai_move with
  | None => Raise TypeError
  | Some ai_move =>
      '(hit, f) ← Fleet.check_hit (fleet self) ai_move true;
      Ok (hit, set_fleet self f, inp)
  end.

Definition check_game_over (self : t) : t :=
  if opponent_ships_left self =? 0 then set_game_state self PLAYER_WON
  else if player_ships_left self =? 0 then set_game_state self OPPONENT_WON
  else self.

Definition opponents_turn (self : t) (inp : Input) : result (t * Input) :=
  '(hit, self, inp) ← listen_for_move self inp;
  let self := set_player self (LocalPlayer.set_players_turn (player self) true) in
  match Hit.hit_type hit with
  | SUNK => Ok (check_game_over self, inp)
  | _ => Ok (self, inp)
  end.

Definition get_previous_guess_result (self : t) (target : Pos) : option string :=
  match list_find (fun g : Pos * Hit.t => target = g.1) (guesses self) with
  | Some (_, (_, hit)) => Some (Hit.character hit)
  | None => None
  end.

(** The inner loop of [__reveal_sunk_ship]: overwrite the first guess at
    [offset_hit_pos], if there is one. *)
Fixpoint reveal_at (gs : list (Pos * Hit.t)) (offset_hit_pos : Pos) (hit : Hit.t)
    : list (Pos * Hit.t) :=
  match gs with
  | [] => []
  | (pos, h) :: gs =>
      if bool_decide (offset_hit_pos = pos) then (offset_hit_pos, hit) :: gs
      else (pos, h) :: reveal_at gs offset_hit_pos hit
  end.

Definition reveal_sunk_ship (self : t) (hit : Hit.t) : t :=
  fold_left
    (fun self (hit_pos : Pos) =>
       let offset := (player_board_center self).2 - hit_pos.2 in
       let offset_hit_pos := (hit_pos.1, (opponent_board_center self).2 - offset) in
       set_guesses self (reveal_at (guesses self) offset_hit_pos hit))
    (Hit.ship_positions hit) self.

Definition fire_missile (self : t) (target_pos : Pos) : result t :=
  let offset := (opponent_board_center self).2 - target_pos.2 in
  let offset_target_pos := (target_pos.1, (player_board_center self).2 - offset) in
  '(hit, p) ← LocalPlayer.send_move (player self) offset_target_pos;
  let self := set_player self p in
  let self := set_guesses self (guesses self ++ [(target_pos, hit)]) in
  match Hit.hit_type hit with
  | SUNK =>
      let self := reveal_sunk_ship self hit in
      let self := set_opponent_ships_left self (opponent_ships_left self - 1) in
      Ok (check_game_over self)
  | _ => Ok self
  end.

(** The [while True] loop of [__take_turn]: one iteration per key. *)
Fixpoint take_turn_loop (ks : list Z) (self : t) (target_pos old_pos : Pos)
    : result (t * list Z) :=
  let target_pos :=
    if negb (pos_in_bounds target_pos (opponent_bounds_y self) (opponent_bounds_x self))
    then old_pos else target_pos in
  let previous_guess_result_target_pos := get_previous_guess_result self target_pos in
  let old_pos := target_pos in
  match ks with
  | [] => Pending
  | key :: ks =>
      if key =? ord_space then
        match previous_guess_result_target_pos with
        | None =>
            self ← fire_missile self target_pos;
            Ok (set_player self (LocalPlayer.set_players_turn (player self) false), ks)
        | Some _ => take_turn_loop ks self target_pos old_pos
        end
      else if key =? KEY_RIGHT then
        take_turn_loop ks self (target_pos.1, target_pos.2 + 1) old_pos
      else if key =? KEY_LEFT then
        take_turn_loop ks self (target_pos.1, target_pos.2 - 1) old_pos
      else if key =? KEY_UP then
        take_turn_loop ks self (target_pos.1 - 1, target_pos.2) old_pos
      else if key =? KEY_DOWN then
        take_turn_loop ks self (target_pos.1 + 1, target_pos.2) old_pos
      else take_turn_loop ks self target_pos old_pos
  end.

Definition take_turn (self : t) (inp : Input) : result (t * Input) :=
  let target_pos := opponent_board_center self in
  '(self, ks) ← take_turn_loop (keys inp) self target_pos target_pos;
  Ok (self, {| keys := ks; draws := draws inp |}).

Definition ready (self : t) : t :=
  let self := set_player self (LocalPlayer.ready (player self) (fleet self)) in
  set_game_state self PLAYING.

(** [__draw_ship(ship, check_overlap=True)]: every cell of the ship is
    probed against the fleet with [is_missile=False]. *)
Fixpoint draw_ship (self : t) (cells : list Pos) (overlaps : bool)
    : result (bool * t) :=
  match cells with
  | [] => Ok (overlaps, self)
  | cell :: cells =>
      '(hit, f) ← Fleet.check_hit (fleet self) cell false;
      let self := set_fleet self f in
      let overlaps :=
        if negb (HitType_eqb (Hit.hit_type hit) MISS) then true else overlaps in
      draw_ship self cells overlaps
  end.

(** [Ship.rotate] returns within four tests of its loop or never does
    (see [rotate_fuel_enough] below), so four units of fuel lose nothing. *)
Definition rotate_fuel : nat := 4.

(** The [while True] loop of [__place_ship_loop]: one iteration per key. *)
Fixpoint place_ship_keys (ks : list Z) (self : t) (ship : Ship.t)
    : result (t * list Z) :=
  '(overlaps, self) ← draw_ship self (Ship.positions ship) false;
  match ks with
  | [] => Pending
  | key :: ks =>
      if key =? ord_space then
        if negb overlaps
        then Ok (set_fleet self (Fleet.add_ship (fleet self) ship), ks)
        else place_ship_keys ks self ship
      else if key =? KEY_RIGHT then
        ship ← Ship.move ship RIGHT; place_ship_keys ks self ship
      else if key =? KEY_LEFT then
        ship ← Ship.move ship LEFT; place_ship_keys ks self ship
      else if key =? KEY_UP then
        ship ← Ship.move ship UP; place_ship_keys ks self ship
      else if key =? KEY_DOWN then
        ship ← Ship.move ship DOWN; place_ship_keys ks self ship
      else if key =? ord_r then
        ship ← Ship.rotate rotate_fuel ship; place_ship_keys ks self ship
      else place_ship_keys ks self ship
  end.

Definition place_ship_loop (self : t) (ship_type : ShipType.t) (ks : list Z)
    : result (t * list Z) :=
  ship ← Ship.init ship_type (player_board_center self) RIGHT
           (player_bounds_y self) (player_bounds_x self);
  place_ship_keys ks self ship.

Fixpoint place_all (types : list ShipType.t) (self : t) (ks : list Z)
    : result (t * list Z) :=
  match types with
  | [] => Ok (self, ks)
  | ship_type :: types =>
      '(self, ks) ← place_ship_loop self ship_type ks;
      place_all types self ks
  end.

Definition place_ships (self : t) (inp : Input) : result (t * Input) :=
  '(self, ks) ← place_all ShipType.members self (keys inp);
  Ok (set_game_state self READY, {| keys := ks; draws := draws inp |}).

(** [__game_over] waits for a key. *)
Definition game_over (self : t) (inp : Input) : result (t * Input) :=
  match keys inp with
  | [] => Pending
  | _ :: ks => Ok (self, {| keys := ks; draws := draws inp |})
  end.

(** One iteration of the [while True] of [__loop]. *)
Definition loop_body (self : t) (inp : Input) : result (t * Input) :=
  match game_state self with
  | SETUP => place_ships self inp
  | READY => Ok (ready self, inp)
  | PLAYING =>
      if LocalPlayer.players_turn (player self) then take_turn self inp
      else opponents_turn self inp
  | PLAYER_WON | OPPONENT_WON => game_over self inp
  end.

(** The manager after [n] iterations of [__loop]. *)
Fixpoint loop (n : nat) (self : t) (inp : Input) : result (t * Input) :=
  match n with
  | O => Ok (self, inp)
  | S n => '(self, inp) ← loop_body self inp; loop n self inp
  end.

(** [Manager.start] with a local player using strategy [ai_type], on a
    screen of the given size. *)
Definition start (scrheight scrwidth : Z) (ai_type : AIType.t) : t :=
  initialize scrheight scrwidth (LocalPlayer.init ai_type).

End Manager.

(** A game is reachable when some number of iterations of the main loop,
    on some screen and some input, leads to it. *)
Definition reachable (m : Manager.t) : Prop :=
  exists scrheight scrwidth ai_type n inp inp',
    Manager.loop n (Manager.start scrheight scrwidth ai_type) inp = Ok (m, inp').

(** ** Vocabulary of the properties

    Nothing below is part of the program: these definitions name the
    situations the properties speak about, in terms of the functions above. *)

(** The bounds test of [update_positions] on the placement regenerated
    from [start_pos] and [rotation]. *)
Definition try_placement (self : Ship.t) (start_pos : Pos) (rotation : Direction)
    : result bool :=
  Ship.in_bounds
    (Ship.set_positions self
       (Ship.generate_positions start_pos rotation (Ship.size self))).

Definition fits (self : Ship.t) (rotation : Direction) : bool :=
  match try_placement self (Ship.start_pos self) rotation with
  | Ok true => true
  | _ => false
  end.

(** The orientations that pass the bounds test from the current start
    position, and how many there are. *)
Definition valid_orientations (self : Ship.t) : list Direction :=
  List.filter (fits self) [UP; RIGHT; DOWN; LEFT].

(** The start position [move] tries. *)
Definition moved_start (self : Ship.t) (direction : Direction) : Pos :=
  let '(y, x) := Ship.start_pos self in
  match direction with
  | RIGHT => (y, x + 1)
  | LEFT => (y, x - 1)
  | UP => (y - 1, x)
  | DOWN => (y + 1, x)
  end.

(** [n] calls of [rotate] in succession. *)
Fixpoint rotate_times (n : nat) (self : Ship.t) : result Ship.t :=
  match n with
  | O => Ok self
  | S n => self ← Ship.rotate Manager.rotate_fuel self; rotate_times n self
  end.

(** The ship is where its start position and orientation put it. *)
Definition placed (self : Ship.t) : Prop :=
  Ship.positions self
  = Ship.generate_positions (Ship.start_pos self) (Ship.rotation self) (Ship.size self).

Record ship_invariant (self : Ship.t) : Prop := {
  inv_positions_length : length (Ship.positions self) = Ship.size self;
  inv_placed : placed self;
  inv_hits_length : length (Ship.hits self) = Ship.size self
}.

(** The life of a ship: what the methods that mutate it can make of it. *)
Inductive lifetime (s0 : Ship.t) : Ship.t -> Prop :=
| life_start : lifetime s0 s0
| life_move s d s' :
    lifetime s0 s -> Ship.move s d = Ok s' -> lifetime s0 s'
| life_rotate s fuel s' :
    lifetime s0 s -> Ship.rotate fuel s = Ok s' -> lifetime s0 s'
| life_check_hit s hit_pos is_missile h s' :
    lifetime s0 s -> Ship.check_hit s hit_pos is_missile = Ok (h, s') ->
    lifetime s0 s'.

(** The ship answers a shot at [hit_pos] with a miss. *)
Definition reports_miss (hit_pos : Pos) (is_missile : bool) (ship : Ship.t) : Prop :=
  exists h ship',
    Ship.check_hit ship hit_pos is_missile = Ok (h, ship')
    /\ Hit.hit_type h = MISS.

(** Every ship of the fleet has a damage flag for each of its cells. *)
Definition fleet_ok (f : Fleet.t) : Prop :=
  Forall (fun s => length (Ship.hits s) = length (Ship.positions s)) (Fleet.ships f).

(** The copy-cat strategy in strict alternation: each incoming shot is
    delivered with [get_move], then [send_move] is asked for the answer. *)
Fixpoint copycat_rounds (ai : CopyCatAI.t) (incoming : list Pos)
    : result (list (option Pos) * CopyCatAI.t) :=
  match incoming with
  | [] => Ok ([], ai)
  | move :: incoming =>
      '(_, ai) ← CopyCatAI.get_move ai move;
      let out := CopyCatAI.send_move ai in
      '(outs, ai) ← copycat_rounds ai incoming;
      Ok (out :: outs, ai)
  end.

(** The engine's translation of a target on the opponent's board to the
    player's board, as computed in [__fire_missile]. *)
Definition translate (m : Manager.t) (target_pos : Pos) : Pos :=
  (target_pos.1,
   (Manager.player_board_center m).2
   - ((Manager.opponent_board_center m).2 - target_pos.2)).

(** Successive [send_move] calls of the random strategy, one per draw. *)
Fixpoint send_moves (ai : CopyCatWithRandomMissilesAI.t) (idxs : list nat)
    : result (list Pos * CopyCatWithRandomMissilesAI.t) :=
  match idxs with
  | [] => Ok ([], ai)
  | move_idx :: idxs =>
      '(move, ai) ← CopyCatWithRandomMissilesAI.send_move ai move_idx;
      '(moves, ai) ← send_moves ai idxs;
      Ok (move :: moves, ai)
  end.

(** The draws are values [randint(0, len - 1)] can return ([0 <= move_idx
    <= len - 1]), [len] being the number of moves still possible at each
    call. *)
Fixpoint valid_draws (len : nat) (idxs : list nat) : Prop :=
  match idxs with
  | [] => True
  | move_idx :: idxs => (move_idx < len)%nat /\ valid_draws (len - 1) idxs
  end.

(** The ship after [update_positions] accepted orientation [d] at the
    current start position. *)
Definition turned (self : Ship.t) (d : Direction) : Ship.t :=
  Ship.set_start_pos
    (Ship.set_positions (Ship.set_rotation self d)
       (Ship.generate_positions (Ship.start_pos self) d (Ship.size self)))
    (Ship.start_pos self).

(** The orientation [rotate] settles on from orientation [d]: the first
    of the next four, clockwise, that passes the test [f]. *)
Definition next_valid (f : Direction -> bool) (d : Direction) : option Direction :=
  List.find f
    [rotate_clockwise d;
     rotate_clockwise (rotate_clockwise d);
     rotate_clockwise (rotate_clockwise (rotate_clockwise d));
     d].

Fixpoint iter_next (f : Direction -> bool) (n : nat) (d : Direction)
    : option Direction :=
  match n with
  | O => Some d
  | S n => match next_valid f d with
           | Some d => iter_next f n d
           | None => None
           end
  end.

(** What one step of the engine may do to the counters and the state, and
    what holds of them in every game. *)
Definition counters_step (m m' : Manager.t) : Prop :=
  Manager.player_ships_left m' = Manager.player_ships_left m
  /\ (Manager.game_state m' = OPPONENT_WON ->
      Manager.game_state m = OPPONENT_WON \/ Manager.player_ships_left m = 0)
  /\ (Manager.game_state m' = PLAYER_WON ->
      Manager.game_state m = PLAYER_WON \/ Manager.opponent_ships_left m' = 0).

Definition counters_invariant (m : Manager.t) : Prop :=
  Manager.player_ships_left m = 5
  /\ Manager.game_state m <> OPPONENT_WON
  /\ (Manager.game_state m = PLAYER_WON -> Manager.opponent_ships_left m = 0).

(** ** Sample ships and a sample game *)

(** The destroyer of the example scenario: start (5,5), facing right. *)
Definition destroyer_5_5 : Ship.t :=
  Ship.Build ShipType.Destroyer 3 [false; false; false] (5, 5) RIGHT (0, 20) (0, 20)
    [(5, 5); (5, 6); (5, 7)].

(** A patrol boat against the left border: it cannot face left. *)
Definition edge_boat : Ship.t :=
  Ship.Build ShipType.PatrolBoat 2 [false; false] (10, 1) RIGHT (0, 20) (0, 20)
    [(10, 1); (10, 2)].

(** A patrol boat built on the border itself: no cell was accepted. *)
Definition stranded_boat : Ship.t :=
  Ship.Build ShipType.PatrolBoat 2 [false; false] (0, 0) RIGHT (0, 10) (0, 10) [].

(** A patrol boat built facing left in the top left corner of a small
    board: the constructor rejected the placement, though the boat would
    fit facing right or down. *)
Definition corner_boat : Ship.t :=
  Ship.Build ShipType.PatrolBoat 2 [false; false] (1, 1) LEFT (0, 3) (0, 3) [].

(** A patrol boat on a board with a single interior cell: no orientation fits. *)
Definition boxed_boat : Ship.t :=
  Ship.Build ShipType.PatrolBoat 2 [false; false] (1, 1) RIGHT (0, 2) (0, 2) [].

(** A game on a 30 x 85 screen against the random strategy.  The player
    puts the five ships on rows 15 to 19 ([k] times down, then space) and
    then fires seventeen times along row 14 of the opponent's board, where
    nothing is; the draws make the strategy pop, one by one, the seventeen
    cells of the player's ships. *)
Definition placement_keys : list Z :=
  concat (map (fun k => replicate k KEY_DOWN ++ [ord_space]) (seq 0 5)).

Definition shot_keys (side : Z) (j : nat) : list Z :=
  [KEY_UP] ++ replicate j side ++ [ord_space].

Definition player_keys : list Z :=
  concat (map (shot_keys KEY_LEFT) (seq 0 9))
  ++ concat (map (shot_keys KEY_RIGHT) (seq 1 8)).

Definition losing_input : Input :=
  {| keys := placement_keys ++ player_keys;
     draws := [180; 180; 197; 197; 197; 213; 213; 213; 229; 229; 229; 229;
               244; 244; 244; 244; 244]%nat |}.

Definition sunk_fleet : Fleet.t :=
  Fleet.Build
    [Ship.Build ShipType.PatrolBoat 2 [true; true] (15, 32) RIGHT (5, 25) (22, 42)
       [(15, 32); (15, 33)];
     Ship.Build ShipType.Submarine 3 [true; true; true] (16, 32) RIGHT (5, 25) (22, 42)
       [(16, 32); (16, 33); (16, 34)];
     Ship.Build ShipType.Destroyer 3 [true; true; true] (17, 32) RIGHT (5, 25) (22, 42)
       [(17, 32); (17, 33); (17, 34)];
     Ship.Build ShipType.Battleship 4 [true; true; true; true] (18, 32) RIGHT
       (5, 25) (22, 42) [(18, 32); (18, 33); (18, 34); (18, 35)];
     Ship.Build ShipType.Carrier 5 [true; true; true; true; true] (19, 32) RIGHT
       (5, 25) (22, 42) [(19, 32); (19, 33); (19, 34); (19, 35); (19, 36)]].

(** ** Text alignment

    [TextAlignment.align] and the one place of [Information] whose
    arithmetic matters: the blank line [__clear_status] writes.  A text is
    drawn from its start column to the right, one column per character. *)

Module TextAlignment.

Inductive t : Set := CENTER | LEFT.

Definition align (x : Z) (text : string) (alignment : t) : Z :=
  match alignment with
  | CENTER => x - round_half (Z.of_nat (String.length text))
  | LEFT => x
  end.

End TextAlignment.

(** [" " * n]: empty when [n] is not positive. *)
Definition spaces (n : Z) : string :=
  String.string_of_list_ascii (replicate (Z.to_nat n) Ascii.Space).

(** The column at which [Information.__clear_status] starts to write its
    [scrwidth - 1] blanks, centred on the window. *)
Definition clear_status_column (m : Manager.t) : Z :=
  TextAlignment.align (Manager.window_center m).2
    (spaces (Manager.scrwidth m - 1)) TextAlignment.CENTER.

(** ** Further vocabulary *)

Definition opposite (d : Direction) : Direction :=
  match d with
  | UP => DOWN
  | DOWN => UP
  | LEFT => RIGHT
  | RIGHT => LEFT
  end.

(** The translation of a cell of the player's board to the opponent's
    board, as computed in [__reveal_sunk_ship]. *)
Definition untranslate (m : Manager.t) (hit_pos : Pos) : Pos :=
  (hit_pos.1,
   (Manager.opponent_board_center m).2
   - ((Manager.player_board_center m).2 - hit_pos.2)).

(** No ship of the fleet has a damage flag set. *)
Definition undamaged (f : Fleet.t) : Prop :=
  Forall (fun s => Forall (fun b => b = false) (Ship.hits s)) (Fleet.ships f).

(** Some ship of the fleet lies on the cell. *)
Definition occupied (f : Fleet.t) (cell : Pos) : Prop :=
  exists s, s ∈ Fleet.ships f /\ cell ∈ Ship.positions s.

(** No two ships of the list share a cell. *)
Fixpoint disjoint_ships (l : list Ship.t) : Prop :=
  match l with
  | [] => True
  | s :: l =>
      (forall s' cell, s' ∈ l -> cell ∈ Ship.positions s -> cell ∉ Ship.positions s')
      /\ disjoint_ships l
  end.

(** The targets of the guess log. *)
Definition guessed (m : Manager.t) : list Pos := (Manager.guesses m).*1.

(** The fleet of the strategy, whichever it is. *)
Definition ai_fleet (a : AI.t) : option Fleet.t :=
  match a with
  | AI.OfCopyCat ai => CopyCatAI.fleet ai
  | AI.OfRandomMissiles ai => CopyCatWithRandomMissilesAI.fleet ai
  | AI.OfOmniscient ai => OmniscientAI.fleet ai
  end.

(** The ships of a fleet all of whose damage flags are set. *)
Definition sunk_ships (f : Fleet.t) : list Ship.t :=
  List.filter (fun s => forallb id (Ship.hits s)) (Fleet.ships f).

(** A ship as the setup phase handles it: on the player's board, where
    its start position and orientation put it, of the size of its type,
    and without damage. *)
Definition afloat (by_ bx : Bounds) (s : Ship.t) : Prop :=
  ship_invariant s
  /\ Ship.in_bounds s = Ok true
  /\ Ship.size s = ShipType.size_of (Ship.ship_type s)
  /\ Forall (fun b => b = false) (Ship.hits s)
  /\ Ship.bounds_y s = by_
  /\ Ship.bounds_x s = bx.

Definition legal_fleet (by_ bx : Bounds) (f : Fleet.t) : Prop :=
  Forall (afloat by_ bx) (Fleet.ships f) /\ disjoint_ships (Fleet.ships f).

(** The ship carried [n] steps in direction [t]: what [n] accepted
    [move] calls make of it. *)
Definition carried (s : Ship.t) (t : Direction) (n : Z) : Ship.t :=
  let p := Ship.offset (Ship.start_pos s) t n in
  Ship.set_start_pos
    (Ship.set_positions s (Ship.generate_positions p (Ship.rotation s) (Ship.size s))) p.

(** The key that moves a ship in direction [t] during the setup. *)
Definition arrow_key (t : Direction) : Z :=
  match t with
  | RIGHT => KEY_RIGHT
  | LEFT => KEY_LEFT
  | UP => KEY_UP
  | DOWN => KEY_DOWN
  end.

(** The cells of all the ships of a fleet, and the number of cells that
    ships of the given types take. *)
Definition fleet_cells (f : Fleet.t) : list Pos :=
  concat (Ship.positions <$> Fleet.ships f).

Definition sizes (types : list ShipType.t) : nat :=
  foldr (fun ty n => (ShipType.size_of ty + n)%nat) 0%nat types.

(** A damage flag is set exactly on the cells whose counterpart (under
    [un]) is among the targets. *)
Definition flags_follow (un : Pos -> Pos) (targets : list Pos) (fa : Fleet.t) : Prop :=
  forall s i cell,
    s ∈ Fleet.ships fa -> Ship.positions s !! i = Some cell ->
    (Ship.hits s !! i = Some true <-> un cell ∈ targets).

(** The ships of a fleet in play: distinct cells, a flag per cell, at least
    one cell, and no cell shared between two ships. *)
Definition fleet_in_play (fa : Fleet.t) : Prop :=
  Forall (fun s => NoDup (Ship.positions s)
                   /\ length (Ship.hits s) = length (Ship.positions s)
                   /\ Ship.positions s <> [])
    (Fleet.ships fa)
  /\ disjoint_ships (Fleet.ships fa).

(** What holds while the game is played, and once the player has won. *)
Definition playing_invariant (m : Manager.t) : Prop :=
  pos_in_bounds (Manager.opponent_board_center m)
    (Manager.opponent_bounds_y m) (Manager.opponent_bounds_x m) = true
  /\ fleet_ok (Manager.fleet m)
  /\ NoDup (guessed m)
  /\ Forall (fun t => pos_in_bounds t (Manager.opponent_bounds_y m)
                        (Manager.opponent_bounds_x m) = true) (guessed m)
  /\ exists fa,
      ai_fleet (LocalPlayer.ai (Manager.player m)) = Some fa
      /\ fleet_in_play fa
      /\ length (Fleet.ships fa) = 5%nat
      /\ flags_follow (untranslate m) (guessed m) fa
      /\ Manager.opponent_ships_left m = 5 - Z.of_nat (length (sunk_ships fa))
      /\ (Manager.game_state m = PLAYING -> 0 < Manager.opponent_ships_left m).

(** What holds in each state of the game. *)
Definition game_invariant (m : Manager.t) : Prop :=
  match Manager.game_state m with
  | SETUP => exists scrheight scrwidth ai_type, m = Manager.start scrheight scrwidth ai_type
  | READY =>
      exists scrheight scrwidth ai_type f,
        m = Manager.set_game_state
              (Manager.set_fleet (Manager.start scrheight scrwidth ai_type) f) READY
        /\ Ship.ship_type <$> Fleet.ships f = ShipType.members
        /\ legal_fleet (Manager.player_bounds_y m) (Manager.player_bounds_x m) f
  | PLAYING | PLAYER_WON => playing_invariant m
  | OPPONENT_WON => False
  end.

(** A game against the copy-cat strategy after the setup, the ready step
    and the first shot of the player (at (14,52), a miss), with the input
    still to come. *)
Definition sample_run : result (Manager.t * Input) :=
  Manager.loop 3 (Manager.start 30 85 AIType.CopyCat) losing_input.

Definition sample_game : Manager.t :=
  match sample_run with
  | Ok (m, _) => m
  | _ => Manager.start 30 85 AIType.CopyCat
  end.

Definition sample_rest : Input :=
  match sample_run with
  | Ok (_, inp) => inp
  | _ => losing_input
  end.

(** * Properties *)

(** ** Placements and the bounds test *)

Lemma generate_positions_length p d n :
  length (Ship.generate_positions p d n) = n.
Proof. unfold Ship.generate_positions. by rewrite length_map, length_seq. Qed.

Lemma offset_inj p d (i j : Z) : Ship.offset p d i = Ship.offset p d j -> i = j.
Proof. destruct p as [y x], d; simpl; intros [=]; lia. Qed.

Lemma generate_positions_NoDup p d n : NoDup (Ship.generate_positions p d n).
Proof.
  unfold Ship.generate_positions. apply NoDup_fmap_2_strong; [|apply NoDup_seq].
  intros i j _ _ H. apply offset_inj in H. lia.
Qed.

Lemma generate_positions_S p d n :
  Ship.generate_positions p d (S n)
  = Ship.generate_positions p d n ++ [Ship.offset p d (Z.of_nat n)].
Proof.
  unfold Ship.generate_positions. rewrite seq_S, map_app. done.
Qed.

Lemma offset_0 p d : Ship.offset p d 0 = p.
Proof. destruct p, d; simpl; f_equal; lia. Qed.

Lemma last_of_snoc (p x : Pos) rest l : p :: rest = l ++ [x] -> List.last rest p = x.
Proof.
  destruct l as [|a l]; simpl; intros [= -> ->]; [done|apply last_last].
Qed.

Lemma generate_positions_cons p d n :
  exists rest, Ship.generate_positions p d (S n) = p :: rest
    /\ List.last rest p = Ship.offset p d (Z.of_nat n).
Proof.
  exists (map (fun i => Ship.offset p d (Z.of_nat i)) (seq 1 n)).
  assert (Ship.generate_positions p d (S n)
          = p :: map (fun i => Ship.offset p d (Z.of_nat i)) (seq 1 n)) as E.
  { unfold Ship.generate_positions. simpl. by rewrite offset_0. }
  split; [done|].
  eapply last_of_snoc. rewrite <- E. apply generate_positions_S.
Qed.

(** The bounds test on a regenerated placement looks at the start cell
    and at the cell [size - 1] steps away. *)
Lemma try_placement_S s p d n :
  Ship.size s = S n ->
  try_placement s p d
  = Ok (pos_in_bounds p (Ship.bounds_y s) (Ship.bounds_x s)
        && pos_in_bounds (Ship.offset p d (Z.of_nat n)) (Ship.bounds_y s) (Ship.bounds_x s)).
Proof.
  intros Hn. unfold try_placement, Ship.in_bounds. simpl. rewrite Hn.
  destruct (generate_positions_cons p d n) as (rest & -> & ->). done.
Qed.

Lemma try_placement_0 s p d : Ship.size s = O -> try_placement s p d = Raise IndexError.
Proof. intros Hn. unfold try_placement, Ship.in_bounds. simpl. by rewrite Hn. Qed.

Lemma set_positions_id s : Ship.set_positions s (Ship.positions s) = s.
Proof. by destruct s. Qed.

(** [update_positions] in one equation. *)
Lemma update_positions_eq s p :
  Ship.update_positions s p =
  ok ← try_placement s p (Ship.rotation s);
  Ok (if ok : bool then
        (true, Ship.set_start_pos
                 (Ship.set_positions s
                    (Ship.generate_positions p (Ship.rotation s) (Ship.size s))) p)
      else (false, s)).
Proof.
  unfold Ship.update_positions, try_placement.
  destruct (Ship.in_bounds _) as [[]| |]; simpl; try done.
  by destruct s.
Qed.

Lemma rotate_loop_S n s :
  Ship.rotate_loop (S n) s =
  match try_placement s (Ship.start_pos s) (Ship.rotation s) with
  | Ok true => Ok (turned s (Ship.rotation s))
  | Ok false =>
      Ship.rotate_loop n (Ship.set_rotation s (rotate_clockwise (Ship.rotation s)))
  | Raise e => Raise e
  | Pending => Pending
  end.
Proof.
  cbn [Ship.rotate_loop]. rewrite update_positions_eq.
  by destruct (try_placement _ _ _) as [[]| |].
Qed.

Lemma fits_true s d n :
  Ship.size s = S n ->
  try_placement s (Ship.start_pos s) d = Ok (fits s d).
Proof.
  intros Hn. unfold fits. rewrite (try_placement_S _ _ _ n Hn). by destruct (_ && _).
Qed.

Lemma rotate_loop_fits n0 n s :
  Ship.size s = S n0 ->
  Ship.rotate_loop (S n) s =
  if fits s (Ship.rotation s) then Ok (turned s (Ship.rotation s))
  else Ship.rotate_loop n (Ship.set_rotation s (rotate_clockwise (Ship.rotation s))).
Proof.
  intros Hn. rewrite rotate_loop_S, (fits_true _ _ n0 Hn). by destruct (fits _ _).
Qed.

(** One test of the loop of [rotate], on a ship of size [S n0] that is
    [s] up to its orientation. *)
Ltac rotate_test n0 s :=
  rewrite (rotate_loop_fits n0) by done;
  change (fits (Ship.set_rotation ?s' ?d)) with (fits s);
  cbn [Ship.rotation Ship.set_rotation].

Lemma rotate_clockwise_four d :
  rotate_clockwise (rotate_clockwise (rotate_clockwise (rotate_clockwise d))) = d.
Proof. by destruct d. Qed.

Lemma rotate_4_eq n0 s :
  Ship.size s = S n0 ->
  Ship.rotate 4 s =
  match next_valid (fits s) (Ship.rotation s) with
  | Some d => Ok (turned s d)
  | None => Pending
  end.
Proof.
  intros Hn. unfold Ship.rotate, next_valid. cbn [List.find].
  do 3 (rotate_test n0 s; destruct (fits s (rotate_clockwise _)); [done|]).
  rotate_test n0 s. rewrite rotate_clockwise_four.
  by destruct (fits s (Ship.rotation s)).
Qed.

Lemma rotate_loop_mono n k s s' :
  Ship.rotate_loop n s = Ok s' -> Ship.rotate_loop (n + k) s = Ok s'.
Proof.
  revert s. induction n as [|n IH]; intros s; [done|].
  rewrite Nat.add_succ_l, !rotate_loop_S.
  destruct (try_placement _ _ _) as [[]| |]; auto.
Qed.

Lemma rotate_loop_never n s :
  (forall d, try_placement s (Ship.start_pos s) d = Ok false) ->
  Ship.rotate_loop n s = Pending.
Proof.
  revert s. induction n as [|n IH]; intros s Hall; [done|].
  rewrite rotate_loop_S, Hall. apply IH. intros d. apply Hall.
Qed.

Lemma next_valid_Some f d d' : next_valid f d = Some d' -> f d' = true.
Proof. unfold next_valid. intros H. by apply find_some in H as [_ ?]. Qed.

Lemma next_valid_None f d : next_valid f d = None -> forall d', f d' = false.
Proof.
  unfold next_valid. intros H d'.
  apply (find_none _ _ H). destruct d, d'; simpl; tauto.
Qed.

Lemma turned_in_bounds s d n :
  Ship.size s = S n -> fits s d = true -> Ship.in_bounds (turned s d) = Ok true.
Proof.
  intros Hn Hf. rewrite <- Hf, <- (fits_true _ _ n Hn). done.
Qed.

Lemma placed_turned s : placed s -> turned s (Ship.rotation s) = s.
Proof. unfold placed, turned. destruct s; simpl; intros ->. done. Qed.

(** [rotate] returns within four tests of its loop or never does. *)
Lemma rotate_fuel_enough s :
  Ship.rotate Manager.rotate_fuel s = Pending ->
  forall fuel, Ship.rotate fuel s = Pending.
Proof.
  intros H fuel. destruct (Ship.size s) as [|n0] eqn:Hn.
  - exfalso. revert H. unfold Ship.rotate, Manager.rotate_fuel.
    rewrite rotate_loop_S, try_placement_0; done.
  - unfold Manager.rotate_fuel in H. rewrite (rotate_4_eq n0) in H by done.
    destruct (next_valid _ _) eqn:Hnv; [done|].
    apply rotate_loop_never. intros d.
    change (try_placement s (Ship.start_pos s) d = Ok false).
    rewrite (fits_true _ _ n0 Hn). f_equal. by eapply next_valid_None.
Qed.

Lemma rotate_times_turned n0 s k d :
  Ship.size s = S n0 ->
  rotate_times k (turned s d) =
  match iter_next (fits s) k d with
  | Some d' => Ok (turned s d')
  | None => Pending
  end.
Proof.
  intros Hn. revert d. induction k as [|k IH]; intros d; [done|].
  cbn [rotate_times iter_next]. unfold Manager.rotate_fuel.
  rewrite (rotate_4_eq n0) by done.
  change (fits (turned s d)) with (fits s).
  change (Ship.rotation (turned s d)) with d.
  destruct (next_valid (fits s) d) as [d1|]; [|done].
  exact (IH d1).
Qed.

Lemma turned_inj s d d' : turned s d = turned s d' -> d = d'.
Proof. intros H. apply (f_equal Ship.rotation) in H. done. Qed.

Lemma iter_next_four f d :
  f d = true ->
  iter_next f 4 d = Some d <-> length (List.filter f [UP; RIGHT; DOWN; LEFT]) <> 3%nat.
Proof.
  intros Hd. unfold iter_next, next_valid.
  destruct (f UP) eqn:E1, (f RIGHT) eqn:E2, (f DOWN) eqn:E3, (f LEFT) eqn:E4;
    destruct d; try congruence;
    repeat (first [rewrite E1 | rewrite E2 | rewrite E3 | rewrite E4 | progress simpl]);
    split; intros; try congruence; try lia; try done.
Qed.

Lemma next_valid_self f d : f d = true -> exists d', next_valid f d = Some d' /\ f d' = true.
Proof.
  intros Hd. destruct (next_valid f d) as [d'|] eqn:E.
  - exists d'. split; [done|]. by eapply next_valid_Some.
  - pose proof (next_valid_None _ _ E d). congruence.
Qed.

Lemma iter_next_Some f n d :
  f d = true -> exists d', iter_next f n d = Some d' /\ f d' = true.
Proof.
  revert d. induction n as [|n IH]; intros d Hd; [by exists d|].
  cbn [iter_next]. destruct (next_valid_self f d Hd) as (d1 & -> & Hd1). by apply IH.
Qed.

(** With exactly three orientations passing the test, one of them [d]:
    four steps are worth one, and that one step goes to the next
    orientation clockwise, or to the one after when the next fails. *)
Lemma iter_next_three f d :
  f d = true ->
  length (List.filter f [UP; RIGHT; DOWN; LEFT]) = 3%nat ->
  let d' := if f (rotate_clockwise d) then rotate_clockwise d
            else rotate_clockwise (rotate_clockwise d) in
  next_valid f d = Some d' /\ iter_next f 4 d = Some d' /\ d' <> d /\ f d' = true.
Proof.
  intros Hd. unfold iter_next, next_valid. cbn [List.filter List.find length].
  destruct d; cbn [rotate_clockwise];
    destruct (f UP) eqn:E1, (f RIGHT) eqn:E2, (f DOWN) eqn:E3, (f LEFT) eqn:E4;
    try congruence; cbn; intros; try lia;
    repeat (first [rewrite E1 | rewrite E2 | rewrite E3 | rewrite E4 | progress cbn]);
    repeat split; congruence.
Qed.

Lemma move_eq s d :
  Ship.move s d =
  ok ← try_placement s (moved_start s d) (Ship.rotation s);
  Ok (if ok : bool then
        Ship.set_start_pos
          (Ship.set_positions s
             (Ship.generate_positions (moved_start s d) (Ship.rotation s) (Ship.size s)))
          (moved_start s d)
      else s).
Proof.
  unfold Ship.move, moved_start. destruct (Ship.start_pos s) as [y x].
  rewrite update_positions_eq.
  by destruct (try_placement _ _ _) as [[]| |].
Qed.

(** C7: a [move] whose regenerated placement fails the bounds test returns
    the ship exactly as it was (positions and start position included,
    and no exception); whenever [move] returns, the orientation and the
    damage flags are the ones before the call; and on a ship of positive
    size [move] always returns. *)
Theorem move_out_of_bounds_is_noop (s : Ship.t) (d : Direction) :
  (try_placement s (moved_start s d) (Ship.rotation s) = Ok false ->
   Ship.move s d = Ok s)
  /\ (forall s', Ship.move s d = Ok s' ->
        Ship.rotation s' = Ship.rotation s /\ Ship.hits s' = Ship.hits s)
  /\ ((0 < Ship.size s)%nat -> exists s', Ship.move s d = Ok s').
Proof.
  rewrite move_eq. split; [|split].
  - by intros ->.
  - intros s'. destruct (try_placement _ _ _) as [[]| |]; cbn; intros [= <-]; done.
  - intros Hsize. destruct (Ship.size s) as [|n] eqn:Hn; [lia|].
    rewrite (try_placement_S _ _ _ n Hn). cbn. eauto.
Qed.

Lemma rotate_loop_Ok fuel s s' :
  Ship.rotate_loop fuel s = Ok s' ->
  exists d, s' = turned s d /\ try_placement s (Ship.start_pos s) d = Ok true.
Proof.
  revert s. induction fuel as [|fuel IH]; intros s; [done|].
  rewrite rotate_loop_S.
  destruct (try_placement _ _ _) as [[]| |] eqn:E; try done.
  - intros [= <-]. eauto.
  - intros H. apply IH in H as (d & -> & H). exists d. done.
Qed.

Lemma rotate_Ok fuel s s' :
  Ship.rotate fuel s = Ok s' ->
  exists d, s' = turned s d /\ try_placement s (Ship.start_pos s) d = Ok true.
Proof. intros H. apply rotate_loop_Ok in H as (d & -> & H). by exists d. Qed.

Lemma check_hit_frame s pos m h s' :
  Ship.check_hit s pos m = Ok (h, s') ->
  exists hs, s' = Ship.set_hits s hs /\ length hs = length (Ship.hits s)
             /\ Hit.target_position h = pos.
Proof.
  unfold Ship.check_hit.
  destruct (list_find _ _) as [[i p]|].
  - destruct (Ship.hits s !! i); [|done].
    destruct (_ && _); intros [= <- <-]; eexists; (split; [done|]);
      by rewrite length_insert.
  - intros [= <- <-]. exists (Ship.hits s). by destruct s.
Qed.

Lemma init_eq ty p d by_ bx :
  let blank := Ship.Build ty (ShipType.size_of ty)
                 (replicate (ShipType.size_of ty) false) p d by_ bx [] in
  Ship.init ty p d by_ bx =
  ok ← try_placement blank p d;
  Ok (if ok : bool then turned blank d else blank).
Proof.
  intros blank. unfold Ship.init. fold blank. rewrite update_positions_eq.
  by destruct (try_placement _ _ _) as [[]| |].
Qed.

Lemma size_of_pos ty : exists n, ShipType.size_of ty = S n.
Proof. destruct ty; simpl; eauto. Qed.

Lemma init_total ty p d by_ bx : exists s0, Ship.init ty p d by_ bx = Ok s0
  /\ Ship.ship_type s0 = ty /\ Ship.size s0 = ShipType.size_of ty
  /\ Ship.hits s0 = replicate (ShipType.size_of ty) false
  /\ (Ship.positions s0 = [] \/ (placed s0 /\ Ship.in_bounds s0 = Ok true)).
Proof.
  rewrite init_eq. destruct (size_of_pos ty) as [n Hn].
  set (blank := Ship.Build _ _ _ _ _ _ _ _).
  pose proof (fits_true blank d n Hn) as Hf. cbn [Ship.start_pos blank] in Hf.
  rewrite Hf. destruct (fits blank d) eqn:E; cbn;
    eexists; (split; [done|]); repeat split; auto.
  right. split; [done|]. by apply (turned_in_bounds _ _ n).
Qed.

Lemma lifetime_invariant s0 s :
  ship_invariant s0 -> lifetime s0 s ->
  ship_invariant s /\ Ship.size s = Ship.size s0 /\ Ship.ship_type s = Ship.ship_type s0.
Proof.
  intros H0. induction 1 as [|s d s' _ IH Hm|s fuel s' _ IH Hr|s pos m h s' _ IH Hc].
  - done.
  - destruct IH as ([H1 H2 H3] & H4 & H5). rewrite move_eq in Hm.
    destruct (try_placement _ _ _) as [[]| |]; cbn in Hm; try done;
      injection Hm as <-; [|done].
    repeat split; try done. cbn. by rewrite generate_positions_length.
  - destruct IH as ([H1 H2 H3] & H4 & H5).
    apply rotate_Ok in Hr as (d' & -> & _).
    repeat split; try done. cbn. by rewrite generate_positions_length.
  - destruct IH as ([H1 H2 H3] & H4 & H5).
    apply check_hit_frame in Hc as (hs & -> & Hl & _).
    repeat split; try done. cbn. congruence.
Qed.

(** A ship whose constructor accepted the placement (the new ship passes
    [in_bounds]) keeps exactly [size] positions, generated from its start
    position and orientation, and [size] damage flags, through every
    [move], [rotate] and [check_hit] that returns. *)
Lemma constructed_in_bounds_invariant
    (ty : ShipType.t) (p : Pos) (d : Direction) (by_ bx : Bounds) (s0 s : Ship.t) :
  Ship.init ty p d by_ bx = Ok s0 ->
  Ship.in_bounds s0 = Ok true ->
  lifetime s0 s ->
  ship_invariant s
  /\ Ship.size s = ShipType.size_of ty
  /\ Ship.hits s0 = replicate (ShipType.size_of ty) false.
Proof.
  intros Hi Hb Hl.
  destruct (init_total ty p d by_ bx) as (s0' & Hi' & Hty & Hsz & Hh & Hp).
  rewrite Hi in Hi'. injection Hi' as <-.
  destruct Hp as [Hp|[Hp _]].
  { unfold Ship.in_bounds in Hb. by rewrite Hp in Hb. }
  assert (ship_invariant s0) as H0.
  { split; [|done|by rewrite Hh, length_replicate].
    rewrite Hp. apply generate_positions_length. }
  destruct (lifetime_invariant _ _ H0 Hl) as (? & ? & ?).
  split; [done|]. split; [congruence|done].
Qed.

(** C5: if some orientation passes the bounds test from the current start
    position, [rotate] returns (with any fuel of four or more), and the
    ship it leaves is in bounds, placed according to its new orientation,
    at the same start position; if every orientation fails the test,
    [rotate] returns with no amount of fuel: the loop never ends. *)
Theorem rotate_terminates_iff_an_orientation_fits (s : Ship.t) :
  ((exists d, try_placement s (Ship.start_pos s) d = Ok true) ->
   exists s',
     (forall fuel, (4 <= fuel)%nat -> Ship.rotate fuel s = Ok s')
     /\ Ship.in_bounds s' = Ok true
     /\ placed s'
     /\ Ship.start_pos s' = Ship.start_pos s)
  /\ ((forall d, try_placement s (Ship.start_pos s) d = Ok false) ->
      forall fuel, Ship.rotate fuel s = Pending).
Proof.
  split.
  - intros [d Hd].
    destruct (Ship.size s) as [|n0] eqn:Hn.
    { by rewrite try_placement_0 in Hd. }
    pose proof (rotate_4_eq n0 s Hn) as H4.
    destruct (next_valid (fits s) (Ship.rotation s)) as [d'|] eqn:Hnv.
    + exists (turned s d'). split; [|split; [|done]].
      * intros fuel Hfuel. replace fuel with (4 + (fuel - 4))%nat by lia.
        by apply rotate_loop_mono.
      * apply (turned_in_bounds _ _ n0 Hn). by eapply next_valid_Some.
    + pose proof (next_valid_None _ _ Hnv d) as Hf.
      rewrite (fits_true _ _ n0 Hn), Hf in Hd. done.
  - intros Hall fuel. by apply rotate_loop_never.
Qed.

(** C4, amended: for a ship that sits in bounds where its start position
    and orientation put it, four [rotate] calls in succession always
    return, and leave a ship in bounds at the same start position with
    the same damage flags.  They give back the very same ship exactly
    when the number of orientations that fit from its start position is
    not three (it is one, two or four).  With exactly three, one
    orientation fails: if it is the next one clockwise [rotate] skips it,
    and four calls do what one call does -- they leave the ship turned to
    the next orientation clockwise that fits, which is not the original
    one. *)
Theorem rotate_four_times_returns (s : Ship.t) :
  placed s ->
  Ship.in_bounds s = Ok true ->
  (exists s',
      rotate_times 4 s = Ok s'
      /\ placed s'
      /\ Ship.in_bounds s' = Ok true
      /\ Ship.start_pos s' = Ship.start_pos s
      /\ Ship.hits s' = Ship.hits s)
  /\ (rotate_times 4 s = Ok s <-> length (valid_orientations s) <> 3%nat)
  /\ (length (valid_orientations s) = 3%nat ->
      let d := Ship.rotation s in
      let d' := if fits s (rotate_clockwise d) then rotate_clockwise d
                else rotate_clockwise (rotate_clockwise d) in
      fits s d' = true
      /\ d' <> d
      /\ Ship.rotate Manager.rotate_fuel s = Ok (turned s d')
      /\ rotate_times 4 s = Ok (turned s d')
      /\ Ship.rotation (turned s d') = d'
      /\ Ship.positions (turned s d')
         = Ship.generate_positions (Ship.start_pos s) d' (Ship.size s)).
Proof.
  intros Hp Hb.
  destruct (Ship.size s) as [|n0] eqn:Hn.
  { unfold Ship.in_bounds in Hb. rewrite Hp, Hn in Hb. done. }
  assert (fits s (Ship.rotation s) = true) as Hf.
  { unfold fits, try_placement. rewrite <- Hp, set_positions_id, Hb. done. }
  pose proof (rotate_times_turned n0 s 4 (Ship.rotation s) Hn) as H4.
  rewrite (placed_turned s Hp) in H4.
  split; [|split].
  - destruct (iter_next_Some (fits s) 4 _ Hf) as (d' & E & Hd').
    rewrite E in H4. exists (turned s d'). split; [done|]. split; [done|].
    split; [by apply (turned_in_bounds _ _ n0)|done].
  - rewrite H4. unfold valid_orientations. rewrite <- (iter_next_four _ _ Hf).
    destruct (iter_next _ _ _) as [d'|]; [|done].
    split.
    + intros [= H]. f_equal. apply (turned_inj s). by rewrite placed_turned.
    + intros [= ->]. by rewrite placed_turned.
  - intros H3. cbv zeta.
    pose proof (iter_next_three (fits s) (Ship.rotation s) Hf H3) as H.
    cbv zeta in H.
    set (d' := if fits s (rotate_clockwise (Ship.rotation s)) then _ else _) in *.
    destruct H as (E1 & E4 & Hne & Hd').
    split; [exact Hd'|]. split; [exact Hne|]. split.
    + unfold Manager.rotate_fuel. rewrite (rotate_4_eq n0) by done. by rewrite E1.
    + split; [|split; [reflexivity|cbn; by rewrite Hn]]. rewrite H4. by rewrite E4.
Qed.

(** ** Hit resolution *)

Lemma find_cell (ps : list Pos) (i : nat) (pos : Pos) :
  NoDup ps -> ps !! i = Some pos ->
  list_find (fun p => p = pos) ps = Some (i, pos).
Proof.
  intros Hnd Hi. apply list_find_Some. split; [done|]. split; [done|].
  intros j y Hj Hlt ->.
  pose proof (NoDup_lookup _ _ _ _ Hnd Hi Hj). lia.
Qed.

Lemma forallb_id_true (hs : list bool) :
  forallb id hs = true <-> forall j, (j < length hs)%nat -> hs !! j = Some true.
Proof.
  rewrite forallb_forall. split.
  - intros H j Hj. destruct (lookup_lt_is_Some_2 hs j Hj) as [b Hb].
    rewrite Hb. f_equal. apply (H b). apply list_elem_of_In. by eapply list_elem_of_lookup_2.
  - intros H b Hb. apply list_elem_of_In, list_elem_of_lookup in Hb as [j Hj].
    pose proof (lookup_lt_Some _ _ _ Hj). rewrite (H j) in Hj by done. by injection Hj.
Qed.

Lemma check_hit_missile_at (s : Ship.t) (pos : Pos) (i : nat) (b : bool) :
  NoDup (Ship.positions s) ->
  Ship.positions s !! i = Some pos ->
  Ship.hits s !! i = Some b ->
  let s' := Ship.set_hits s (<[i:=true]> (Ship.hits s)) in
  ((forall j, j <> i -> (j < length (Ship.hits s))%nat -> Ship.hits s !! j = Some true) ->
   Ship.check_hit s pos true
   = Ok (Hit.sunk pos (ShipType.value (Ship.ship_type s)) (Ship.positions s), s'))
  /\ (forall j, j <> i -> Ship.hits s !! j = Some false ->
      Ship.check_hit s pos true = Ok (Hit.hit pos, s')).
Proof.
  intros Hnd Hi Hb s'. unfold Ship.check_hit.
  rewrite (find_cell _ _ _ Hnd Hi), Hb. cbn [andb Ship.hits Ship.set_hits].
  pose proof (lookup_lt_Some _ _ _ Hb) as Hlt.
  split.
  - intros Hall.
    assert (forallb id (<[i:=true]> (Ship.hits s)) = true) as ->; [|done].
    apply forallb_id_true. intros j. rewrite length_insert. intros Hj.
    destruct (decide (j = i)) as [->|Hne].
    + by rewrite list_lookup_insert_eq.
    + rewrite list_lookup_insert_ne by done. by apply Hall.
  - intros j Hne Hj.
    assert (forallb id (<[i:=true]> (Ship.hits s)) = false) as ->; [|done].
    apply not_true_is_false. intros H.
    pose proof (lookup_lt_Some _ _ _ Hj) as Hjl.
    rewrite forallb_id_true in H. specialize (H j).
    rewrite length_insert, list_lookup_insert_ne in H by done.
    rewrite Hj in H. by specialize (H Hjl).
Qed.

Lemma check_hit_probe_at (s : Ship.t) (pos : Pos) (i : nat) (b : bool) :
  NoDup (Ship.positions s) ->
  Ship.positions s !! i = Some pos ->
  Ship.hits s !! i = Some b ->
  exists s',
    Ship.check_hit s pos false = Ok (Hit.hit pos, s')
    /\ Ship.hits s' = <[i:=false]> (Ship.hits s)
    /\ Ship.hits s' !! i = Some false
    /\ s' = Ship.set_hits s (Ship.hits s').
Proof.
  intros Hnd Hi Hb. unfold Ship.check_hit.
  rewrite (find_cell _ _ _ Hnd Hi), Hb. cbn [andb].
  eexists. split; [done|]. cbn. split; [done|]. split; [|done].
  apply list_lookup_insert_eq. by eapply lookup_lt_Some.
Qed.

Lemma reports_miss_eq pos m s :
  reports_miss pos m s -> Ship.check_hit s pos m = Ok (Hit.miss pos, s).
Proof.
  intros (h & s' & H & Hty). revert H Hty. unfold Ship.check_hit.
  destruct (list_find _ _) as [[i p]|]; [|done].
  destruct (Ship.hits s !! i); [|done].
  destruct (_ && _); intros [= <- <-]; done.
Qed.

Lemma check_hit_loop_all_miss pos m seen todo :
  Forall (reports_miss pos m) todo ->
  Fleet.check_hit_loop seen todo pos m = Ok (Hit.miss pos, Fleet.Build (seen ++ todo)).
Proof.
  intros H. revert seen. induction H as [|s todo Hs _ IH]; intros seen; cbn.
  - by rewrite app_nil_r.
  - rewrite (reports_miss_eq _ _ _ Hs). cbn. rewrite IH, <- app_assoc. done.
Qed.

Lemma check_hit_loop_first pos m seen l1 s l2 :
  Forall (reports_miss pos m) l1 ->
  ~ reports_miss pos m s ->
  Fleet.check_hit_loop seen (l1 ++ s :: l2) pos m =
  r ← Ship.check_hit s pos m;
  Ok (r.1, Fleet.Build (seen ++ l1 ++ r.2 :: l2)).
Proof.
  intros H Hs. revert seen. induction H as [|s1 l1 Hs1 _ IH]; intros seen; cbn.
  - destruct (Ship.check_hit s pos m) as [[h s']| |] eqn:E; try done. cbn.
    destruct (Hit.hit_type h) eqn:Eh; try done.
    destruct Hs. by exists h, s'.
  - rewrite (reports_miss_eq _ _ _ Hs1). cbn. rewrite IH.
    destruct (Ship.check_hit s pos m) as [[h s']| |]; cbn; try done.
    by rewrite <- app_assoc.
Qed.

Lemma check_hit_loop_miss_inv pos m seen todo h f :
  Fleet.check_hit_loop seen todo pos m = Ok (h, f) ->
  Hit.hit_type h = MISS ->
  Forall (reports_miss pos m) todo.
Proof.
  revert seen. induction todo as [|s todo IH]; intros seen; cbn; [done|].
  destruct (Ship.check_hit s pos m) as [[h1 s1]| |] eqn:E; try done. cbn.
  destruct (Hit.hit_type h1) eqn:Eh; cbn.
  - intros H Hty. constructor; [by exists h1, s1|]. by eapply IH.
  - intros [= <- <-] ?. congruence.
  - intros [= <- <-] ?. congruence.
Qed.

(** C1: [Fleet.check_hit] returns a miss if and only if every ship reports
    a miss, and then the fleet is unchanged; otherwise its outcome is the
    outcome of the first ship, in insertion order, that does not report a
    miss -- whatever the ships after it are: they are not consulted and
    stay as they were. *)
Theorem fleet_check_hit_first_non_miss (f : Fleet.t) (pos : Pos) (m : bool) :
  ((exists h f', Fleet.check_hit f pos m = Ok (h, f') /\ Hit.hit_type h = MISS)
   <-> Forall (reports_miss pos m) (Fleet.ships f))
  /\ (Forall (reports_miss pos m) (Fleet.ships f) ->
      Fleet.check_hit f pos m = Ok (Hit.miss pos, f))
  /\ (forall l1 s l2,
        Fleet.ships f = l1 ++ s :: l2 ->
        Forall (reports_miss pos m) l1 ->
        ~ reports_miss pos m s ->
        Fleet.check_hit f pos m =
        r ← Ship.check_hit s pos m;
        Ok (r.1, Fleet.Build (l1 ++ r.2 :: l2))).
Proof.
  assert (Forall (reports_miss pos m) (Fleet.ships f) ->
          Fleet.check_hit f pos m = Ok (Hit.miss pos, f)) as Hall.
  { intros H. unfold Fleet.check_hit. rewrite check_hit_loop_all_miss by done.
    by destruct f. }
  split; [split|split; [done|]].
  - intros (h & f' & H & Hty). by eapply check_hit_loop_miss_inv.
  - intros H. eexists _, _. split; [by apply Hall|done].
  - intros l1 s l2 Hf H1 Hs. unfold Fleet.check_hit. rewrite Hf.
    by apply (check_hit_loop_first pos m []).
Qed.

(** ** The strategies *)


Lemma zip_elem xs ys a b : (a, b) ∈ CopyCatWithRandomMissilesAI.zip xs ys -> a ∈ xs /\ b ∈ ys.
Proof.
  revert ys. induction xs as [|x xs IH]; intros [|y ys]; cbn; try by inversion 1.
  intros [[= -> ->]|H]%elem_of_cons; [split; left|].
  apply IH in H as [??]. split; by right.
Qed.

Lemma zip_NoDup xs ys : NoDup ys -> NoDup (CopyCatWithRandomMissilesAI.zip xs ys).
Proof.
  intros H. revert xs. induction H as [|y ys Hy _ IH]; intros [|x xs]; cbn;
    try constructor; [|done].
  intros [_ ?]%zip_elem. done.
Qed.

Lemma row_fst i n ys p : p ∈ CopyCatWithRandomMissilesAI.zip (CopyCatWithRandomMissilesAI.repeat_list i n) ys -> p.1 = i.
Proof.
  destruct p as [a b]. intros [Ha _]%zip_elem.
  unfold CopyCatWithRandomMissilesAI.repeat_list in Ha. by apply elem_of_replicate in Ha as [-> _].
Qed.

Lemma rows_NoDup n ys (rows : list Z) :
  NoDup ys -> NoDup rows ->
  NoDup (concat (map (fun i => CopyCatWithRandomMissilesAI.zip (CopyCatWithRandomMissilesAI.repeat_list i n) ys) rows)).
Proof.
  intros Hys. induction 1 as [|i rows Hi _ IH]; cbn; [constructor|].
  apply NoDup_app. split; [by apply zip_NoDup|]. split; [|done].
  intros p Hp Hin. apply row_fst in Hp.
  apply list_elem_of_In, in_concat in Hin as (row & Hrow & Hin).
  apply in_map_iff in Hrow as (j & <- & Hj).
  apply list_elem_of_In, row_fst in Hin.
  apply Hi, list_elem_of_In. congruence.
Qed.

Lemma initialize_NoDup ai by_ bx : NoDup (CopyCatWithRandomMissilesAI.possible_moves (CopyCatWithRandomMissilesAI.initialize ai by_ bx)).
Proof. apply rows_NoDup; apply NoDup_seqZ. Qed.

Lemma send_moves_spec idxs : forall ai,
  valid_draws (length (CopyCatWithRandomMissilesAI.possible_moves ai)) idxs ->
  exists out ai',
    send_moves ai idxs = Ok (out, ai')
    /\ out ++ CopyCatWithRandomMissilesAI.possible_moves ai' ≡ₚ CopyCatWithRandomMissilesAI.possible_moves ai
    /\ length out = length idxs
    /\ CopyCatWithRandomMissilesAI.fleet ai' = CopyCatWithRandomMissilesAI.fleet ai.
Proof.
  induction idxs as [|idx idxs IH]; intros ai; cbn.
  - intros _. by exists [], ai.
  - intros [Hlt Hv].
    destruct (lookup_lt_is_Some_2 _ _ Hlt) as [p Hp].
    unfold CopyCatWithRandomMissilesAI.send_move. rewrite Hp.
    destruct (CopyCatWithRandomMissilesAI.possible_moves ai) as [|q qs] eqn:Eq; [done|]. rewrite <- Eq in *.
    cbn.
    destruct (IH (CopyCatWithRandomMissilesAI.Build (CopyCatWithRandomMissilesAI.fleet ai) (delete idx (CopyCatWithRandomMissilesAI.possible_moves ai))))
      as (out & ai' & -> & Hperm & Hlen & Hf).
    { cbn. rewrite length_delete by eauto. done. }
    cbn. exists (p :: out), ai'. split; [done|]. split; [|split; [cbn; lia|done]].
    cbn in Hperm. cbn. rewrite Hperm. symmetry. by apply delete_Permutation.
Qed.

(** C8: after [initialize], any run of [send_move] calls on draws that
    [randint] can return gives back pairwise distinct cells, which
    together with the cells still possible are the precomputed cells, each
    once; after as many calls as there are precomputed cells the returned
    cells are exactly the precomputed ones and nothing is left. *)
Theorem random_missiles_cover_without_repeats
    (ai0 : CopyCatWithRandomMissilesAI.t) (by_ bx : Bounds) (idxs : list nat) :
  let ai := CopyCatWithRandomMissilesAI.initialize ai0 by_ bx in
  let legal := CopyCatWithRandomMissilesAI.possible_moves ai in
  (length idxs <= length legal)%nat ->
  valid_draws (length legal) idxs ->
  exists out ai',
    send_moves ai idxs = Ok (out, ai')
    /\ length out = length idxs
    /\ NoDup out
    /\ out ++ CopyCatWithRandomMissilesAI.possible_moves ai' ≡ₚ legal
    /\ NoDup legal
    /\ (length idxs = length legal -> out ≡ₚ legal /\ CopyCatWithRandomMissilesAI.possible_moves ai' = []).
Proof.
  intros ai legal Hlen Hv.
  destruct (send_moves_spec idxs ai Hv) as (out & ai' & Hs & Hperm & Hl & _).
  pose proof (initialize_NoDup ai0 by_ bx) as Hnd. fold ai legal in Hnd, Hperm.
  exists out, ai'. repeat split; try done.
  - rewrite <- Hperm in Hnd. by apply NoDup_app in Hnd as [? _].
  - assert (CopyCatWithRandomMissilesAI.possible_moves ai' = []) as E.
    { apply Permutation_length in Hperm. rewrite length_app in Hperm.
      apply nil_length_inv. lia. }
    by rewrite E, app_nil_r in Hperm.
  - apply Permutation_length in Hperm. rewrite length_app in Hperm.
    apply nil_length_inv. lia.
Qed.

Lemma ship_check_hit_total s pos m :
  length (Ship.hits s) = length (Ship.positions s) ->
  exists h s', Ship.check_hit s pos m = Ok (h, s')
    /\ length (Ship.hits s') = length (Ship.positions s')
    /\ Hit.target_position h = pos.
Proof.
  intros Hl. unfold Ship.check_hit.
  destruct (list_find _ _) as [[i p]|] eqn:E.
  - apply list_find_Some in E as (Hi & _).
    apply lookup_lt_Some in Hi. rewrite <- Hl in Hi.
    destruct (lookup_lt_is_Some_2 _ _ Hi) as [b ->].
    destruct (_ && _); eexists _, _; (split; [done|]); cbn;
      by rewrite length_insert.
  - by eexists _, _.
Qed.

Lemma fleet_check_hit_loop_total pos m todo : forall seen,
  Forall (fun s => length (Ship.hits s) = length (Ship.positions s)) seen ->
  Forall (fun s => length (Ship.hits s) = length (Ship.positions s)) todo ->
  exists h f', Fleet.check_hit_loop seen todo pos m = Ok (h, f')
    /\ fleet_ok f' /\ Hit.target_position h = pos.
Proof.
  induction todo as [|s todo IH]; intros seen Hseen Htodo; cbn.
  - by eexists _, _.
  - apply Forall_cons in Htodo as [Hs Htodo].
    destruct (ship_check_hit_total s pos m Hs) as (h & s' & -> & Hs' & Hh). cbn.
    destruct (negb _).
    + eexists _, _. split; [done|]. split; [|done].
      apply Forall_app. split; [done|]. by constructor.
    + apply IH; [|done]. apply Forall_app. split; [done|]. by constructor.
Qed.

Lemma fleet_check_hit_total f pos m :
  fleet_ok f ->
  exists h f', Fleet.check_hit f pos m = Ok (h, f')
    /\ fleet_ok f' /\ Hit.target_position h = pos.
Proof. intros H. by apply fleet_check_hit_loop_total. Qed.

Lemma copycat_rounds_spec incoming : forall ai f,
  CopyCatAI.fleet ai = Some f -> fleet_ok f ->
  exists ai', copycat_rounds ai incoming = Ok (Some <$> incoming, ai').
Proof.
  induction incoming as [|move incoming IH]; intros ai f Hf Hok; cbn.
  - by eexists.
  - unfold CopyCatAI.get_move. cbn. rewrite Hf.
    destruct (fleet_check_hit_total f move true Hok) as (h & f' & -> & Hok' & _). cbn.
    destruct (IH (CopyCatAI.Build (Some f') (Some move)) f' eq_refl Hok') as [ai' ->].
    cbn. by eexists.
Qed.

Lemma reveal_sunk_ship_player m h :
  Manager.player (Manager.reveal_sunk_ship m h) = Manager.player m.
Proof.
  unfold Manager.reveal_sunk_ship. generalize (Hit.ship_positions h). intros ps.
  revert m. induction ps as [|p ps IH]; intros m; cbn; [done|]. by rewrite IH.
Qed.

(** C9: under strict alternation of [get_move] and [send_move], the copy-cat
    strategy (with its fleet placed) answers the [n]-th incoming position
    with that same position, for every [n]; and in the engine, after
    [__fire_missile] at [target_pos] the strategy's next move is
    [target_pos] translated to the player's board. *)
Theorem copycat_replays_incoming_shots :
  (forall (ai : CopyCatAI.t) (f : Fleet.t) (incoming : list Pos),
      CopyCatAI.fleet ai = Some f -> fleet_ok f ->
      exists ai', copycat_rounds ai incoming = Ok (Some <$> incoming, ai'))
  /\ (forall (m m' : Manager.t) (a : CopyCatAI.t) (target_pos : Pos),
        LocalPlayer.ai (Manager.player m) = AI.OfCopyCat a ->
        Manager.fire_missile m target_pos = Ok m' ->
        forall draws,
          AI.send_move (LocalPlayer.ai (Manager.player m')) draws
          = Ok (Some (translate m target_pos),
                LocalPlayer.ai (Manager.player m'), draws)).
Proof.
  split; [intros; by eapply copycat_rounds_spec|].
  intros m m' a target_pos Ha. unfold Manager.fire_missile, LocalPlayer.send_move.
  rewrite Ha. cbn. unfold CopyCatAI.get_move. cbn.
  destruct (CopyCatAI.fleet a) as [f|]; [|done].
  destruct (Fleet.check_hit f _ true) as [[h f']| |]; try done. cbn.
  destruct (Hit.hit_type h); intros [= <-] draws;
    unfold Manager.check_game_over;
    repeat match goal with |- context [if ?b then _ else _] => destruct b end;
    cbn; rewrite ?reveal_sunk_ship_player; done.
Qed.

(** ** The turn engine *)


Lemma draw_ship_frame cells : forall m o o' m',
  Manager.draw_ship m cells o = Ok (o', m') -> exists f, m' = Manager.set_fleet m f.
Proof.
  induction cells as [|c cells IH]; intros m o o' m'; cbn.
  - intros [= <- <-]. exists (Manager.fleet m). by destruct m.
  - destruct (Fleet.check_hit _ _ _) as [[h f]| |]; try done. cbn.
    intros H. apply IH in H as [f' ->]. by exists f'.
Qed.

Lemma place_ship_keys_frame ks : forall m ship m' ks',
  Manager.place_ship_keys ks m ship = Ok (m', ks') ->
  exists f, m' = Manager.set_fleet m f.
Proof.
  induction ks as [|key ks IH]; intros m ship m' ks'; cbn.
  - destruct (Manager.draw_ship _ _ _) as [[o m1]| |]; done.
  - destruct (Manager.draw_ship _ _ _) as [[o m1]| |] eqn:E; try done. cbn.
    apply draw_ship_frame in E as [f1 ->].
    assert (forall sh, Manager.place_ship_keys ks (Manager.set_fleet m f1) sh = Ok (m', ks') ->
                       exists f, m' = Manager.set_fleet m f) as IH'.
    { intros sh H. apply IH in H as [f ->]. by exists f. }
    repeat match goal with
           | |- context [if ?b then _ else _] => destruct b
           | |- context [mbind _ ?r] => destruct r as [?| |]; cbn; try done
           end; eauto.
    intros [= <- <-]. by eexists.
Qed.

Lemma place_all_frame types : forall m ks m' ks',
  Manager.place_all types m ks = Ok (m', ks') -> exists f, m' = Manager.set_fleet m f.
Proof.
  induction types as [|ty types IH]; intros m ks m' ks'; cbn.
  - intros [= <- <-]. exists (Manager.fleet m). by destruct m.
  - unfold Manager.place_ship_loop.
    destruct (Ship.init _ _ _ _ _) as [ship| |]; try done. cbn.
    destruct (Manager.place_ship_keys _ _ _) as [[m1 ks1]| |] eqn:E; try done. cbn.
    apply place_ship_keys_frame in E as [f1 ->].
    intros H. apply IH in H as [f ->]. by exists f.
Qed.

Lemma reveal_sunk_ship_frame m h :
  exists gs, Manager.reveal_sunk_ship m h = Manager.set_guesses m gs.
Proof.
  unfold Manager.reveal_sunk_ship. generalize (Hit.ship_positions h). intros ps.
  revert m. induction ps as [|p ps IH]; intros m; cbn.
  - exists (Manager.guesses m). by destruct m.
  - destruct (IH (Manager.set_guesses m
        (Manager.reveal_at (Manager.guesses m)
           (p.1, (Manager.opponent_board_center m).2 - ((Manager.player_board_center m).2 - p.2)) h)))
      as [gs ->].
    by exists gs.
Qed.

Lemma check_game_over_step m : counters_step m (Manager.check_game_over m).
Proof.
  unfold counters_step, Manager.check_game_over.
  destruct (Z.eqb_spec (Manager.opponent_ships_left m) 0);
    [|destruct (Z.eqb_spec (Manager.player_ships_left m) 0)]; cbn; intuition congruence.
Qed.

Lemma fire_missile_step m target m' :
  Manager.fire_missile m target = Ok m' -> counters_step m m'.
Proof.
  unfold Manager.fire_missile.
  destruct (LocalPlayer.send_move _ _) as [[h p]| |]; try done. cbn.
  destruct (Hit.hit_type h); intros [= <-];
    try (unfold counters_step; cbn; tauto).
  match goal with |- context [Manager.reveal_sunk_ship ?x ?y] =>
    destruct (reveal_sunk_ship_frame x y) as [gs ->] end.
  match goal with |- counters_step _ (Manager.check_game_over ?x) =>
    pose proof (check_game_over_step x) as H end.
  unfold counters_step in *. cbn in *. tauto.
Qed.

Lemma take_turn_loop_step ks : forall m target old m' ks',
  Manager.take_turn_loop ks m target old = Ok (m', ks') -> counters_step m m'.
Proof.
  induction ks as [|key ks IH]; intros m target old m' ks'; cbn; [done|].
  repeat match goal with
         | |- context [if ?b then _ else _] => destruct b
         | |- context [match ?o with Some _ => _ | None => _ end] => destruct o
         end; eauto.
  all: destruct (Manager.fire_missile _ _) as [m1| |] eqn:E; try done; cbn;
       intros [= <- <-]; apply fire_missile_step in E; exact E.
Qed.

Lemma opponents_turn_step m inp m' inp' :
  Manager.opponents_turn m inp = Ok (m', inp') ->
  counters_step m m' /\ Manager.opponent_ships_left m' = Manager.opponent_ships_left m.
Proof.
  unfold Manager.opponents_turn, Manager.listen_for_move.
  destruct (AI.send_move _ _) as [[[mv a] ds]| |]; try done. cbn.
  destruct mv as [mv|]; [|done].
  destruct (Fleet.check_hit _ _ _) as [[h f]| |]; try done. cbn.
  destruct (Hit.hit_type h); intros [= <- <-];
    try (unfold counters_step; cbn; tauto).
  match goal with |- counters_step _ (Manager.check_game_over ?x) /\ _ =>
    pose proof (check_game_over_step x) as H end.
  split; [exact H|].
  unfold Manager.check_game_over.
  repeat match goal with |- context [if ?b then _ else _] => destruct b end; done.
Qed.


Lemma loop_body_invariant m inp m' inp' :
  counters_invariant m -> Manager.loop_body m inp = Ok (m', inp') ->
  counters_invariant m'.
Proof.
  intros (Hp & Ho & Hw). unfold Manager.loop_body.
  destruct (Manager.game_state m) eqn:Hs.
  - unfold Manager.place_ships.
    destruct (Manager.place_all _ _ _) as [[m1 ks]| |] eqn:E; try done. cbn.
    apply place_all_frame in E as [f ->]. intros [= <- <-].
    unfold counters_invariant. cbn. split; [done|]. split; done.
  - intros [= <- <-]. unfold counters_invariant. cbn. split; [done|]. split; done.
  - destruct (LocalPlayer.players_turn _).
    + unfold Manager.take_turn.
      destruct (Manager.take_turn_loop _ _ _ _) as [[m1 ks]| |] eqn:E; try done. cbn.
      intros [= <- <-]. apply take_turn_loop_step in E as (E1 & E2 & E3).
      unfold counters_invariant. rewrite E1, Hs in *.
      split; [done|]. split.
      * intros H. destruct (E2 H); [done|lia].
      * intros H. destruct (E3 H); done.
    + intros H. apply opponents_turn_step in H as ((E1 & E2 & E3) & E4).
      unfold counters_invariant. rewrite E1, Hs in *.
      split; [done|]. split.
      * intros H. destruct (E2 H); [done|lia].
      * intros H. destruct (E3 H); done.
  - unfold Manager.game_over. destruct (keys inp); [done|].
    intros [= <- <-]. unfold counters_invariant. rewrite Hs. auto.
  - done.
Qed.

Lemma loop_invariant n : forall m inp m' inp',
  counters_invariant m -> Manager.loop n m inp = Ok (m', inp') -> counters_invariant m'.
Proof.
  induction n as [|n IH]; intros m inp m' inp' Hm; cbn.
  - by intros [= <- <-].
  - destruct (Manager.loop_body m inp) as [[m1 inp1]| |] eqn:E; try done. cbn.
    apply IH. by eapply loop_body_invariant.
Qed.

Lemma reachable_counters m : reachable m -> counters_invariant m.
Proof.
  intros (h & w & ai & n & inp & inp' & H).
  eapply loop_invariant; [|exact H].
  unfold counters_invariant. cbn. split; [done|]. split; done.
Qed.

(** ** Every ship, whatever its construction *)

Lemma lifetime_cells ty p d by_ bx s0 s :
  Ship.init ty p d by_ bx = Ok s0 ->
  lifetime s0 s ->
  Ship.ship_type s = ty
  /\ Ship.size s = ShipType.size_of ty
  /\ length (Ship.hits s) = Ship.size s
  /\ (Ship.positions s = [] \/ placed s).
Proof.
  intros Hi.
  destruct (init_total ty p d by_ bx) as (s0' & Hi' & Hty & Hsz & Hh & Hp).
  rewrite Hi in Hi'. injection Hi' as <-.
  induction 1 as [|s d' s' _ IH Hm|s fuel s' _ IH Hr|s pos m h s' _ IH Hc].
  - split; [done|]. split; [done|]. split; [by rewrite Hh, length_replicate|].
    destruct Hp as [?|[? _]]; auto.
  - destruct IH as (H1 & H2 & H3 & H4). rewrite move_eq in Hm.
    destruct (try_placement _ _ _) as [[]| |]; cbn in Hm; try done;
      injection Hm as <-; [|done].
    split; [done|]. split; [done|]. split; [done|]. by right.
  - destruct IH as (H1 & H2 & H3 & H4).
    apply rotate_Ok in Hr as (d' & -> & _).
    split; [done|]. split; [done|]. split; [done|]. by right.
  - destruct IH as (H1 & H2 & H3 & H4).
    apply check_hit_frame in Hc as (hs & -> & Hl & _).
    split; [done|]. split; [done|]. split; [cbn; congruence|done].
Qed.

Lemma lifetime_cell_flag ty p d by_ bx s0 s i pos :
  Ship.init ty p d by_ bx = Ok s0 ->
  lifetime s0 s ->
  Ship.positions s !! i = Some pos ->
  NoDup (Ship.positions s) /\ is_Some (Ship.hits s !! i)
  /\ length (Ship.hits s) = length (Ship.positions s).
Proof.
  intros Hi Hl Hpos.
  destruct (lifetime_cells _ _ _ _ _ _ _ Hi Hl) as (_ & _ & Hh & [Hp|Hp]).
  { by rewrite Hp in Hpos. }
  assert (length (Ship.positions s) = Ship.size s) as Hlen.
  { rewrite Hp. apply generate_positions_length. }
  split; [rewrite Hp; apply generate_positions_NoDup|].
  split; [|congruence].
  apply lookup_lt_is_Some_2. apply lookup_lt_Some in Hpos. lia.
Qed.

(** C2: for a ship at any point of its life and any cell [pos] it occupies
    (at index [i]), a missile at [pos] sets the flag of the cell and
    nothing else.  When every other damage flag is already true, the hit it
    returns has type SUNK and carries the character of the ship's type,
    the ship's whole list of positions and the target, and every flag of
    the ship is then true.  When some other flag is still false, the hit
    it returns has type HIT (character X, no positions), and that other
    flag is still false afterwards. *)
Theorem last_missile_sinks
    (ty : ShipType.t) (p : Pos) (d : Direction) (by_ bx : Bounds)
    (s0 s : Ship.t) (pos : Pos) (i : nat) :
  Ship.init ty p d by_ bx = Ok s0 ->
  lifetime s0 s ->
  Ship.positions s !! i = Some pos ->
  let s' := Ship.set_hits s (<[i:=true]> (Ship.hits s)) in
  ((forall j, j <> i -> (j < Ship.size s)%nat -> Ship.hits s !! j = Some true) ->
   exists h,
     Ship.check_hit s pos true = Ok (h, s')
     /\ Hit.hit_type h = SUNK
     /\ Hit.character h = ShipType.value (Ship.ship_type s)
     /\ Ship.ship_type s = ty
     /\ Hit.ship_positions h = Ship.positions s
     /\ Hit.target_position h = pos
     /\ forallb id (Ship.hits s') = true)
  /\ (forall j, j <> i -> Ship.hits s !! j = Some false ->
      exists h,
        Ship.check_hit s pos true = Ok (h, s')
        /\ Hit.hit_type h = HIT
        /\ Hit.character h = "X"
        /\ Hit.ship_positions h = []
        /\ Hit.target_position h = pos
        /\ Ship.hits s' !! i = Some true
        /\ Ship.hits s' !! j = Some false).
Proof.
  intros Hi Hl Hpos s'.
  destruct (lifetime_cell_flag _ _ _ _ _ _ _ _ _ Hi Hl Hpos) as (Hnd & [b Hb] & Hlen).
  destruct (lifetime_cells _ _ _ _ _ _ _ Hi Hl) as (Hty & _ & Hh & _).
  destruct (check_hit_missile_at s pos i b Hnd Hpos Hb) as [H1 H2].
  pose proof (lookup_lt_Some _ _ _ Hb) as Hlt.
  split.
  - intros Hall.
    assert (forall j, j <> i -> (j < length (Ship.hits s))%nat ->
                      Ship.hits s !! j = Some true) as Hall'.
    { intros j Hne Hj. apply Hall; [done|lia]. }
    eexists. split; [by apply H1|]. cbn.
    split; [done|]. split; [done|]. split; [done|]. split; [done|]. split; [done|].
    apply forallb_id_true. intros j. rewrite length_insert. intros Hj.
    destruct (decide (j = i)) as [->|Hne].
    + by rewrite list_lookup_insert_eq.
    + rewrite list_lookup_insert_ne by done. by apply Hall'.
  - intros j Hne Hj. eexists. split; [by apply (H2 j)|]. cbn.
    split; [done|]. split; [done|]. split; [done|]. split; [done|].
    split; [by rewrite list_lookup_insert_eq|].
    by rewrite list_lookup_insert_ne.
Qed.

(** C10: for a ship at any point of its life and any cell [pos] it occupies
    (at index [i]), [check_hit] with [is_missile] false returns Hit -- not
    Sunk, whatever the other flags are -- and leaves the ship with the flag
    of that cell false and nothing else changed. *)
Theorem probe_clears_flag_and_reports_hit
    (ty : ShipType.t) (p : Pos) (d : Direction) (by_ bx : Bounds)
    (s0 s : Ship.t) (pos : Pos) (i : nat) :
  Ship.init ty p d by_ bx = Ok s0 ->
  lifetime s0 s ->
  Ship.positions s !! i = Some pos ->
  Ship.check_hit s pos false
  = Ok (Hit.hit pos, Ship.set_hits s (<[i:=false]> (Ship.hits s)))
  /\ <[i:=false]> (Ship.hits s) !! i = Some false
  /\ Hit.hit_type (Hit.hit pos) = HIT.
Proof.
  intros Hi Hl Hpos.
  destruct (lifetime_cell_flag _ _ _ _ _ _ _ _ _ Hi Hl Hpos) as (Hnd & [b Hb] & Hlen).
  destruct (check_hit_probe_at s pos i b Hnd Hpos Hb) as (s' & H1 & H2 & H3 & H4).
  rewrite H1, H4, H2. split; [done|]. split; [|done]. by rewrite <- H2.
Qed.

(** ** The engine never lets the opponent win *)

Lemma opponent_never_wins (m : Manager.t) :
  reachable m ->
  Manager.player_ships_left m = 5 /\ Manager.game_state m <> OPPONENT_WON.
Proof. intros H. apply reachable_counters in H as (? & ? & _). done. Qed.

Lemma player_wins_only_at_zero (m : Manager.t) :
  reachable m -> Manager.game_state m = PLAYER_WON ->
  Manager.opponent_ships_left m = 0.
Proof. intros H. apply reachable_counters in H as (_ & _ & ?). done. Qed.

(** The opponent's turn leaves the player's counter alone, whatever the
    shot did. *)
Lemma opponents_turn_keeps_player_counter m inp m' inp' :
  Manager.opponents_turn m inp = Ok (m', inp') ->
  Manager.player_ships_left m' = Manager.player_ships_left m.
Proof. intros H. by apply opponents_turn_step in H as ((? & _) & _). Qed.

(** C3, at the sample game.  After six iterations of the main loop (setup,
    ready, two rounds) the opponent's second shot has sunk the patrol
    boat, and the player's counter still reads 5.  After thirty-six
    (seventeen rounds) every damage flag of the player's five ships is
    true -- the opponent has sunk them all, the player none -- yet the
    player's counter still reads 5 and the game is still being played,
    with the player to move. *)
Theorem opponent_sinks_fleet_and_game_goes_on :
  let start := Manager.start 30 85 AIType.CopyCatWithRandomMissiles in
  (exists m inp,
      Manager.loop 6 start losing_input = Ok (m, inp)
      /\ Ship.hits <$> Fleet.ships (Manager.fleet m)
         = [[true; true]; [false; false; false]; [false; false; false];
            [false; false; false; false]; [false; false; false; false; false]]
      /\ Manager.player_ships_left m = 5
      /\ Manager.game_state m = PLAYING)
  /\ (exists m,
        Manager.loop 36 start losing_input = Ok (m, {| keys := []; draws := [] |})
        /\ Manager.fleet m = sunk_fleet
        /\ Manager.player_ships_left m = 5
        /\ Manager.opponent_ships_left m = 5
        /\ Manager.game_state m = PLAYING
        /\ LocalPlayer.players_turn (Manager.player m) = true).
Proof.
  split.
  - eexists _, _. split; [vm_compute; reflexivity|]. vm_compute. tauto.
  - eexists. split; [vm_compute; reflexivity|]. vm_compute. tauto.
Qed.

(** ** The ships of the engine *)

Lemma pos_in_bounds_spec (pos : Pos) (by_ bx : Bounds) :
  pos_in_bounds pos by_ bx = true
  <-> by_.1 < pos.1 < by_.2 /\ bx.1 < pos.2 < bx.2.
Proof.
  unfold pos_in_bounds. rewrite !andb_true_iff, !Z.gtb_lt, !Z.ltb_lt. lia.
Qed.

(** Whatever the screen, the engine builds every ship at a placement that
    passes the bounds test: the invariant of the ships holds in every game. *)
Lemma manager_builds_ships_in_bounds scrheight scrwidth player ty :
  let m := Manager.initialize scrheight scrwidth player in
  exists s0,
    Ship.init ty (Manager.player_board_center m) RIGHT
      (Manager.player_bounds_y m) (Manager.player_bounds_x m) = Ok s0
    /\ Ship.in_bounds s0 = Ok true.
Proof.
  intros m. rewrite init_eq. destruct (size_of_pos ty) as [n Hn].
  set (blank := Ship.Build _ _ _ _ _ _ _ _).
  pose proof (fits_true blank RIGHT n Hn) as Hf. cbn [Ship.start_pos blank] in Hf.
  rewrite Hf.
  assert (fits blank RIGHT = true) as E.
  { unfold fits. rewrite (try_placement_S blank _ _ n Hn).
    replace (_ && _) with true; [done|].
    symmetry. apply andb_true_iff. split; apply pos_in_bounds_spec; cbn;
      destruct ty; cbn in Hn; lia. }
  rewrite E. cbn. eexists. split; [done|]. by apply (turned_in_bounds _ _ n).
Qed.

(** C6: every ship of the game is created by the setup, at the centre of
    the player's board, facing right.  Whatever the screen and the type,
    that constructor call returns a ship that passes the bounds test,
    with all its damage flags false; and at every point of its life --
    right after construction and after every [move], [rotate] and
    [check_hit] that returns -- the ship has exactly [size] positions,
    generated from its start position and orientation, and exactly [size]
    damage flags, [size] being the size of its type.  The flags part holds
    for any arguments of the constructor, the positions part whenever the
    constructor's own placement passes the bounds test. *)
Theorem ship_invariant_throughout_lifetime
    (scrheight scrwidth : Z) (player : LocalPlayer.t) (ty : ShipType.t) :
  let m := Manager.initialize scrheight scrwidth player in
  (exists s0,
      Ship.init ty (Manager.player_board_center m) RIGHT
        (Manager.player_bounds_y m) (Manager.player_bounds_x m) = Ok s0
      /\ Ship.in_bounds s0 = Ok true
      /\ Ship.hits s0 = replicate (Ship.size s0) false
      /\ forall s, lifetime s0 s ->
           ship_invariant s /\ Ship.size s = ShipType.size_of ty)
  /\ (forall p d by_ bx s0 s,
        Ship.init ty p d by_ bx = Ok s0 ->
        lifetime s0 s ->
        length (Ship.hits s) = Ship.size s
        /\ Ship.size s = ShipType.size_of ty
        /\ Ship.hits s0 = replicate (Ship.size s0) false
        /\ (Ship.in_bounds s0 = Ok true -> ship_invariant s)).
Proof.
  intros m. split.
  - destruct (manager_builds_ships_in_bounds scrheight scrwidth player ty)
      as (s0 & Hi & Hb).
    fold m in Hi. exists s0. split; [exact Hi|]. split; [exact Hb|].
    pose proof (lifetime_cells _ _ _ _ _ _ _ Hi (life_start s0)) as (_ & Hsz & _ & _).
    destruct (constructed_in_bounds_invariant _ _ _ _ _ _ _ Hi Hb (life_start s0))
      as (_ & _ & Hh).
    split; [by rewrite Hsz|].
    intros s Hl.
    destruct (constructed_in_bounds_invariant _ _ _ _ _ _ _ Hi Hb Hl) as (? & ? & _).
    done.
  - intros p d by_ bx s0 s Hi Hl.
    destruct (lifetime_cells _ _ _ _ _ _ _ Hi Hl) as (_ & Hsz & Hh & _).
    pose proof (lifetime_cells _ _ _ _ _ _ _ Hi (life_start s0)) as (_ & Hsz0 & _ & _).
    destruct (init_total ty p d by_ bx) as (s0' & Hi' & _ & _ & Hh0 & _).
    rewrite Hi in Hi'. injection Hi' as <-.
    split; [done|]. split; [done|]. split; [by rewrite Hsz0|].
    intros Hb.
    by destruct (constructed_in_bounds_invariant _ _ _ _ _ _ _ Hi Hb Hl) as (? & _).
Qed.

(** ** The cells of the random strategy *)

Lemma zip_replicate i n ys :
  (length ys <= n)%nat ->
  CopyCatWithRandomMissilesAI.zip (replicate n i) ys = map (pair i) ys.
Proof.
  revert n. induction ys as [|y ys IH]; intros [|n] Hn; cbn in *; try done; try lia.
  rewrite IH by lia. done.
Qed.

(** With the left bound at -1 or more (in the engine it is at least 22 on
    a screen of the minimal width), the precomputed cells are exactly the
    cells inside the player's board. *)
Lemma possible_moves_are_the_interior ai by_ bx (p : Pos) :
  -1 <= bx.1 ->
  p ∈ CopyCatWithRandomMissilesAI.possible_moves
        (CopyCatWithRandomMissilesAI.initialize ai by_ bx)
  <-> pos_in_bounds p by_ bx = true.
Proof.
  intros Hbx. rewrite pos_in_bounds_spec. cbn.
  unfold CopyCatWithRandomMissilesAI.repeat_list, CopyCatWithRandomMissilesAI.range.
  rewrite list_elem_of_In, in_concat. split.
  - intros (row & Hrow & Hp). apply in_map_iff in Hrow as (i & <- & Hi).
    rewrite zip_replicate in Hp by (rewrite length_seqZ; lia).
    apply in_map_iff in Hp as (x & <- & Hx).
    apply list_elem_of_In, elem_of_seqZ in Hi.
    apply list_elem_of_In, elem_of_seqZ in Hx. cbn. lia.
  - intros [Hy Hx]. destruct p as [y x]. cbn in *.
    exists (map (pair y) (seqZ (bx.1 + 1) (bx.2 - (bx.1 + 1)))). split.
    + apply in_map_iff. exists y. split.
      * apply zip_replicate. rewrite length_seqZ. lia.
      * apply list_elem_of_In, elem_of_seqZ. lia.
    + apply in_map_iff. exists x. split; [done|].
      apply list_elem_of_In, elem_of_seqZ. lia.
Qed.

(** ** The claims at concrete inputs *)

(** The example scenario: a destroyer at (5,5) facing right, shot at
    (5,6), (5,5) and (5,7). *)
Example destroyer_scenario :
  Ship.init ShipType.Destroyer (5, 5) RIGHT (0, 20) (0, 20) = Ok destroyer_5_5
  /\ (s ← Ship.check_hit destroyer_5_5 (5, 6) true;
      Ok (Hit.hit_type s.1, Ship.hits s.2)) = Ok (HIT, [false; true; false])
  /\ ('(_, s) ← Ship.check_hit destroyer_5_5 (5, 6) true;
      s ← Ship.check_hit s (5, 5) true;
      Ok (Hit.hit_type s.1, Ship.hits s.2)) = Ok (HIT, [true; true; false])
  /\ ('(_, s) ← Ship.check_hit destroyer_5_5 (5, 6) true;
      '(_, s) ← Ship.check_hit s (5, 5) true;
      s ← Ship.check_hit s (5, 7) true;
      Ok (s.1, Ship.hits s.2))
     = Ok (Hit.sunk (5, 7) "D" [(5, 5); (5, 6); (5, 7)], [true; true; true]).
Proof. repeat split. Qed.

Lemma fleet_check_hit_first_non_miss_witness :
  Forall (reports_miss (10, 1) true) [destroyer_5_5]
  /\ ~ reports_miss (10, 1) true edge_boat
  /\ Fleet.check_hit (Fleet.Build [destroyer_5_5; edge_boat; stranded_boat]) (10, 1) true
     = Ok (Hit.hit (10, 1),
           Fleet.Build [destroyer_5_5; Ship.set_hits edge_boat [true; false];
                        stranded_boat]).
Proof.
  assert (Forall (reports_miss (10, 1) true) [destroyer_5_5]) as H1.
  { constructor; [|constructor]. eexists _, _. split; reflexivity. }
  assert (~ reports_miss (10, 1) true edge_boat) as H2.
  { intros (h & s' & H & Hty). vm_compute in H. injection H as <- <-. discriminate. }
  split; [exact H1|]. split; [exact H2|].
  exact (proj2 (proj2 (fleet_check_hit_first_non_miss
           (Fleet.Build [destroyer_5_5; edge_boat; stranded_boat]) (10, 1) true))
           [destroyer_5_5] edge_boat [stranded_boat] eq_refl H1 H2).
Defined.

Lemma destroyer_twice_hit :
  lifetime destroyer_5_5 (Ship.set_hits destroyer_5_5 [true; true; false]).
Proof.
  eapply (life_check_hit _ _ (5, 5) true);
    [eapply (life_check_hit _ _ (5, 6) true); [apply life_start|reflexivity]
    |reflexivity].
Defined.

Lemma last_missile_sinks_witness :
  Ship.init ShipType.Destroyer (5, 5) RIGHT (0, 20) (0, 20) = Ok destroyer_5_5
  /\ lifetime destroyer_5_5 (Ship.set_hits destroyer_5_5 [true; true; false])
  /\ (exists h,
        Ship.check_hit (Ship.set_hits destroyer_5_5 [true; true; false]) (5, 7) true
        = Ok (h, Ship.set_hits destroyer_5_5 [true; true; true])
        /\ Hit.hit_type h = SUNK
        /\ Hit.character h = "D"
        /\ Hit.ship_positions h = [(5, 5); (5, 6); (5, 7)])
  /\ (exists h,
        Ship.check_hit destroyer_5_5 (5, 6) true
        = Ok (h, Ship.set_hits destroyer_5_5 [false; true; false])
        /\ Hit.hit_type h = HIT).
Proof.
  split; [reflexivity|]. split; [exact destroyer_twice_hit|]. split.
  - destruct (proj1 (last_missile_sinks ShipType.Destroyer (5, 5) RIGHT (0, 20) (0, 20)
                       destroyer_5_5 (Ship.set_hits destroyer_5_5 [true; true; false])
                       (5, 7) 2%nat eq_refl destroyer_twice_hit eq_refl))
      as (h & H1 & H2 & H3 & _ & H4 & _).
    + intros [|[|[|j]]] Hne Hj; cbn in *; try reflexivity; lia.
    + exists h. split; [exact H1|]. split; [exact H2|]. split; [exact H3|exact H4].
  - destruct (proj2 (last_missile_sinks ShipType.Destroyer (5, 5) RIGHT (0, 20) (0, 20)
                       destroyer_5_5 destroyer_5_5 (5, 6) 1%nat eq_refl
                       (life_start _) eq_refl) 0%nat) as (h & H1 & H2 & _);
      [lia|reflexivity|].
    exists h. split; [exact H1|exact H2].
Defined.

Lemma probe_clears_flag_and_reports_hit_witness :
  Ship.init ShipType.Destroyer (5, 5) RIGHT (0, 20) (0, 20) = Ok destroyer_5_5
  /\ lifetime destroyer_5_5 (Ship.set_hits destroyer_5_5 [true; true; false])
  /\ Ship.check_hit (Ship.set_hits destroyer_5_5 [true; true; false]) (5, 5) false
     = Ok (Hit.hit (5, 5), Ship.set_hits destroyer_5_5 [false; true; false]).
Proof.
  split; [reflexivity|]. split; [exact destroyer_twice_hit|].
  exact (proj1 (probe_clears_flag_and_reports_hit ShipType.Destroyer (5, 5) RIGHT
                  (0, 20) (0, 20) destroyer_5_5
                  (Ship.set_hits destroyer_5_5 [true; true; false]) (5, 5) 0%nat
                  eq_refl destroyer_twice_hit eq_refl)).
Defined.

Lemma rotate_four_times_returns_witness :
  (placed destroyer_5_5
   /\ Ship.in_bounds destroyer_5_5 = Ok true
   /\ length (valid_orientations destroyer_5_5) = 4%nat
   /\ rotate_times 4 destroyer_5_5 = Ok destroyer_5_5)
  /\ (placed edge_boat
      /\ Ship.in_bounds edge_boat = Ok true
      /\ length (valid_orientations edge_boat) = 3%nat
      /\ Ship.rotate Manager.rotate_fuel edge_boat = Ok (turned edge_boat DOWN)
      /\ rotate_times 4 edge_boat = Ok (turned edge_boat DOWN)).
Proof.
  split.
  - split; [reflexivity|]. split; [reflexivity|]. split; [reflexivity|].
    apply (proj1 (proj2 (rotate_four_times_returns destroyer_5_5 eq_refl eq_refl))).
    vm_compute. lia.
  - split; [reflexivity|]. split; [reflexivity|]. split; [reflexivity|].
    destruct (proj2 (proj2 (rotate_four_times_returns edge_boat eq_refl eq_refl))
                eq_refl) as (_ & _ & H1 & H4 & _).
    split; [exact H1|exact H4].
Defined.

(** C4 as stated fails.  The patrol boat against the left border has three
    orientations that fit (so certainly one); its four rotations go down,
    up, right, down, and leave it facing down on other cells.  And the
    boat the constructor left without cells in the corner has two
    orientations that fit, neither of them its own: no rotation brings its
    orientation and its empty positions back. *)
Lemma rotate_four_times_counterexample :
  (Ship.init ShipType.PatrolBoat (10, 1) RIGHT (0, 20) (0, 20) = Ok edge_boat
   /\ try_placement edge_boat (Ship.start_pos edge_boat) RIGHT = Ok true
   /\ valid_orientations edge_boat = [UP; RIGHT; DOWN]
   /\ rotate_times 4 edge_boat = Ok (turned edge_boat DOWN)
   /\ Ship.positions (turned edge_boat DOWN) = [(10, 1); (11, 1)]
   /\ rotate_times 4 edge_boat <> Ok edge_boat)
  /\ (Ship.init ShipType.PatrolBoat (1, 1) LEFT (0, 3) (0, 3) = Ok corner_boat
      /\ valid_orientations corner_boat = [RIGHT; DOWN]
      /\ rotate_times 4 corner_boat = Ok (turned corner_boat DOWN)
      /\ rotate_times 4 corner_boat <> Ok corner_boat).
Proof. repeat split; discriminate. Qed.

Lemma rotate_terminates_iff_an_orientation_fits_witness :
  ((exists d, try_placement edge_boat (Ship.start_pos edge_boat) d = Ok true)
   /\ exists s',
       (forall fuel, (4 <= fuel)%nat -> Ship.rotate fuel edge_boat = Ok s')
       /\ Ship.in_bounds s' = Ok true
       /\ placed s'
       /\ Ship.start_pos s' = Ship.start_pos edge_boat)
  /\ (Ship.init ShipType.PatrolBoat (1, 1) RIGHT (0, 2) (0, 2) = Ok boxed_boat
      /\ (forall d, try_placement boxed_boat (Ship.start_pos boxed_boat) d = Ok false)
      /\ forall fuel, Ship.rotate fuel boxed_boat = Pending).
Proof.
  assert (exists d, try_placement edge_boat (Ship.start_pos edge_boat) d = Ok true) as H1.
  { exists RIGHT. reflexivity. }
  assert (forall d, try_placement boxed_boat (Ship.start_pos boxed_boat) d = Ok false) as H2.
  { intros []; reflexivity. }
  split; [split; [assumption|]|split; [reflexivity|split; [assumption|]]].
  - exact (proj1 (rotate_terminates_iff_an_orientation_fits edge_boat) H1).
  - exact (proj2 (rotate_terminates_iff_an_orientation_fits boxed_boat) H2).
Defined.

(** The constructor by itself does not establish the invariant of the
    positions: called with a start position on the border -- a call the
    game never makes -- it returns a ship without any position. *)
Example constructor_on_the_border :
  Ship.init ShipType.PatrolBoat (0, 0) RIGHT (0, 10) (0, 10) = Ok stranded_boat
  /\ Ship.in_bounds stranded_boat = Raise IndexError
  /\ Ship.positions stranded_boat = []
  /\ Ship.size stranded_boat = 2%nat
  /\ length (Ship.hits stranded_boat) = 2%nat.
Proof. repeat split. Qed.

Lemma ship_invariant_throughout_lifetime_witness :
  let m := Manager.start 30 85 AIType.CopyCat in
  exists s0,
    Ship.init ShipType.Destroyer (Manager.player_board_center m) RIGHT
      (Manager.player_bounds_y m) (Manager.player_bounds_x m) = Ok s0
    /\ Ship.positions s0 = [(15, 32); (15, 33); (15, 34)]
    /\ forall s1 s2 s3 h,
         Ship.move s0 DOWN = Ok s1 ->
         Ship.rotate Manager.rotate_fuel s1 = Ok s2 ->
         Ship.check_hit s2 (17, 32) true = Ok (h, s3) ->
         ship_invariant s3 /\ Ship.size s3 = 3%nat.
Proof.
  intros m.
  destruct (proj1 (ship_invariant_throughout_lifetime 30 85
                     (LocalPlayer.init AIType.CopyCat) ShipType.Destroyer))
    as (s0 & Hi & _ & _ & Hl).
  exists s0. split; [exact Hi|]. split.
  - vm_compute in Hi. injection Hi as <-. reflexivity.
  - intros s1 s2 s3 h Hm Hr Hc. apply (Hl s3).
    eapply life_check_hit; [|exact Hc].
    eapply life_rotate; [|exact Hr].
    eapply life_move; [apply life_start|exact Hm].
Defined.

Lemma move_out_of_bounds_is_noop_witness :
  try_placement edge_boat (moved_start edge_boat LEFT) (Ship.rotation edge_boat)
  = Ok false
  /\ Ship.move edge_boat LEFT = Ok edge_boat
  /\ (0 < Ship.size edge_boat)%nat
  /\ exists s', Ship.move edge_boat UP = Ok s'.
Proof.
  assert (0 < Ship.size edge_boat)%nat as Hsize  by (vm_compute; lia).
  split; [reflexivity|]. split; [|split; [exact Hsize|]].
  - exact (proj1 (move_out_of_bounds_is_noop edge_boat LEFT) eq_refl).
  - exact (proj2 (proj2 (move_out_of_bounds_is_noop edge_boat UP)) Hsize).
Defined.

Lemma random_missiles_cover_without_repeats_witness :
  let ai := CopyCatWithRandomMissilesAI.initialize CopyCatWithRandomMissilesAI.init
              (0, 3) (0, 3) in
  CopyCatWithRandomMissilesAI.possible_moves ai = [(1, 1); (1, 2); (2, 1); (2, 2)]
  /\ valid_draws 4 [3; 0; 1; 0]%nat
  /\ exists out ai',
      send_moves ai [3; 0; 1; 0]%nat = Ok (out, ai')
      /\ length out = 4%nat
      /\ NoDup out
      /\ out ++ CopyCatWithRandomMissilesAI.possible_moves ai'
         ≡ₚ CopyCatWithRandomMissilesAI.possible_moves ai
      /\ NoDup (CopyCatWithRandomMissilesAI.possible_moves ai)
      /\ (length [3; 0; 1; 0]%nat
          = length (CopyCatWithRandomMissilesAI.possible_moves ai) ->
          out ≡ₚ CopyCatWithRandomMissilesAI.possible_moves ai
          /\ CopyCatWithRandomMissilesAI.possible_moves ai' = []).
Proof.
  intros ai. split; [reflexivity|].
  assert (valid_draws 4 [3; 0; 1; 0]%nat) as Hv by (cbn; lia).
  split; [exact Hv|].
  apply (random_missiles_cover_without_repeats CopyCatWithRandomMissilesAI.init
           (0, 3) (0, 3) [3; 0; 1; 0]%nat); [vm_compute; lia|exact Hv].
Defined.

Lemma copycat_replays_incoming_shots_witness :
  let ai := CopyCatAI.Build (Some (Fleet.Build [destroyer_5_5])) None in
  fleet_ok (Fleet.Build [destroyer_5_5])
  /\ exists ai',
      copycat_rounds ai [(5, 5); (1, 1); (5, 5)]
      = Ok ([Some (5, 5); Some (1, 1); Some (5, 5)], ai').
Proof.
  intros ai.
  assert (fleet_ok (Fleet.Build [destroyer_5_5])) as Hok.
  { constructor; [reflexivity|constructor]. }
  split; [exact Hok|].
  exact (proj1 copycat_replays_incoming_shots ai _ [(5, 5); (1, 1); (5, 5)]
           eq_refl Hok).
Defined.

(** * Further properties of the code *)

(** ** Ships *)

(** X1: [generate_positions] returns [ship_size] pairwise distinct cells; the
    cell at index [i] lies [i] steps from the start along the orientation,
    so each cell is one step after the one before it. *)
Theorem generate_positions_shape (start_pos : Pos) (d : Direction) (n : nat) :
  length (Ship.generate_positions start_pos d n) = n
  /\ NoDup (Ship.generate_positions start_pos d n)
  /\ (forall i p, Ship.generate_positions start_pos d n !! i = Some p ->
        p = Ship.offset start_pos d (Z.of_nat i))
  /\ (forall i p q, Ship.generate_positions start_pos d n !! i = Some p ->
        Ship.generate_positions start_pos d n !! S i = Some q ->
        q = Ship.offset p d 1).
Proof.
  assert (forall i p, Ship.generate_positions start_pos d n !! i = Some p ->
            p = Ship.offset start_pos d (Z.of_nat i)) as Hcell.
  { intros i p. unfold Ship.generate_positions. rewrite list_lookup_fmap.
    destruct (seq 0 n !! i) as [j|] eqn:E; [|done].
    apply lookup_seq in E as [-> _]. by intros [= <-]. }
  split; [apply generate_positions_length|].
  split; [apply generate_positions_NoDup|]. split; [exact Hcell|].
  intros i p q Hp Hq. apply Hcell in Hp as ->. apply Hcell in Hq as ->.
  destruct start_pos as [y x], d; cbn; f_equal; lia.
Qed.

Lemma placed_cells s p :
  placed s -> p ∈ Ship.positions s ->
  exists i : nat, (i < Ship.size s)%nat
    /\ p = Ship.offset (Ship.start_pos s) (Ship.rotation s) (Z.of_nat i).
Proof.
  intros Hp Hin. rewrite Hp in Hin. unfold Ship.generate_positions in Hin.
  apply list_elem_of_fmap in Hin as (i & -> & Hi).
  apply elem_of_seq in Hi. exists i. split; [lia|done].
Qed.

Lemma placed_in_bounds s :
  placed s -> Ship.in_bounds s = try_placement s (Ship.start_pos s) (Ship.rotation s).
Proof. intros Hp. unfold try_placement. by rewrite <- Hp, set_positions_id. Qed.

(** X2: [in_bounds] looks at the two end cells only, and that is enough:
    when it accepts a ship that lies where its start position and
    orientation put it, every cell of the ship is strictly inside the
    bounds. *)
Theorem in_bounds_covers_every_cell (s : Ship.t) :
  placed s ->
  Ship.in_bounds s = Ok true ->
  Forall (fun p => pos_in_bounds p (Ship.bounds_y s) (Ship.bounds_x s) = true)
    (Ship.positions s).
Proof.
  intros Hp Hb. rewrite (placed_in_bounds s Hp) in Hb.
  destruct (Ship.size s) as [|n] eqn:Hn; [by rewrite try_placement_0 in Hb|].
  rewrite (try_placement_S _ _ _ n Hn) in Hb. injection Hb as Hb.
  apply andb_true_iff in Hb as [H0 H1].
  apply pos_in_bounds_spec in H0, H1.
  apply Forall_forall. intros p Hin.
  destruct (placed_cells s p Hp Hin) as (i & Hi & ->).
  apply pos_in_bounds_spec.
  destruct (Ship.start_pos s) as [y x], (Ship.rotation s); cbn in *; lia.
Qed.


Lemma moved_start_offset s d : moved_start s d = Ship.offset (Ship.start_pos s) d 1.
Proof. unfold moved_start. by destruct (Ship.start_pos s), d. Qed.

Lemma generate_positions_shift p d d' n :
  Ship.generate_positions (Ship.offset p d' 1) d n
  = (fun q => Ship.offset q d' 1) <$> Ship.generate_positions p d n.
Proof.
  unfold Ship.generate_positions. rewrite <- list_fmap_compose.
  apply list_fmap_ext. intros _ i _. destruct p as [y x], d, d'; cbn; f_equal; lia.
Qed.

(** X4: a [move] whose new placement passes the bounds test shifts the start
    position and every cell of the ship by one step in the direction, and
    leaves the ship in bounds. *)
Theorem move_shifts_every_cell (s : Ship.t) (d : Direction) :
  placed s ->
  try_placement s (moved_start s d) (Ship.rotation s) = Ok true ->
  exists s',
    Ship.move s d = Ok s'
    /\ Ship.start_pos s' = Ship.offset (Ship.start_pos s) d 1
    /\ Ship.positions s' = (fun p => Ship.offset p d 1) <$> Ship.positions s
    /\ placed s'
    /\ Ship.in_bounds s' = Ok true.
Proof.
  intros Hp Hfit. rewrite move_eq, Hfit. cbn. eexists. split; [done|]. cbn.
  split; [apply moved_start_offset|].
  split; [by rewrite Hp, moved_start_offset, generate_positions_shift|].
  split; [done|]. exact Hfit.
Qed.

Lemma offset_back p d : Ship.offset (Ship.offset p d 1) (opposite d) 1 = p.
Proof. destruct p as [y x], d; cbn; f_equal; lia. Qed.

(** X5: for a ship in bounds, an accepted [move] followed by the [move] in
    the opposite direction gives back the very same ship. *)
Theorem move_there_and_back (s : Ship.t) (d : Direction) :
  placed s ->
  Ship.in_bounds s = Ok true ->
  try_placement s (moved_start s d) (Ship.rotation s) = Ok true ->
  (s' ← Ship.move s d; Ship.move s' (opposite d)) = Ok s.
Proof.
  intros Hp Hb Hfit. rewrite move_eq, Hfit. cbn. rewrite move_eq.
  rewrite !moved_start_offset. cbn [Ship.start_pos Ship.set_start_pos Ship.rotation
    Ship.set_positions Ship.size]. rewrite offset_back.
  change (try_placement (Ship.set_start_pos _ _) ?p ?r) with (try_placement s p r).
  rewrite <- (placed_in_bounds s Hp), Hb. cbn.
  f_equal. rewrite <- Hp. by destruct s.
Qed.

(** X6: when [rotate] returns, the new orientation is the first one, going
    clockwise from the old one (the old one last), that passes the bounds
    test; the ship is regenerated in it, and the damage flags and the
    start position are those before the call. *)
Theorem rotate_takes_the_first_orientation_that_fits
    (fuel : nat) (s s' : Ship.t) :
  Ship.rotate fuel s = Ok s' ->
  next_valid (fits s) (Ship.rotation s) = Some (Ship.rotation s')
  /\ s' = turned s (Ship.rotation s')
  /\ Ship.hits s' = Ship.hits s
  /\ Ship.start_pos s' = Ship.start_pos s.
Proof.
  intros H.
  destruct (Ship.size s) as [|n0] eqn:Hn.
  { apply rotate_Ok in H as (d & _ & H). by rewrite try_placement_0 in H. }
  pose proof (rotate_4_eq n0 s Hn) as H4.
  destruct (next_valid (fits s) (Ship.rotation s)) as [d|] eqn:Hnv.
  - apply (rotate_loop_mono _ fuel) in H4. apply (rotate_loop_mono _ 4) in H.
    rewrite Nat.add_comm, H in H4. injection H4 as ->. done.
  - pose proof (rotate_fuel_enough s H4 fuel) as H'. congruence.
Qed.

(** ** Fleets *)

Lemma ship_check_hit_cases s pos m h s' :
  Ship.check_hit s pos m = Ok (h, s') ->
  ((pos ∉ Ship.positions s) /\ h = Hit.miss pos /\ s' = s)
  \/ (exists i, Ship.positions s !! i = Some pos
       /\ is_Some (Ship.hits s !! i)
       /\ s' = Ship.set_hits s (<[i:=m]> (Ship.hits s))
       /\ ((h = Hit.hit pos /\ m && forallb id (Ship.hits s') = false)
           \/ (h = Hit.sunk pos (ShipType.value (Ship.ship_type s)) (Ship.positions s)
               /\ m = true /\ forallb id (Ship.hits s') = true))).
Proof.
  unfold Ship.check_hit.
  destruct (list_find _ _) as [[i p]|] eqn:E.
  - apply list_find_Some in E as (Hi & -> & _).
    destruct (Ship.hits s !! i) eqn:Eh; [|done].
    destruct (_ && _) eqn:Eb; intros [= <- <-]; right; exists i;
      (split; [done|]); (split; [by eexists|]); (split; [done|]); [right|by left].
    apply andb_true_iff in Eb as [-> Eb]. done.
  - intros [= <- <-]. left. split; [|done].
    apply list_find_None in E. rewrite Forall_forall in E. intros Hin. by apply (E pos).
Qed.

Lemma check_hit_loop_cases pos m todo : forall seen h f',
  Fleet.check_hit_loop seen todo pos m = Ok (h, f') ->
  (Hit.hit_type h = MISS /\ h = Hit.miss pos /\ f' = Fleet.Build (seen ++ todo)
   /\ Forall (fun s => pos ∉ Ship.positions s) todo)
  \/ (exists l1 s l2 s',
        todo = l1 ++ s :: l2
        /\ Forall (fun s => pos ∉ Ship.positions s) l1
        /\ Ship.check_hit s pos m = Ok (h, s')
        /\ Hit.hit_type h <> MISS
        /\ f' = Fleet.Build (seen ++ l1 ++ s' :: l2)).
Proof.
  induction todo as [|s todo IH]; intros seen h f'; cbn.
  - intros [= <- <-]. left. by rewrite app_nil_r.
  - destruct (Ship.check_hit s pos m) as [[h1 s1]| |] eqn:E; try done. cbn.
    destruct (ship_check_hit_cases _ _ _ _ _ E)
      as [(Hnin & -> & ->)|(i & Hin & _ & -> & Hh)].
    + cbn. intros H. apply IH in H as [(H1 & H2 & H3 & H4)|(l1 & s2 & l2 & s' & -> & H1 & H2 & H3 & ->)].
      * left. rewrite <- app_assoc in H3. repeat split; try done. by constructor.
      * right. exists (s :: l1), s2, l2, s'. rewrite <- app_assoc.
        repeat split; try done. by constructor.
    + assert (Hit.hit_type h1 <> MISS) as Hne.
      { destruct Hh as [[-> _]|[-> _]]; done. }
      destruct (Hit.hit_type h1) eqn:Eh; [done| |]; cbn; intros [= <- <-];
        right; exists [], s, todo, (Ship.set_hits s (<[i:=m]> (Ship.hits s)));
        rewrite Eh; repeat split; try done.
Qed.


(** X8: a Sunk answer of [Fleet.check_hit] comes from a missile only, and
    it names a ship of the fleet that lies on the position: it carries the
    cells and the character of that ship, all of whose flags are then set. *)
Theorem sunk_hit_names_a_sunk_ship
    (f f' : Fleet.t) (pos : Pos) (m : bool) (h : Hit.t) :
  Fleet.check_hit f pos m = Ok (h, f') ->
  Hit.hit_type h = SUNK ->
  m = true
  /\ exists s',
      s' ∈ Fleet.ships f'
      /\ pos ∈ Ship.positions s'
      /\ Hit.ship_positions h = Ship.positions s'
      /\ Hit.character h = ShipType.value (Ship.ship_type s')
      /\ forallb id (Ship.hits s') = true.
Proof.
  intros H Hs. apply check_hit_loop_cases in H
    as [(H1 & _)|(l1 & s & l2 & s' & Hf & _ & Hc & Hne & ->)]; [congruence|].
  apply ship_check_hit_cases in Hc as [(_ & -> & _)|(i & Hin & _ & -> & Hh)]; [done|].
  destruct Hh as [[-> _]|(-> & -> & Hall)]; [done|].
  apply list_elem_of_lookup_2 in Hin.
  split; [done|]. eexists.
  split; [cbn; apply elem_of_app; right; by left|]. done.
Qed.

(** ** The setup phase *)

Lemma undamaged_insert_false (hs : list bool) i :
  Forall (fun b => b = false) hs -> <[i:=false]> hs = hs.
Proof.
  intros H. destruct (hs !! i) as [b|] eqn:E.
  - apply list_insert_id. rewrite E. f_equal.
    rewrite Forall_forall in H. apply H. by eapply list_elem_of_lookup_2.
  - apply list_insert_ge. by apply lookup_ge_None.
Qed.

Lemma fleet_probe_undamaged f cell :
  undamaged f -> fleet_ok f ->
  exists h, Fleet.check_hit f cell false = Ok (h, f)
    /\ (Hit.hit_type h <> MISS <-> occupied f cell).
Proof.
  intros Hu Hok.
  destruct (fleet_check_hit_total f cell false Hok) as (h & f' & H & _ & _).
  exists h. pose proof H as H'. apply check_hit_loop_cases in H'
    as [(H1 & -> & -> & Hnin)|(l1 & s & l2 & s' & Hf & Hl1 & Hc & Hne & ->)].
  - cbn in *. rewrite H. split; [by destruct f|]. split; [done|].
    intros (s & Hs & Hin). rewrite Forall_forall in Hnin. by destruct (Hnin s Hs).
  - apply ship_check_hit_cases in Hc as [(_ & -> & _)|(i & Hin & _ & -> & _)]; [done|].
    apply list_elem_of_lookup_2 in Hin.
    assert (Ship.set_hits s (<[i:=false]> (Ship.hits s)) = s) as Hs.
    { rewrite undamaged_insert_false; [by destruct s|].
      unfold undamaged in Hu. rewrite Hf, Forall_forall in Hu. apply Hu.
      apply elem_of_app. right. by left. }
    rewrite H, Hs. cbn. rewrite <- Hf. split; [by destruct f|].
    split; [|done]. intros _. exists s. split; [|done].
    rewrite Hf. apply elem_of_app. right. by left.
Qed.

Lemma draw_ship_probe (m : Manager.t) (cells : list Pos) (overlaps : bool) :
  undamaged (Manager.fleet m) ->
  fleet_ok (Manager.fleet m) ->
  exists overlaps',
    Manager.draw_ship m cells overlaps = Ok (overlaps', m)
    /\ (overlaps' = true <->
        overlaps = true \/ exists cell, cell ∈ cells /\ occupied (Manager.fleet m) cell).
Proof.
  intros Hu Hok. revert overlaps.
  induction cells as [|cell cells IH]; intros overlaps; cbn.
  - exists overlaps. split; [done|]. split; [by left|].
    intros [?|(c & Hc & _)]; [done|by apply elem_of_nil in Hc].
  - destruct (fleet_probe_undamaged _ cell Hu Hok) as (h & -> & Hocc). cbn.
    assert (Manager.set_fleet m (Manager.fleet m) = m) as -> by (by destruct m).
    destruct (IH (if negb (HitType_eqb (Hit.hit_type h) MISS) then true else overlaps))
      as (o' & -> & Ho'). exists o'. split; [done|]. rewrite Ho'.
    split.
    + intros [Hb|(c & Hc & Hoc)].
      * destruct (Hit.hit_type h) eqn:Eh; cbn in Hb; [by left| |];
          right; exists cell; (split; [by left|]); apply Hocc; done.
      * right. exists c. split; [by right|done].
    + intros [->|(c & Hc & Hoc)].
      * left. by destruct (negb _).
      * apply elem_of_cons in Hc as [->|Hc].
        -- left. apply Hocc in Hoc. by destruct (Hit.hit_type h).
        -- right. by exists c.
Qed.

(** X9: on a fleet without damage, the overlap probe of [__draw_ship]
    (shots with [is_missile=False]) leaves the engine exactly as it was,
    and it reports an overlap exactly when one of the probed cells is a
    cell of a ship of the fleet. *)
Theorem overlap_probe_on_an_undamaged_fleet
    (m : Manager.t) (cells : list Pos) (overlaps : bool) :
  undamaged (Manager.fleet m) ->
  fleet_ok (Manager.fleet m) ->
  exists overlaps',
    Manager.draw_ship m cells overlaps = Ok (overlaps', m)
    /\ (overlaps' = true <->
        overlaps = true \/ exists cell, cell ∈ cells /\ occupied (Manager.fleet m) cell).
Proof. apply draw_ship_probe. Qed.

Lemma afloat_size by_ bx s : afloat by_ bx s -> exists n, Ship.size s = S n.
Proof.
  intros (_ & _ & -> & _). apply size_of_pos.
Qed.

Lemma afloat_move by_ bx s d :
  afloat by_ bx s ->
  exists s', Ship.move s d = Ok s' /\ afloat by_ bx s'
    /\ Ship.ship_type s' = Ship.ship_type s.
Proof.
  intros Ha. destruct (afloat_size _ _ _ Ha) as [n Hn].
  destruct Ha as ([H1 H2 H3] & Hb & Hsz & Hh & Hy & Hx).
  rewrite move_eq, (try_placement_S _ _ _ n Hn).
  destruct (_ && _) eqn:E; cbn; eexists; (split; [done|]); (split; [|done]).
  - split; [split; cbn; [by rewrite generate_positions_length|done|done]|].
    split; [|done].
    unfold Ship.in_bounds. cbn -[Ship.generate_positions]. rewrite Hn.
    destruct (generate_positions_cons (moved_start s d) (Ship.rotation s) n)
      as (rest & -> & ->). by rewrite E.
  - done.
Qed.

Lemma afloat_rotate by_ bx s :
  afloat by_ bx s ->
  exists s', Ship.rotate Manager.rotate_fuel s = Ok s' /\ afloat by_ bx s'
    /\ Ship.ship_type s' = Ship.ship_type s.
Proof.
  intros Ha. destruct (afloat_size _ _ _ Ha) as [n Hn].
  destruct Ha as ([H1 H2 H3] & Hb & Hsz & Hh & Hy & Hx).
  unfold Manager.rotate_fuel. rewrite (rotate_4_eq n s Hn).
  destruct (next_valid (fits s) (Ship.rotation s)) as [d|] eqn:Hnv.
  - eexists. split; [done|]. split; [|done].
    split; [split; cbn; [by rewrite generate_positions_length|done|done]|].
    split; [|done]. apply (turned_in_bounds _ _ n Hn). by eapply next_valid_Some.
  - pose proof (next_valid_None _ _ Hnv (Ship.rotation s)) as Hf.
    unfold fits, try_placement in Hf. rewrite <- H2, set_positions_id, Hb in Hf. done.
Qed.

Lemma afloat_init scrheight scrwidth player f ty :
  let m := Manager.set_fleet (Manager.initialize scrheight scrwidth player) f in
  exists s0,
    Ship.init ty (Manager.player_board_center m) RIGHT
      (Manager.player_bounds_y m) (Manager.player_bounds_x m) = Ok s0
    /\ afloat (Manager.player_bounds_y m) (Manager.player_bounds_x m) s0
    /\ Ship.ship_type s0 = ty.
Proof.
  intros m.
  destruct (manager_builds_ships_in_bounds scrheight scrwidth player ty)
    as (s0 & Hi & Hb).
  exists s0. split; [exact Hi|].
  destruct (init_total ty (Manager.player_board_center m) RIGHT
              (Manager.player_bounds_y m) (Manager.player_bounds_x m))
    as (s0' & Hi' & Hty & Hsz & Hh & Hp).
  change (Ship.init ty (Manager.player_board_center m) RIGHT
            (Manager.player_bounds_y m) (Manager.player_bounds_x m) = Ok s0) in Hi.
  rewrite Hi in Hi'. injection Hi' as <-.
  destruct Hp as [Hp|[Hp _]].
  { unfold Ship.in_bounds in Hb. by rewrite Hp in Hb. }
  split; [|done].
  split; [split; [rewrite Hp; apply generate_positions_length|done
                 |by rewrite Hh, length_replicate]|].
  split; [done|]. split; [congruence|].
  split; [rewrite Hh; apply Forall_replicate; done|].
  rewrite init_eq in Hi.
  destruct (try_placement _ _ _) as [[]| |]; cbn in Hi; try done;
    by injection Hi as <-.
Qed.

Lemma legal_fleet_ok by_ bx f : legal_fleet by_ bx f -> undamaged f /\ fleet_ok f.
Proof.
  intros [H _]. split.
  - eapply Forall_impl; [exact H|]. by intros s (_ & _ & _ & ? & _).
  - eapply Forall_impl; [exact H|]. intros s ([H1 _ H3] & _). congruence.
Qed.

Lemma disjoint_ships_snoc l s :
  disjoint_ships l ->
  (forall s0 cell, s0 ∈ l -> cell ∈ Ship.positions s -> cell ∉ Ship.positions s0) ->
  disjoint_ships (l ++ [s]).
Proof.
  intros Hd Hs. induction l as [|a l IH]; cbn.
  - split; [|done]. intros s' cell Hin. by apply elem_of_nil in Hin.
  - destruct Hd as [Ha Hd]. split.
    + intros s' cell [Hin|Hin%list_elem_of_singleton]%elem_of_app Hc.
      * by apply Ha.
      * subst s'. intros Hc'. apply (Hs a cell); [by left|done|done].
    + apply IH; [done|]. intros s0 cell Hin. apply Hs. by right.
Qed.

Lemma legal_fleet_add by_ bx f s :
  legal_fleet by_ bx f -> afloat by_ bx s ->
  (forall cell, cell ∈ Ship.positions s -> ~ occupied f cell) ->
  legal_fleet by_ bx (Fleet.add_ship f s).
Proof.
  intros [Hf Hd] Ha Hfree. split; cbn.
  - apply Forall_app. split; [done|]. by constructor.
  - apply disjoint_ships_snoc; [done|]. intros s0 cell Hin Hc Hc'.
    apply (Hfree cell Hc). by exists s0.
Qed.

(** What a run of the placement loop can come to: it is still waiting
    for keys, or it has added one ship that overlaps none. *)
Lemma place_ship_keys_outcome by_ bx ks : forall m ship,
  legal_fleet by_ bx (Manager.fleet m) -> afloat by_ bx ship ->
  match Manager.place_ship_keys ks m ship with
  | Ok (m', ks') =>
      exists ship',
        m' = Manager.set_fleet m (Fleet.add_ship (Manager.fleet m) ship')
        /\ afloat by_ bx ship'
        /\ Ship.ship_type ship' = Ship.ship_type ship
        /\ (forall cell, cell ∈ Ship.positions ship' -> ~ occupied (Manager.fleet m) cell)
        /\ exists used, ks = used ++ ks'
  | Pending => True
  | Raise _ => False
  end.
Proof.
  induction ks as [|key ks IH]; intros m ship Hf Ha;
    destruct (legal_fleet_ok _ _ _ Hf) as [Hu Hok];
    destruct (draw_ship_probe m (Ship.positions ship) false Hu Hok)
      as (o & Hdraw & Ho); cbn [Manager.place_ship_keys]; rewrite Hdraw;
    cbn [mbind result_bind]; [done|].
  assert (forall ship1, afloat by_ bx ship1 ->
            Ship.ship_type ship1 = Ship.ship_type ship ->
            match Manager.place_ship_keys ks m ship1 with
            | Ok (m', ks') =>
                exists ship',
                  m' = Manager.set_fleet m (Fleet.add_ship (Manager.fleet m) ship')
                  /\ afloat by_ bx ship'
                  /\ Ship.ship_type ship' = Ship.ship_type ship
                  /\ (forall cell, cell ∈ Ship.positions ship' ->
                        ~ occupied (Manager.fleet m) cell)
                  /\ exists used, key :: ks = used ++ ks'
            | Pending => True
            | Raise _ => False
            end) as Hnext.
  { intros ship1 Ha1 Hty. specialize (IH m ship1 Hf Ha1).
    destruct (Manager.place_ship_keys ks m ship1) as [[m' ks']| |]; [|done|done].
    destruct IH as (ship' & H1 & H2 & H3 & H4 & used & H5).
    exists ship'. split; [done|]. split; [done|]. split; [congruence|].
    split; [done|]. exists (key :: used). by rewrite H5. }
  destruct (key =? ord_space).
  { destruct o; cbn.
    - by apply Hnext.
    - exists ship. split; [done|]. split; [done|]. split; [done|].
      split; [|by exists [key]].
      intros cell Hc Hocc. assert (false = true) as Habs; [|done].
      apply Ho. right. by exists cell. }
  destruct (key =? KEY_RIGHT).
  { destruct (afloat_move _ _ _ RIGHT Ha) as (s' & -> & Ha' & Hty). cbn. by apply Hnext. }
  destruct (key =? KEY_LEFT).
  { destruct (afloat_move _ _ _ LEFT Ha) as (s' & -> & Ha' & Hty). cbn. by apply Hnext. }
  destruct (key =? KEY_UP).
  { destruct (afloat_move _ _ _ UP Ha) as (s' & -> & Ha' & Hty). cbn. by apply Hnext. }
  destruct (key =? KEY_DOWN).
  { destruct (afloat_move _ _ _ DOWN Ha) as (s' & -> & Ha' & Hty). cbn. by apply Hnext. }
  destruct (key =? ord_r).
  { destruct (afloat_rotate _ _ _ Ha) as (s' & Hr & Ha' & Hty).
    rewrite Hr. cbn. by apply Hnext. }
  by apply Hnext.
Qed.

Lemma place_all_outcome scrheight scrwidth player types : forall f ks,
  let m0 := Manager.initialize scrheight scrwidth player in
  legal_fleet (Manager.player_bounds_y m0) (Manager.player_bounds_x m0) f ->
  match Manager.place_all types (Manager.set_fleet m0 f) ks with
  | Ok (m', ks') =>
      exists new,
        m' = Manager.set_fleet m0 (Fleet.Build (Fleet.ships f ++ new))
        /\ Ship.ship_type <$> new = types
        /\ legal_fleet (Manager.player_bounds_y m0) (Manager.player_bounds_x m0)
             (Fleet.Build (Fleet.ships f ++ new))
        /\ exists used, ks = used ++ ks'
  | Pending => True
  | Raise _ => False
  end.
Proof.
  induction types as [|ty types IH]; intros f ks m0 Hf; cbn [Manager.place_all].
  - exists []. rewrite app_nil_r. destruct f.
    split; [done|]. split; [done|]. split; [done|]. by exists [].
  - unfold Manager.place_ship_loop.
    destruct (afloat_init scrheight scrwidth player f ty) as (s0 & Hi & Ha & Hty).
    fold m0 in Hi, Ha. rewrite Hi. cbn [mbind result_bind].
    pose proof (place_ship_keys_outcome _ _ ks (Manager.set_fleet m0 f) s0 Hf Ha) as Hk.
    destruct (Manager.place_ship_keys ks (Manager.set_fleet m0 f) s0)
      as [[m1 ks1]| |]; [|done|done].
    destruct Hk as (ship' & -> & Ha' & Hty' & Hfree & used1 & ->).
    cbn [mbind result_bind].
    change (Manager.set_fleet (Manager.set_fleet m0 f) ?g) with (Manager.set_fleet m0 g).
    cbn [Manager.fleet Manager.set_fleet].
    pose proof (legal_fleet_add _ _ _ _ Hf Ha' Hfree) as Hf'.
    specialize (IH (Fleet.add_ship f ship') ks1 Hf'). fold m0 in IH.
    destruct (Manager.place_all types _ ks1) as [[m2 ks2]| |]; [|done|done].
    destruct IH as (new & -> & Hnew & Hl & used2 & ->).
    exists (ship' :: new). cbn in *. rewrite <- app_assoc in *. cbn in *.
    split; [done|]. split; [congruence|]. split; [done|].
    exists (used1 ++ used2). by rewrite app_assoc.
Qed.

Lemma place_ships_outcome scrheight scrwidth player inp :
  let m0 := Manager.initialize scrheight scrwidth player in
  match Manager.place_ships m0 inp with
  | Ok (m', inp') =>
      exists f,
        m' = Manager.set_game_state (Manager.set_fleet m0 f) READY
        /\ Ship.ship_type <$> Fleet.ships f = ShipType.members
        /\ legal_fleet (Manager.player_bounds_y m0) (Manager.player_bounds_x m0) f
        /\ draws inp' = draws inp
        /\ exists used, keys inp = used ++ keys inp'
  | Pending => True
  | Raise _ => False
  end.
Proof.
  intros m0. unfold Manager.place_ships.
  assert (legal_fleet (Manager.player_bounds_y m0) (Manager.player_bounds_x m0)
            Fleet.init) as H0.
  { split; [constructor|done]. }
  pose proof (place_all_outcome scrheight scrwidth player ShipType.members
                Fleet.init (keys inp) H0) as H.
  fold m0 in H.
  change (Manager.set_fleet m0 Fleet.init) with m0 in H.
  destruct (Manager.place_all ShipType.members m0 (keys inp)) as [[m1 ks]| |];
    [|done|done].
  destruct H as (new & -> & Hty & Hl & used & Hk). cbn.
  exists (Fleet.Build new).
  split; [done|]. split; [done|]. split; [done|]. split; [done|]. by exists used.
Qed.

(** X10: when [__place_ships] returns, whatever the keys were, the state is
    READY and the fleet holds one ship per ship type, in the order of the
    types, every ship inside the player's board, where its start position
    and orientation put it, without damage, and no two ships on a common
    cell; nothing but the fleet and the state has changed, and only keys
    were consumed. *)
Theorem setup_builds_a_legal_fleet
    (scrheight scrwidth : Z) (player : LocalPlayer.t) (inp inp' : Input)
    (m' : Manager.t) :
  let m0 := Manager.initialize scrheight scrwidth player in
  Manager.place_ships m0 inp = Ok (m', inp') ->
  Manager.game_state m' = READY
  /\ Ship.ship_type <$> Fleet.ships (Manager.fleet m') = ShipType.members
  /\ legal_fleet (Manager.player_bounds_y m') (Manager.player_bounds_x m')
       (Manager.fleet m')
  /\ m' = Manager.set_game_state (Manager.set_fleet m0 (Manager.fleet m')) READY
  /\ draws inp' = draws inp
  /\ exists used, keys inp = used ++ keys inp'.
Proof.
  intros m0 H. pose proof (place_ships_outcome scrheight scrwidth player inp) as Ho.
  cbv zeta in Ho. unfold m0 in *. rewrite H in Ho. destruct Ho as (f & -> & Hty & Hl & Hd & Hk).
  split; [done|]. split; [done|]. split; [done|]. split; [done|]. done.
Qed.

(** *** The setup can always be completed

    The player's board has nineteen rows and nineteen columns inside its
    bounds, and a fleet has seventeen cells at most: some row and some
    column is free of ships.  A ship lying along a row can be carried to
    a free row, a ship lying along a column to a free column, and placed
    there. *)

Lemma occupied_fleet_cells f cell : occupied f cell <-> cell ∈ fleet_cells f.
Proof.
  unfold occupied, fleet_cells. rewrite list_elem_of_In, in_concat. split.
  - intros (s & Hs & Hc). exists (Ship.positions s). split.
    + apply in_map_iff. exists s. split; [done|]. by apply list_elem_of_In.
    + by apply list_elem_of_In.
  - intros (l & Hl & Hc). apply in_map_iff in Hl as (s & <- & Hs).
    exists s. split; by apply list_elem_of_In.
Qed.

Lemma free_line (pr : Pos -> Z) (cs : list Pos) (lo : Z) :
  (length cs < 19)%nat ->
  exists c, lo < c < lo + 20 /\ forall cell, cell ∈ cs -> pr cell <> c.
Proof.
  intros Hlen.
  destruct (decide (Forall (fun c => c ∈ pr <$> cs) (seqZ (lo + 1) 19))) as [Hall|Hex].
  - exfalso. rewrite Forall_forall in Hall.
    pose proof (NoDup_submseteq _ _ (NoDup_seqZ (lo + 1) 19) Hall) as Hsub.
    apply submseteq_length in Hsub. rewrite length_seqZ, length_fmap in Hsub. lia.
  - apply not_Forall_Exists in Hex; [|tc_solve].
    apply Exists_exists in Hex as (c & Hc & Hnin).
    apply elem_of_seqZ in Hc. exists c. split; [lia|].
    intros cell Hcell Heq. apply Hnin. subst c. by apply list_elem_of_fmap_2.
Qed.

Lemma offset_add p t a b : Ship.offset (Ship.offset p t a) t b = Ship.offset p t (a + b).
Proof. destruct p as [y x], t; cbn; f_equal; lia. Qed.

Lemma offset_comm p t d a b :
  Ship.offset (Ship.offset p t a) d b = Ship.offset (Ship.offset p d b) t a.
Proof. destruct p as [y x], t, d; cbn; f_equal; lia. Qed.

Lemma carried_in_bounds s t n k :
  Ship.size s = S k ->
  Ship.in_bounds (carried s t n)
  = Ok (pos_in_bounds (Ship.offset (Ship.start_pos s) t n) (Ship.bounds_y s) (Ship.bounds_x s)
        && pos_in_bounds
             (Ship.offset (Ship.offset (Ship.start_pos s) (Ship.rotation s) (Z.of_nat k)) t n)
             (Ship.bounds_y s) (Ship.bounds_x s)).
Proof.
  intros Hk. rewrite <- offset_comm.
  rewrite <- (try_placement_S s _ _ k Hk). done.
Qed.

Lemma carried_0 s t : placed s -> carried s t 0 = s.
Proof.
  intros Hp. unfold carried.
  assert (Ship.offset (Ship.start_pos s) t 0 = Ship.start_pos s) as ->.
  { destruct (Ship.start_pos s), t; cbn; f_equal; lia. }
  rewrite <- Hp. by destruct s.
Qed.

Lemma carried_carried s t a b : carried (carried s t a) t b = carried s t (a + b).
Proof. unfold carried. cbn. by rewrite offset_add. Qed.

Lemma pos_in_bounds_between p t n k by_ bx :
  0 <= k <= n ->
  pos_in_bounds p by_ bx = true ->
  pos_in_bounds (Ship.offset p t n) by_ bx = true ->
  pos_in_bounds (Ship.offset p t k) by_ bx = true.
Proof.
  rewrite !pos_in_bounds_spec. destruct p as [y x], t; cbn; lia.
Qed.

Lemma carried_between s t n k :
  0 <= k <= n ->
  placed s ->
  Ship.in_bounds s = Ok true ->
  Ship.in_bounds (carried s t n) = Ok true ->
  Ship.in_bounds (carried s t k) = Ok true.
Proof.
  intros Hk Hp Hb Hn.
  destruct (Ship.size s) as [|j] eqn:Hj.
  { unfold Ship.in_bounds in Hb. rewrite Hp, Hj in Hb. done. }
  rewrite <- (carried_0 s t Hp) in Hb.
  rewrite (carried_in_bounds _ _ 0 j Hj) in Hb.
  rewrite (carried_in_bounds _ _ n j Hj) in Hn.
  rewrite (carried_in_bounds _ _ k j Hj).
  injection Hb as Hb. injection Hn as Hn.
  apply andb_true_iff in Hb as [Hb1 Hb2]. apply andb_true_iff in Hn as [Hn1 Hn2].
  f_equal. apply andb_true_iff.
  assert (forall q, Ship.offset q t 0 = q) as H0.
  { intros [y x]. destruct t; cbn; f_equal; lia. }
  rewrite H0 in Hb1, Hb2.
  split; eapply pos_in_bounds_between; eauto.
Qed.

Lemma move_carried by_ bx s t :
  afloat by_ bx s ->
  Ship.in_bounds (carried s t 1) = Ok true ->
  Ship.move s t = Ok (carried s t 1) /\ afloat by_ bx (carried s t 1).
Proof.
  intros Ha Hb.
  destruct (afloat_move _ _ _ t Ha) as (s' & Hm & Ha' & _).
  assert (s' = carried s t 1) as <-; [|done].
  rewrite move_eq, moved_start_offset in Hm.
  change (try_placement s (Ship.offset (Ship.start_pos s) t 1) (Ship.rotation s))
    with (Ship.in_bounds (carried s t 1)) in Hm.
  rewrite Hb in Hm. cbn in Hm. by injection Hm.
Qed.

Lemma place_ship_keys_arrow by_ bx m t s ks :
  legal_fleet by_ bx (Manager.fleet m) ->
  afloat by_ bx s ->
  Ship.in_bounds (carried s t 1) = Ok true ->
  Manager.place_ship_keys (arrow_key t :: ks) m s
  = Manager.place_ship_keys ks m (carried s t 1).
Proof.
  intros Hf Ha Hb.
  destruct (legal_fleet_ok _ _ _ Hf) as [Hu Hok].
  destruct (draw_ship_probe m (Ship.positions s) false Hu Hok) as (o & Hdraw & _).
  destruct (move_carried _ _ _ _ Ha Hb) as [Hm _].
  cbn [Manager.place_ship_keys]. rewrite Hdraw. cbn [mbind result_bind].
  destruct t; cbn [arrow_key]; rewrite Hm; reflexivity.
Qed.

Lemma place_ship_keys_arrows by_ bx m t (n : nat) : forall s ks,
  legal_fleet by_ bx (Manager.fleet m) ->
  afloat by_ bx s ->
  Ship.in_bounds (carried s t (Z.of_nat n)) = Ok true ->
  Manager.place_ship_keys (replicate n (arrow_key t) ++ ks) m s
  = Manager.place_ship_keys ks m (carried s t (Z.of_nat n))
  /\ afloat by_ bx (carried s t (Z.of_nat n)).
Proof.
  induction n as [|n IH]; intros s ks Hf Ha Hb.
  - change (Z.of_nat 0) with 0. pose proof Ha as (Hi & _).
    rewrite (carried_0 s t (inv_placed _ Hi)). done.
  - assert (Ship.in_bounds (carried s t 1) = Ok true) as Hb1.
    { destruct Ha as (Hi & Hin & _).
      apply (carried_between s t (Z.of_nat (S n)) 1); [lia|apply Hi|done|done]. }
    destruct (move_carried _ _ _ _ Ha Hb1) as [_ Ha1].
    cbn [replicate app]. rewrite (place_ship_keys_arrow by_ bx) by done.
    replace (Z.of_nat (S n)) with (1 + Z.of_nat n) in * by lia.
    rewrite <- carried_carried in *. by apply IH.
Qed.

Lemma place_ship_keys_space by_ bx m s ks :
  legal_fleet by_ bx (Manager.fleet m) ->
  (forall cell, cell ∈ Ship.positions s -> ~ occupied (Manager.fleet m) cell) ->
  Manager.place_ship_keys (ord_space :: ks) m s
  = Ok (Manager.set_fleet m (Fleet.add_ship (Manager.fleet m) s), ks).
Proof.
  intros Hf Hfree.
  destruct (legal_fleet_ok _ _ _ Hf) as [Hu Hok].
  destruct (draw_ship_probe m (Ship.positions s) false Hu Hok) as (o & Hdraw & Ho).
  cbn [Manager.place_ship_keys]. rewrite Hdraw. cbn [mbind result_bind].
  destruct o; [|done].
  destruct (proj1 Ho eq_refl) as [?|(cell & Hc & Hocc)]; [done|].
  by destruct (Hfree cell Hc).
Qed.

Lemma afloat_escape by_ bx f s :
  by_.2 = by_.1 + 20 -> bx.2 = bx.1 + 20 ->
  afloat by_ bx s ->
  (length (fleet_cells f) < 19)%nat ->
  exists t (n : nat),
    Ship.in_bounds (carried s t (Z.of_nat n)) = Ok true
    /\ forall cell, cell ∈ Ship.positions (carried s t (Z.of_nat n)) -> ~ occupied f cell.
Proof.
  intros Hy Hx Ha Hlen.
  destruct (afloat_size _ _ _ Ha) as [k Hk].
  destruct Ha as ([_ Hp _] & Hb & _ & _ & Hby & Hbx).
  rewrite (placed_in_bounds s Hp), (try_placement_S _ _ _ k Hk) in Hb.
  injection Hb as Hb. apply andb_true_iff in Hb as [Hb1 Hb2].
  rewrite pos_in_bounds_spec, Hby, Hbx in Hb1, Hb2.
  set (across := fun p : Pos =>
         match Ship.rotation s with LEFT | RIGHT => p.1 | UP | DOWN => p.2 end).
  set (lo := match Ship.rotation s with LEFT | RIGHT => by_.1 | UP | DOWN => bx.1 end).
  destruct (free_line across (fleet_cells f) lo Hlen) as (c & Hc & Hfree).
  exists (match Ship.rotation s with
          | LEFT | RIGHT => if across (Ship.start_pos s) <=? c then DOWN else UP
          | UP | DOWN => if across (Ship.start_pos s) <=? c then RIGHT else LEFT
          end),
         (Z.to_nat (Z.abs (c - across (Ship.start_pos s)))).
  split.
  - rewrite (carried_in_bounds _ _ _ k Hk). f_equal. apply andb_true_iff.
    rewrite !pos_in_bounds_spec, Hby, Hbx.
    subst across lo. cbv beta in *.
    destruct (Ship.start_pos s) as [y x], (Ship.rotation s); cbn in *;
      match goal with |- context [?a <=? ?b] => destruct (Z.leb_spec a b) end;
      cbn; lia.
  - intros cell Hcell Hocc. apply occupied_fleet_cells in Hocc.
    apply (Hfree cell Hocc).
    cbn in Hcell. unfold Ship.generate_positions in Hcell.
    apply list_elem_of_fmap in Hcell as (i & -> & _).
    subst across lo. cbv beta in *.
    destruct (Ship.start_pos s) as [y x], (Ship.rotation s); cbn in *;
      match goal with |- context [?a <=? ?b] => destruct (Z.leb_spec a b) end;
      cbn; lia.
Qed.

Lemma place_ship_finish by_ bx m s :
  by_.2 = by_.1 + 20 -> bx.2 = bx.1 + 20 ->
  legal_fleet by_ bx (Manager.fleet m) ->
  afloat by_ bx s ->
  (length (fleet_cells (Manager.fleet m)) < 19)%nat ->
  exists ks s',
    afloat by_ bx s'
    /\ Ship.ship_type s' = Ship.ship_type s
    /\ (forall cell, cell ∈ Ship.positions s' -> ~ occupied (Manager.fleet m) cell)
    /\ forall more,
         Manager.place_ship_keys (ks ++ more) m s
         = Ok (Manager.set_fleet m (Fleet.add_ship (Manager.fleet m) s'), more).
Proof.
  intros Hy Hx Hf Ha Hlen.
  destruct (afloat_escape _ _ _ _ Hy Hx Ha Hlen) as (t & n & Hb & Hfree).
  exists (replicate n (arrow_key t) ++ [ord_space]), (carried s t (Z.of_nat n)).
  destruct (place_ship_keys_arrows by_ bx m t n s [] Hf Ha Hb) as [_ Ha'].
  split; [done|]. split; [done|]. split; [done|].
  intros more. rewrite <- app_assoc.
  destruct (place_ship_keys_arrows by_ bx m t n s ([ord_space] ++ more) Hf Ha Hb) as [-> _].
  by apply (place_ship_keys_space by_ bx).
Qed.

Lemma place_ship_keys_more ks : forall m s m' ks' more,
  Manager.place_ship_keys ks m s = Ok (m', ks') ->
  Manager.place_ship_keys (ks ++ more) m s = Ok (m', ks' ++ more).
Proof.
  induction ks as [|key ks IH]; intros m s m' ks' more;
    cbn [Manager.place_ship_keys app];
    destruct (Manager.draw_ship m (Ship.positions s) false) as [[o m1]| |];
    cbn [mbind result_bind]; try done.
  destruct (key =? ord_space).
  { destruct (negb o); [by intros [= <- <-]|apply IH]. }
  repeat match goal with
  | |- context [if ?k =? ?c then _ else _] => destruct (k =? c)
  | |- context [Ship.move ?s ?d] => destruct (Ship.move s d) as [?| |]
  | |- context [Ship.rotate ?n ?s] => destruct (Ship.rotate n s) as [?| |]
  end; cbn [mbind result_bind]; try done; apply IH.
Qed.

Lemma place_ship_keys_pending by_ bx ks : forall m s,
  legal_fleet by_ bx (Manager.fleet m) ->
  afloat by_ bx s ->
  Manager.place_ship_keys ks m s = Pending ->
  exists s',
    afloat by_ bx s'
    /\ Ship.ship_type s' = Ship.ship_type s
    /\ forall more,
         Manager.place_ship_keys (ks ++ more) m s = Manager.place_ship_keys more m s'.
Proof.
  induction ks as [|key ks IH]; intros m s Hf Ha; [by exists s|].
  destruct (legal_fleet_ok _ _ _ Hf) as [Hu Hok].
  destruct (draw_ship_probe m (Ship.positions s) false Hu Hok) as (o & Hdraw & _).
  cbn [Manager.place_ship_keys app]. rewrite Hdraw. cbn [mbind result_bind].
  assert (forall s1, afloat by_ bx s1 -> Ship.ship_type s1 = Ship.ship_type s ->
            Manager.place_ship_keys ks m s1 = Pending ->
            exists s',
              afloat by_ bx s'
              /\ Ship.ship_type s' = Ship.ship_type s
              /\ forall more,
                   Manager.place_ship_keys (ks ++ more) m s1
                   = Manager.place_ship_keys more m s') as Hnext.
  { intros s1 Ha1 Hty Hp. destruct (IH m s1 Hf Ha1 Hp) as (s' & ? & ? & ?).
    exists s'. split; [done|]. split; [congruence|done]. }
  destruct (key =? ord_space).
  { destruct (negb o); [done|]. by apply Hnext. }
  destruct (key =? KEY_RIGHT).
  { destruct (afloat_move _ _ _ RIGHT Ha) as (s1 & -> & Ha1 & Hty). by apply Hnext. }
  destruct (key =? KEY_LEFT).
  { destruct (afloat_move _ _ _ LEFT Ha) as (s1 & -> & Ha1 & Hty). by apply Hnext. }
  destruct (key =? KEY_UP).
  { destruct (afloat_move _ _ _ UP Ha) as (s1 & -> & Ha1 & Hty). by apply Hnext. }
  destruct (key =? KEY_DOWN).
  { destruct (afloat_move _ _ _ DOWN Ha) as (s1 & -> & Ha1 & Hty). by apply Hnext. }
  destruct (key =? ord_r).
  { destruct (afloat_rotate _ _ _ Ha) as (s1 & -> & Ha1 & Hty). by apply Hnext. }
  by apply Hnext.
Qed.

Lemma player_board_span scrheight scrwidth player :
  let m := Manager.initialize scrheight scrwidth player in
  (Manager.player_bounds_y m).2 = (Manager.player_bounds_y m).1 + 20
  /\ (Manager.player_bounds_x m).2 = (Manager.player_bounds_x m).1 + 20.
Proof. cbn. lia. Qed.

Lemma fleet_cells_add f s :
  length (fleet_cells (Fleet.add_ship f s))
  = (length (fleet_cells f) + length (Ship.positions s))%nat.
Proof.
  unfold fleet_cells, Fleet.add_ship. cbn.
  rewrite fmap_app, concat_app, length_app. cbn. by rewrite app_nil_r.
Qed.

Lemma place_all_more types : forall m ks m' ks' more,
  Manager.place_all types m ks = Ok (m', ks') ->
  Manager.place_all types m (ks ++ more) = Ok (m', ks' ++ more).
Proof.
  induction types as [|ty types IH]; intros m ks m' ks' more; cbn [Manager.place_all].
  - by intros [= <- <-].
  - unfold Manager.place_ship_loop.
    destruct (Ship.init _ _ _ _ _) as [s0| |]; cbn [mbind result_bind]; try done.
    destruct (Manager.place_ship_keys ks m s0) as [[m1 ks1]| |] eqn:E;
      cbn [mbind result_bind]; try done.
    rewrite (place_ship_keys_more _ _ _ _ _ more E). cbn [mbind result_bind].
    apply IH.
Qed.

Lemma place_all_finish scrheight scrwidth player types : forall f,
  let m0 := Manager.initialize scrheight scrwidth player in
  legal_fleet (Manager.player_bounds_y m0) (Manager.player_bounds_x m0) f ->
  (length (fleet_cells f) + sizes types < 19)%nat ->
  exists ks m',
    forall more, Manager.place_all types (Manager.set_fleet m0 f) (ks ++ more) = Ok (m', more).
Proof.
  induction types as [|ty types IH]; intros f m0 Hf Hlen; cbn [Manager.place_all].
  - by exists [], (Manager.set_fleet m0 f).
  - destruct (player_board_span scrheight scrwidth player) as [Hy Hx]. fold m0 in Hy, Hx.
    destruct (afloat_init scrheight scrwidth player f ty) as (s0 & Hi & Ha & Hty).
    fold m0 in Hi, Ha. cbn [sizes foldr] in Hlen.
    destruct (place_ship_finish _ _ (Manager.set_fleet m0 f) s0 Hy Hx Hf Ha)
      as (ks1 & s' & Ha' & Hty' & Hfree & Hk1); [cbn; lia|].
    pose proof (legal_fleet_add _ _ _ _ Hf Ha' Hfree) as Hf'.
    destruct (IH (Fleet.add_ship f s') Hf') as (ks2 & m' & Hk2).
    { rewrite fleet_cells_add. destruct Ha' as ([Hl _ _] & _ & Hsz & _).
      rewrite Hl, Hsz, Hty', Hty. fold (sizes types) in Hlen. lia. }
    exists (ks1 ++ ks2), m'. intros more.
    unfold Manager.place_ship_loop. rewrite Hi. cbn [mbind result_bind].
    rewrite <- app_assoc, Hk1. cbn [mbind result_bind]. apply Hk2.
Qed.

Lemma place_all_pending scrheight scrwidth player types : forall f ks,
  let m0 := Manager.initialize scrheight scrwidth player in
  legal_fleet (Manager.player_bounds_y m0) (Manager.player_bounds_x m0) f ->
  (length (fleet_cells f) + sizes types < 19)%nat ->
  Manager.place_all types (Manager.set_fleet m0 f) ks = Pending ->
  exists more m',
    Manager.place_all types (Manager.set_fleet m0 f) (ks ++ more) = Ok (m', []).
Proof.
  induction types as [|ty types IH]; intros f ks m0 Hf Hlen; cbn [Manager.place_all];
    [done|].
  destruct (player_board_span scrheight scrwidth player) as [Hy Hx]. fold m0 in Hy, Hx.
  destruct (afloat_init scrheight scrwidth player f ty) as (s0 & Hi & Ha & Hty).
  fold m0 in Hi, Ha. cbn [sizes foldr] in Hlen. fold (sizes types) in Hlen.
  unfold Manager.place_ship_loop. rewrite Hi. cbn [mbind result_bind].
  assert (forall s', afloat (Manager.player_bounds_y m0) (Manager.player_bounds_x m0) s' ->
            Ship.ship_type s' = ty ->
            (length (fleet_cells (Fleet.add_ship f s')) + sizes types < 19)%nat) as Hcount.
  { intros s' ([Hl _ _] & _ & Hsz & _) Hty'.
    rewrite fleet_cells_add, Hl, Hsz, Hty'. lia. }
  pose proof (place_ship_keys_outcome _ _ ks (Manager.set_fleet m0 f) s0 Hf Ha) as Hk.
  destruct (Manager.place_ship_keys ks (Manager.set_fleet m0 f) s0)
    as [[m1 ks1]| |] eqn:E; [|done|]; cbn [mbind result_bind].
  - destruct Hk as (s' & -> & Ha' & Hty' & Hfree & _).
    change (Manager.set_fleet (Manager.set_fleet m0 f) ?g) with (Manager.set_fleet m0 g).
    cbn [Manager.fleet Manager.set_fleet].
    pose proof (legal_fleet_add _ _ _ _ Hf Ha' Hfree) as Hf'.
    intros Hp.
    destruct (IH (Fleet.add_ship f s') ks1 Hf') as (more & m' & Hm);
      [apply Hcount; congruence|exact Hp|].
    exists more, m'.
    rewrite (place_ship_keys_more _ _ _ _ _ more E). cbn [mbind result_bind].
    exact Hm.
  - intros _.
    destruct (place_ship_keys_pending _ _ ks (Manager.set_fleet m0 f) s0 Hf Ha E) as (s1 & Ha1 & Hty1 & Hres).
    destruct (place_ship_finish _ _ (Manager.set_fleet m0 f) s1 Hy Hx Hf Ha1)
      as (ks1 & s' & Ha' & Hty' & Hfree & Hk1); [cbn; lia|].
    pose proof (legal_fleet_add _ _ _ _ Hf Ha' Hfree) as Hf'.
    destruct (place_all_finish scrheight scrwidth player types (Fleet.add_ship f s') Hf')
      as (ks2 & m' & Hk2); [apply Hcount; congruence|].
    exists (ks1 ++ ks2), m'.
    rewrite Hres, Hk1. cbn [mbind result_bind].
    specialize (Hk2 []). by rewrite app_nil_r in Hk2.
Qed.

(** X11: no sequence of keys makes the setup phase raise.  As long as
    [__place_ships] has not returned it is waiting for a key and nothing
    else -- [rotate] never loops there, no ship is ever stuck: some
    further keys make it return.  And once it has returned on some keys,
    it returns the same engine on any longer sequence, leaving the
    further keys unread. *)
Theorem setup_never_raises
    (scrheight scrwidth : Z) (player : LocalPlayer.t) (inp : Input) :
  let m0 := Manager.initialize scrheight scrwidth player in
  (forall e, Manager.place_ships m0 inp <> Raise e)
  /\ (Manager.place_ships m0 inp = Pending ->
      exists more m',
        Manager.place_ships m0 {| keys := keys inp ++ more; draws := draws inp |}
        = Ok (m', {| keys := []; draws := draws inp |}))
  /\ (forall m' inp' more,
        Manager.place_ships m0 inp = Ok (m', inp') ->
        Manager.place_ships m0 {| keys := keys inp ++ more; draws := draws inp |}
        = Ok (m', {| keys := keys inp' ++ more; draws := draws inp' |})).
Proof.
  intros m0.
  assert (legal_fleet (Manager.player_bounds_y m0) (Manager.player_bounds_x m0)
            Fleet.init) as H0.
  { split; [constructor|done]. }
  split; [|split].
  - intros e H. pose proof (place_ships_outcome scrheight scrwidth player inp) as Ho.
    cbv zeta in Ho. fold m0 in Ho. by rewrite H in Ho.
  - unfold Manager.place_ships. cbn [keys draws].
    destruct (Manager.place_all ShipType.members m0 (keys inp)) as [[m1 ks1]| |] eqn:E;
      cbn [mbind result_bind]; try done. intros _.
    destruct (place_all_pending scrheight scrwidth player ShipType.members
                Fleet.init (keys inp) H0) as (more & m' & Hm); [cbn; lia|exact E|].
    fold m0 in Hm. change (Manager.set_fleet m0 Fleet.init) with m0 in Hm.
    exists more, (Manager.set_game_state m' READY). by rewrite Hm.
  - intros m' inp' more. unfold Manager.place_ships. cbn [keys draws].
    destruct (Manager.place_all ShipType.members m0 (keys inp)) as [[m1 ks1]| |] eqn:E;
      cbn [mbind result_bind]; try done. intros [= <- <-].
    by rewrite (place_all_more _ _ _ _ _ more E).
Qed.

(** ** The two boards *)

Lemma reveal_sunk_ship_eq m h :
  Manager.reveal_sunk_ship m h
  = fold_left
      (fun m hit_pos =>
         Manager.set_guesses m (Manager.reveal_at (Manager.guesses m) (untranslate m hit_pos) h))
      (Hit.ship_positions h) m.
Proof. done. Qed.

(** X12: the offset of [__fire_missile] and the offset of
    [__reveal_sunk_ship] are inverse to each other, and they map the
    inside of the opponent's board onto the inside of the player's board,
    centre to centre. *)
Theorem translate_is_a_bijection_of_the_boards
    (scrheight scrwidth : Z) (player : LocalPlayer.t) (p : Pos) :
  let m := Manager.initialize scrheight scrwidth player in
  untranslate m (translate m p) = p
  /\ translate m (untranslate m p) = p
  /\ pos_in_bounds (translate m p) (Manager.player_bounds_y m) (Manager.player_bounds_x m)
     = pos_in_bounds p (Manager.opponent_bounds_y m) (Manager.opponent_bounds_x m)
  /\ translate m (Manager.opponent_board_center m) = Manager.player_board_center m.
Proof.
  intros m. destruct p as [y x]. unfold translate, untranslate. cbn.
  split; [f_equal; lia|]. split; [f_equal; lia|]. split; [|f_equal; lia].
  unfold pos_in_bounds. cbn.
  repeat match goal with
         | |- context [?a >? ?b] => destruct (Z.gtb_spec a b)
         | |- context [?a <? ?b] => destruct (Z.ltb_spec a b)
         end; cbn; try done; lia.
Qed.

(** ** The guess log *)

Lemma reveal_at_fst gs p h : (Manager.reveal_at gs p h).*1 = gs.*1.
Proof.
  induction gs as [|[q g] gs IH]; cbn; [done|].
  case_bool_decide as E; cbn; [by rewrite E|by rewrite IH].
Qed.

Lemma reveal_at_elem gs p h t g :
  NoDup gs.*1 ->
  (t, g) ∈ Manager.reveal_at gs p h ->
  (t = p /\ g = h /\ p ∈ gs.*1) \/ (t <> p /\ (t, g) ∈ gs).
Proof.
  induction gs as [|[q g0] gs IH]; cbn; [by intros _ ?%elem_of_nil|].
  intros [Hq Hnd]%NoDup_cons. case_bool_decide as E.
  - subst q. intros [[= -> ->]|Hin]%elem_of_cons.
    + left. split; [done|]. split; [done|]. by left.
    + right. split; [|by right]. intros ->. apply Hq.
      apply list_elem_of_fmap. by exists (p, g).
  - intros [[= -> ->]|Hin]%elem_of_cons.
    + right. split; [congruence|by left].
    + destruct (IH Hnd Hin) as [(-> & -> & Hp)|[Hne Hin']].
      * left. split; [done|]. split; [done|]. by right.
      * right. split; [done|by right].
Qed.

Lemma reveal_at_marks gs p h : p ∈ gs.*1 -> (p, h) ∈ Manager.reveal_at gs p h.
Proof.
  induction gs as [|[q g] gs IH]; cbn; [by intros ?%elem_of_nil|].
  case_bool_decide as E; [by left|].
  intros [->|Hin]%elem_of_cons; [done|]. right. by apply IH.
Qed.

Lemma reveal_at_keeps_marked gs p h t : (t, h) ∈ gs -> (t, h) ∈ Manager.reveal_at gs p h.
Proof.
  induction gs as [|[q g] gs IH]; cbn; [done|].
  case_bool_decide as E.
  - subst q. intros [[= -> ->]|Hin]%elem_of_cons; [by left|].
    destruct (decide (t = p)) as [->|Hne]; [by left|by right].
  - intros [[= -> ->]|Hin]%elem_of_cons; [by left|]. right. by apply IH.
Qed.

Lemma reveal_fold_spec h ps : forall m,
  NoDup (guessed m) ->
  let m' := fold_left
              (fun m hit_pos =>
                 Manager.set_guesses m
                   (Manager.reveal_at (Manager.guesses m) (untranslate m hit_pos) h))
              ps m in
  guessed m' = guessed m
  /\ m' = Manager.set_guesses m (Manager.guesses m')
  /\ (forall t g, (t, g) ∈ Manager.guesses m' ->
        (g = h /\ exists p, p ∈ ps /\ t = untranslate m p)
        \/ (t, g) ∈ Manager.guesses m)
  /\ (forall t, (t, h) ∈ Manager.guesses m -> (t, h) ∈ Manager.guesses m')
  /\ (forall p, p ∈ ps -> untranslate m p ∈ guessed m ->
        (untranslate m p, h) ∈ Manager.guesses m').
Proof.
  induction ps as [|p ps IH]; intros m Hnd; cbn.
  - split; [done|]. split; [by destruct m|]. split; [auto|]. split; [auto|].
    by intros p ?%elem_of_nil.
  - set (m1 := Manager.set_guesses m _).
    assert (guessed m1 = guessed m) as Hg1 by apply reveal_at_fst.
    destruct (IH m1) as (Hg & Hm & Hel & Hkeep & Hmark); [by rewrite Hg1|].
    split; [by rewrite Hg|]. split; [etrans; [exact Hm|done]|].
    split; [|split].
    + intros t g Hin. destruct (Hel t g Hin) as [(-> & q & Hq & ->)|Hin1].
      * left. split; [done|]. exists q. split; [by right|done].
      * apply reveal_at_elem in Hin1 as [(-> & -> & _)|[_ ?]]; [|by right|done].
        left. split; [done|]. exists p. split; [by left|done].
    + intros t Hin. apply Hkeep. by apply reveal_at_keeps_marked.
    + intros q [->|Hq]%elem_of_cons Hin.
      * apply Hkeep. by apply reveal_at_marks.
      * apply (Hmark q Hq). by rewrite Hg1.
Qed.

(** X13: on a guess log without repeated targets, [__reveal_sunk_ship]
    keeps the targets of the log in place; every guess at the counterpart
    of a cell of the sunk ship then carries the Sunk hit, and every other
    guess is as it was. *)
Theorem reveal_sunk_ship_marks_the_ship (m : Manager.t) (h : Hit.t) :
  NoDup (guessed m) ->
  let m' := Manager.reveal_sunk_ship m h in
  guessed m' = guessed m
  /\ m' = Manager.set_guesses m (Manager.guesses m')
  /\ (forall t g, (t, g) ∈ Manager.guesses m' ->
        (g = h /\ exists p, p ∈ Hit.ship_positions h /\ t = untranslate m p)
        \/ (t, g) ∈ Manager.guesses m)
  /\ (forall p, p ∈ Hit.ship_positions h -> untranslate m p ∈ guessed m ->
        (untranslate m p, h) ∈ Manager.guesses m').
Proof.
  intros Hnd. rewrite reveal_sunk_ship_eq.
  destruct (reveal_fold_spec h (Hit.ship_positions h) m Hnd) as (H1 & H2 & H3 & _ & H5).
  done.
Qed.

(** ** A shot of the player at the strategy's fleet *)

Lemma disjoint_ships_positions l l' :
  Ship.positions <$> l' = Ship.positions <$> l -> disjoint_ships l -> disjoint_ships l'.
Proof.
  revert l'. induction l as [|s l IH]; intros [|s' l']; cbn; try done.
  intros [= Hs Hl] [Hd1 Hd2]. split; [|by apply IH].
  intros s2 cell Hin Hc. rewrite Hs in Hc.
  apply list_elem_of_lookup in Hin as [j Hj].
  assert ((Ship.positions <$> l) !! j = Some (Ship.positions s2)) as Hj'.
  { by rewrite <- Hl, list_lookup_fmap, Hj. }
  rewrite list_lookup_fmap in Hj'. destruct (l !! j) as [s3|] eqn:E; [|done].
  injection Hj' as Hj'. rewrite <- Hj'. apply Hd1; [|done].
  by eapply list_elem_of_lookup_2.
Qed.

Lemma disjoint_ships_middle l1 s l2 cell :
  disjoint_ships (l1 ++ s :: l2) ->
  cell ∈ Ship.positions s ->
  forall s', s' ∈ l2 -> cell ∉ Ship.positions s'.
Proof.
  induction l1 as [|a l1 IH]; cbn.
  - intros [H _] Hc s' Hin. by apply H.
  - intros [_ H]. by apply IH.
Qed.

Lemma sunk_ships_app l1 l2 :
  sunk_ships (Fleet.Build (l1 ++ l2))
  = sunk_ships (Fleet.Build l1) ++ sunk_ships (Fleet.Build l2).
Proof. unfold sunk_ships. cbn. apply List.filter_app. Qed.

Lemma sunk_ships_length_le f : (length (sunk_ships f) <= length (Fleet.ships f))%nat.
Proof. apply List.filter_length_le. Qed.

(** The heart of the matter: a missile at the counterpart of a target not
    yet fired at sets one more flag, or none, and sinks a ship exactly
    when the answer is Sunk. *)
Lemma shot_keeps_flags (tr un : Pos -> Pos) targets fa t h fa' :
  (forall c, tr (un c) = c) ->
  (forall c, un (tr c) = c) ->
  fleet_in_play fa ->
  flags_follow un targets fa ->
  t ∉ targets ->
  Fleet.check_hit fa (tr t) true = Ok (h, fa') ->
  fleet_in_play fa'
  /\ length (Fleet.ships fa') = length (Fleet.ships fa)
  /\ flags_follow un (targets ++ [t]) fa'
  /\ length (sunk_ships fa')
     = (length (sunk_ships fa)
        + match Hit.hit_type h with SUNK => 1 | _ => 0 end)%nat.
Proof.
  intros Htr Hun [Hships Hdisj] Hflags Hnew H.
  assert (forall c, un c = t -> c = tr t) as Hinj.
  { intros c <-. by rewrite Htr. }
  apply check_hit_loop_cases in H
    as [(H1 & -> & -> & Hnin)|(l1 & s & l2 & s' & Hf & Hl1 & Hc & Hne & ->)].
  - destruct fa as [l]. cbn in *. split; [done|]. split; [done|]. split; [|lia].
    intros s i cell Hs Hcell. rewrite (Hflags s i cell Hs Hcell), elem_of_app.
    split; [by left|]. intros [?|Ht%list_elem_of_singleton]; [done|].
    apply Hinj in Ht. subst cell. rewrite Forall_forall in Hnin.
    destruct (Hnin s Hs). by eapply list_elem_of_lookup_2.
  - cbn in Hf. cbn [app].
    apply ship_check_hit_cases in Hc as [(_ & -> & _)|(i & Hi & [b Hb] & -> & Hh)]; [done|].
    rewrite Hf in Hships, Hdisj.
    apply Forall_app in Hships as [Hs1 Hs2]. apply Forall_cons in Hs2 as [(Hnd & Hlen & Hne') Hs2].
    assert (s ∈ Fleet.ships fa) as Hsin.
    { rewrite Hf. apply elem_of_app. right. by left. }
    assert (b = false) as ->.
    { destruct b; [|done]. exfalso. apply Hnew. rewrite <- (Hun t).
      by apply (Hflags s i (tr t) Hsin Hi). }
    pose proof (lookup_lt_Some _ _ _ Hb) as Hilt.
    set (s' := Ship.set_hits s (<[i:=true]> (Ship.hits s))).
    assert (forall s2, s2 ∈ l1 ++ l2 -> tr t ∉ Ship.positions s2) as Hothers.
    { intros s2 [Hin|Hin]%elem_of_app.
      - rewrite Forall_forall in Hl1. by apply Hl1.
      - apply (disjoint_ships_middle l1 s l2 (tr t) Hdisj); [|done].
        by eapply list_elem_of_lookup_2. }
    split; [split|split; [|split]].
    + apply Forall_app. split; [done|]. constructor; [|done].
      cbn. by rewrite length_insert.
    + eapply disjoint_ships_positions; [|exact Hdisj].
      cbn [Fleet.ships]. rewrite !fmap_app, !fmap_cons. reflexivity.
    + cbn. rewrite Hf, !length_app. done.
    + intros s2 j cell Hs2in Hcell. cbn in Hs2in.
      assert (s2 = s' \/ s2 ∈ l1 ++ l2) as [->|Hin].
      { apply elem_of_app in Hs2in as [?|[->|?]%elem_of_cons];
          [right|left|right]; try done; apply elem_of_app; auto. }
      * cbn in Hcell |- *. destruct (decide (j = i)) as [->|Hji].
        -- rewrite list_lookup_insert_eq by done.
           assert (cell = tr t) as -> by congruence.
           rewrite Hun, elem_of_app, list_elem_of_singleton. tauto.
        -- rewrite list_lookup_insert_ne by done.
           rewrite (Hflags s j cell Hsin Hcell), elem_of_app.
           split; [by left|]. intros [?|Ht%list_elem_of_singleton]; [done|].
           apply Hinj in Ht. subst cell.
           destruct Hji. by eapply NoDup_lookup.
      * assert (s2 ∈ Fleet.ships fa) as Hs2fa.
        { rewrite Hf. apply elem_of_app in Hin as [?|?]; apply elem_of_app;
            [by left|right; by right]. }
        rewrite (Hflags s2 j cell Hs2fa Hcell), elem_of_app.
        split; [by left|]. intros [?|Ht%list_elem_of_singleton]; [done|].
        apply Hinj in Ht. subst cell.
        destruct (Hothers s2 Hin). by eapply list_elem_of_lookup_2.
    + assert (forallb id (Ship.hits s) = false) as Hs0.
      { apply not_true_is_false. intros Hall. rewrite forallb_forall in Hall.
        assert (false = true) as Habs; [|done].
        apply (Hall false). apply list_elem_of_In. by eapply list_elem_of_lookup_2. }
      replace fa with (Fleet.Build (l1 ++ [s] ++ l2)) by (destruct fa; cbn in *; congruence).
      change (l1 ++ s' :: l2) with (l1 ++ [s'] ++ l2).
      rewrite !sunk_ships_app, !length_app.
      unfold sunk_ships at 2 5. cbn [Fleet.ships List.filter]. rewrite Hs0.
      destruct Hh as [[-> Hfb]|(-> & _ & Hfb)]; fold s' in Hfb; cbn [andb] in Hfb;
        rewrite Hfb; cbn; lia.
Qed.

(** ** The engine in play *)

Lemma ai_get_move_spec a p h a' :
  AI.get_move a p = Ok (h, a') ->
  exists fa fa',
    ai_fleet a = Some fa
    /\ Fleet.check_hit fa p true = Ok (h, fa')
    /\ ai_fleet a' = Some fa'.
Proof.
  destruct a as [[f l]|[f l]|[f]]; cbn;
    [unfold CopyCatAI.get_move|unfold CopyCatWithRandomMissilesAI.get_move
    |unfold OmniscientAI.get_move]; cbn;
    (destruct f as [fa|]; [|done]);
    (destruct (Fleet.check_hit fa p true) as [[h1 fa1]| |] eqn:E; cbn; try done);
    intros [= <- <-]; by exists fa, fa1.
Qed.

Lemma untranslate_translate m c : untranslate m (translate m c) = c.
Proof. destruct c. unfold untranslate, translate. cbn. f_equal. lia. Qed.

Lemma translate_untranslate m c : translate m (untranslate m c) = c.
Proof. destruct c. unfold untranslate, translate. cbn. f_equal. lia. Qed.

Lemma get_previous_guess_None m t :
  Manager.get_previous_guess_result m t = None <-> t ∉ guessed m.
Proof.
  unfold Manager.get_previous_guess_result, guessed.
  destruct (list_find _ _) as [[i [q g]]|] eqn:E.
  - apply list_find_Some in E as (Hi & Hq & _). cbn in Hq. subst q.
    split; [done|]. intros Hn. destruct Hn.
    apply list_elem_of_fmap. exists (t, g). split; [done|].
    by eapply list_elem_of_lookup_2.
  - split; [|done]. intros _ Hin. apply list_find_None in E.
    apply list_elem_of_fmap in Hin as ([q g] & -> & Hin).
    rewrite Forall_forall in E. by apply (E _ Hin).
Qed.

(** What [__fire_missile] does to the engine, whatever the state. *)
Lemma fire_missile_spec m t m' :
  Manager.fire_missile m t = Ok m' ->
  exists h p,
    LocalPlayer.send_move (Manager.player m) (translate m t) = Ok (h, p)
    /\ exists gs,
        m' = Manager.set_game_state
               (Manager.set_opponent_ships_left
                  (Manager.set_guesses (Manager.set_player m p) gs)
                  (Manager.opponent_ships_left m
                   - match Hit.hit_type h with SUNK => 1 | _ => 0 end))
               (Manager.game_state m')
        /\ (NoDup (guessed m ++ [t]) -> gs.*1 = guessed m ++ [t])
        /\ (Hit.hit_type h <> SUNK ->
            gs = Manager.guesses m ++ [(t, h)]
            /\ Manager.game_state m' = Manager.game_state m)
        /\ (Hit.hit_type h = SUNK ->
            Manager.game_state m'
            = if Manager.opponent_ships_left m - 1 =? 0 then PLAYER_WON
              else if Manager.player_ships_left m =? 0 then OPPONENT_WON
              else Manager.game_state m).
Proof.
  unfold Manager.fire_missile. fold (translate m t).
  destruct (LocalPlayer.send_move _ _) as [[h p]| |]; try done. cbn.
  intros H. exists h, p. split; [done|].
  destruct (Hit.hit_type h) eqn:Eh.
  1,2: injection H as <-; exists (Manager.guesses m ++ [(t, h)]);
    (split; [cbn; rewrite Z.sub_0_r; by destruct m|]);
    (split; [intros _; unfold guessed; by rewrite fmap_app|]);
    (split; [done|done]).
  injection H as <-.
  set (m1 := Manager.set_guesses (Manager.set_player m p) (Manager.guesses m ++ [(t, h)])).
  exists (Manager.guesses (Manager.reveal_sunk_ship m1 h)).
  assert (guessed m1 = guessed m ++ [t]) as Hg1.
  { unfold guessed. cbn. by rewrite fmap_app. }
  split; [|split; [|split; [done|]]].
  - destruct (reveal_sunk_ship_frame m1 h) as [gs Hgs].
    rewrite Hgs. unfold Manager.check_game_over. cbn.
    repeat match goal with |- context [if ?b then _ else _] => destruct b end;
      reflexivity.
  - intros Hnd. rewrite <- Hg1 in Hnd.
    rewrite reveal_sunk_ship_eq.
    destruct (reveal_fold_spec h (Hit.ship_positions h) m1 Hnd) as (Hg & _).
    unfold guessed in Hg. by rewrite Hg.
  - intros _. destruct (reveal_sunk_ship_frame m1 h) as [gs Hgs].
    rewrite Hgs. unfold Manager.check_game_over. cbn.
    repeat match goal with |- context [if ?b then _ else _] => destruct b end;
      reflexivity.
Qed.

Lemma fire_missile_playing m t m' :
  playing_invariant m ->
  Manager.player_ships_left m = 5 ->
  Manager.game_state m = PLAYING ->
  t ∉ guessed m ->
  pos_in_bounds t (Manager.opponent_bounds_y m) (Manager.opponent_bounds_x m) = true ->
  Manager.fire_missile m t = Ok m' ->
  playing_invariant m'
  /\ (Manager.game_state m' = PLAYING \/ Manager.game_state m' = PLAYER_WON)
  /\ (Manager.game_state m' = PLAYER_WON -> Manager.opponent_ships_left m' = 0)
  /\ guessed m' = guessed m ++ [t].
Proof.
  intros (Hc & Hok & Hnd & Hb & fa & Hfa & Hplay & Hlen & Hflags & Hopp & Hpos)
    Hpsl Hst Hnew Hin Hfire.
  assert (NoDup (guessed m ++ [t])) as Hnd'.
  { apply NoDup_app. split; [done|]. split; [|apply NoDup_singleton].
    intros x Hx ->%list_elem_of_singleton. done. }
  destruct (fire_missile_spec m t m' Hfire) as (h & p & Hsend & gs & Hm' & Hgs & Hns & Hs).
  specialize (Hgs Hnd').
  unfold LocalPlayer.send_move in Hsend.
  destruct (AI.get_move _ _) as [[h1 a']| |] eqn:Hget; try done.
  cbn in Hsend. injection Hsend as <- <-.
  apply ai_get_move_spec in Hget as (fa0 & fa' & Hfa0 & Hcheck & Hfa').
  rewrite Hfa in Hfa0. injection Hfa0 as <-.
  destruct (shot_keeps_flags (translate m) (untranslate m) (guessed m) fa t h1 fa'
              (translate_untranslate m) (untranslate_translate m)
              Hplay Hflags Hnew Hcheck) as (Hplay' & Hlen' & Hflags' & Hsunk).
  pose proof (sunk_ships_length_le fa') as Hle.
  assert (guessed m' = guessed m ++ [t]) as Hg'.
  { rewrite Hm'. exact Hgs. }
  assert (Manager.opponent_ships_left m'
          = 5 - Z.of_nat (length (sunk_ships fa'))) as Hopp'.
  { rewrite Hm'. cbn. rewrite Hopp, Hsunk. destruct (Hit.hit_type h1); lia. }
  assert (Manager.game_state m' = PLAYING /\ 0 < Manager.opponent_ships_left m'
          \/ Manager.game_state m' = PLAYER_WON /\ Manager.opponent_ships_left m' = 0)
    as Hstate.
  { destruct (Hit.hit_type h1) eqn:Eh.
    1,2: left; destruct Hns as [_ ->]; [done|]; split; [done|];
      rewrite Hm'; cbn; rewrite Z.sub_0_r; by apply Hpos.
    rewrite (Hs eq_refl), Hpsl.
    rewrite Hm' in Hopp'. cbn in Hopp'.
    destruct (Z.eqb_spec (Manager.opponent_ships_left m - 1) 0) as [E|E].
    - right. split; [done|]. rewrite Hm'. cbn. done.
    - left. cbn. split; [done|]. rewrite Hm'. cbn. lia. }
  split; [|split; [tauto|split; [|done]]].
  - rewrite Hm' at 1. unfold playing_invariant.
    split; [exact Hc|]. split; [exact Hok|].
    change (guessed (Manager.set_game_state _ _)) with (gs.*1). rewrite Hgs.
    split; [done|]. split.
    { apply Forall_app. split; [exact Hb|]. by constructor. }
    exists fa'. split; [exact Hfa'|]. split; [done|]. split; [congruence|].
    split; [exact Hflags'|].
    rewrite Hm' in Hopp'. split; [exact Hopp'|].
    cbn. intros Hpl. destruct Hstate as [[_ H]|[H _]]; [|congruence].
    rewrite Hm' in H. exact H.
  - intros Hw. destruct Hstate as [[H _]|[_ H]]; [congruence|done].
Qed.

Lemma take_turn_loop_playing ks : forall m target old m' ks',
  playing_invariant m ->
  Manager.player_ships_left m = 5 ->
  Manager.game_state m = PLAYING ->
  pos_in_bounds old (Manager.opponent_bounds_y m) (Manager.opponent_bounds_x m) = true ->
  Manager.take_turn_loop ks m target old = Ok (m', ks') ->
  playing_invariant m'
  /\ (Manager.game_state m' = PLAYING \/ Manager.game_state m' = PLAYER_WON)
  /\ LocalPlayer.players_turn (Manager.player m') = false
  /\ exists t, guessed m' = guessed m ++ [t].
Proof.
  induction ks as [|key ks IH]; intros m target old m' ks' Hinv Hpsl Hst Hold;
    cbn [Manager.take_turn_loop]; [done|].
  set (tgt := if negb (pos_in_bounds target _ _) then old else target).
  assert (pos_in_bounds tgt (Manager.opponent_bounds_y m)
            (Manager.opponent_bounds_x m) = true) as Htgt.
  { unfold tgt. by destruct (pos_in_bounds target _ _) eqn:E. }
  destruct (key =? ord_space).
  { destruct (Manager.get_previous_guess_result m tgt) eqn:Eg.
    - by apply IH.
    - apply get_previous_guess_None in Eg.
      destruct (Manager.fire_missile m tgt) as [m1| |] eqn:Ef; try done. cbn.
      intros [= <- <-].
      destruct (fire_missile_playing m tgt m1 Hinv Hpsl Hst Eg Htgt Ef)
        as (H1 & H2 & _ & H4).
      split; [exact H1|]. split; [exact H2|]. split; [done|]. by exists tgt. }
  repeat match goal with |- context [if ?b then _ else _] => destruct b end;
    by apply IH.
Qed.

Lemma ai_send_move_fleet a ds mv a' ds' :
  AI.send_move a ds = Ok (mv, a', ds') -> ai_fleet a' = ai_fleet a.
Proof.
  destruct a as [ai|ai|ai]; cbn; try by intros [= <- <- <-].
  destruct ds as [|idx ds]; [done|].
  unfold CopyCatWithRandomMissilesAI.send_move.
  destruct (CopyCatWithRandomMissilesAI.possible_moves ai) as [|q qs] eqn:E; [done|].
  rewrite <- E. destruct (_ !! idx); cbn; [|done]. by intros [= <- <- <-].
Qed.

Lemma opponents_turn_playing m inp m' inp' :
  playing_invariant m ->
  Manager.player_ships_left m = 5 ->
  Manager.game_state m = PLAYING ->
  Manager.opponents_turn m inp = Ok (m', inp') ->
  playing_invariant m'
  /\ Manager.game_state m' = PLAYING
  /\ LocalPlayer.players_turn (Manager.player m') = true
  /\ Manager.guesses m' = Manager.guesses m
  /\ Manager.opponent_ships_left m' = Manager.opponent_ships_left m.
Proof.
  intros (Hc & Hok & Hnd & Hb & fa & Hfa & Hplay & Hlen & Hflags & Hopp & Hpos)
    Hpsl Hst.
  unfold Manager.opponents_turn, Manager.listen_for_move.
  destruct (AI.send_move _ _) as [[[mv a] ds]| |] eqn:Hsend; try done. cbn.
  apply ai_send_move_fleet in Hsend.
  destruct mv as [mv|]; [|done].
  destruct (fleet_check_hit_total (Manager.fleet m) mv true Hok)
    as (h & f' & Hcheck & Hok' & _).
  cbn. rewrite Hcheck. cbn.
  assert (playing_invariant
            (Manager.set_player
               (Manager.set_fleet
                  (Manager.set_player m (LocalPlayer.set_ai (Manager.player m) a)) f')
               (LocalPlayer.set_players_turn
                  (LocalPlayer.set_ai (Manager.player m) a) true))) as Hinv.
  { split; [exact Hc|]. split; [exact Hok'|]. split; [exact Hnd|]. split; [exact Hb|].
    exists fa. cbn. rewrite Hsend. done. }
  specialize (Hpos Hst).
  assert (forall x, Manager.opponent_ships_left x = Manager.opponent_ships_left m ->
            Manager.player_ships_left x = 5 ->
            Manager.check_game_over x = x) as Hcgo.
  { intros x Hx1 Hx2. unfold Manager.check_game_over. rewrite Hx1, Hx2.
    destruct (Z.eqb_spec (Manager.opponent_ships_left m) 0); [lia|done]. }
  destruct (Hit.hit_type h); intros [= <- <-]; try rewrite Hcgo by done; done.
Qed.

Lemma ready_playing scrheight scrwidth ai_type f :
  let m := Manager.set_game_state
             (Manager.set_fleet (Manager.start scrheight scrwidth ai_type) f) READY in
  Ship.ship_type <$> Fleet.ships f = ShipType.members ->
  legal_fleet (Manager.player_bounds_y m) (Manager.player_bounds_x m) f ->
  playing_invariant (Manager.ready m)
  /\ ai_fleet (LocalPlayer.ai (Manager.player (Manager.ready m))) = Some f.
Proof.
  intros m Hty Hl.
  assert (ai_fleet (LocalPlayer.ai (Manager.player (Manager.ready m))) = Some f) as Hai.
  { by destruct ai_type. }
  split; [|exact Hai].
  destruct (legal_fleet_ok _ _ _ Hl) as [Hu Hok]. destruct Hl as [Hafl Hdisj].
  split.
  { apply pos_in_bounds_spec. cbn. lia. }
  split; [exact Hok|]. split; [constructor|]. split; [constructor|].
  exists f. split; [exact Hai|].
  assert (sunk_ships f = []) as Hsunk.
  { unfold sunk_ships. clear -Hafl. induction Hafl as [|s l Hs _ IH]; cbn; [done|].
    rewrite IH. destruct (afloat_size _ _ _ Hs) as [n Hn].
    destruct Hs as ([_ _ Hlen] & _ & _ & Hh & _).
    destruct (Ship.hits s) as [|b hs]; [cbn in Hlen; lia|].
    apply Forall_cons in Hh as [-> _]. done. }
  split; [split; [|exact Hdisj]|].
  { eapply Forall_impl; [exact Hafl|]. intros s Hs.
    destruct (afloat_size _ _ _ Hs) as [n Hn].
    destruct Hs as ([Hlen Hp Hhl] & _).
    split; [rewrite Hp; apply generate_positions_NoDup|]. split; [congruence|].
    intros E. rewrite E in Hlen. cbn in Hlen. lia. }
  split. { rewrite <- (length_fmap Ship.ship_type), Hty. done. }
  split.
  { intros s i cell Hs Hcell. cbn. split; [|by intros ?%elem_of_nil].
    intros Hi. unfold undamaged in Hu. rewrite Forall_forall in Hu.
    specialize (Hu s Hs). rewrite Forall_forall in Hu.
    assert (true = false); [|done]. apply Hu. by eapply list_elem_of_lookup_2. }
  rewrite Hsunk. cbn. split; [done|]. intros _. lia.
Qed.

Lemma loop_body_game_invariant m inp m' inp' :
  counters_invariant m -> game_invariant m ->
  Manager.loop_body m inp = Ok (m', inp') ->
  game_invariant m'.
Proof.
  intros Hcnt Hinv Hstep.
  pose proof (loop_body_invariant _ _ _ _ Hcnt Hstep) as (Hpsl' & Hnow & _).
  destruct Hcnt as (Hpsl & _ & _).
  unfold game_invariant in Hinv. unfold Manager.loop_body in Hstep.
  destruct (Manager.game_state m) eqn:Hst.
  - destruct Hinv as (h & w & ai & ->).
    pose proof (place_ships_outcome h w (LocalPlayer.init ai) inp) as Ho.
    cbv zeta in Ho. change (Manager.initialize h w (LocalPlayer.init ai))
      with (Manager.start h w ai) in Ho.
    rewrite Hstep in Ho. destruct Ho as (f & -> & Hty & Hl & _).
    unfold game_invariant. cbn. by exists h, w, ai, f.
  - destruct Hinv as (h & w & ai & f & -> & Hty & Hl).
    injection Hstep as <- <-.
    destruct (ready_playing h w ai f Hty Hl) as [Hp _].
    unfold game_invariant. exact Hp.
  - destruct (LocalPlayer.players_turn _).
    + unfold Manager.take_turn in Hstep.
      destruct (Manager.take_turn_loop _ _ _ _) as [[m1 ks]| |] eqn:E; try done.
      cbn in Hstep. injection Hstep as <- <-.
      apply take_turn_loop_playing in E as (H1 & [H2|H2] & _); try done;
        [unfold game_invariant; by rewrite H2..|apply Hinv].
    + apply opponents_turn_playing in Hstep as (H1 & H2 & _); try done.
      unfold game_invariant. by rewrite H2.
  - unfold Manager.game_over in Hstep. destruct (keys inp); [done|].
    injection Hstep as <- <-. unfold game_invariant. by rewrite Hst.
  - done.
Qed.

Lemma loop_game_invariant n : forall m inp m' inp',
  counters_invariant m -> game_invariant m ->
  Manager.loop n m inp = Ok (m', inp') -> game_invariant m'.
Proof.
  induction n as [|n IH]; intros m inp m' inp' Hc Hg; cbn.
  - by intros [= <- <-].
  - destruct (Manager.loop_body m inp) as [[m1 inp1]| |] eqn:E; try done. cbn.
    apply IH; [by eapply loop_body_invariant|by eapply loop_body_game_invariant].
Qed.

Lemma reachable_game_invariant m : reachable m -> game_invariant m.
Proof.
  intros (h & w & ai & n & inp & inp' & H).
  eapply loop_game_invariant; [| |exact H].
  - unfold counters_invariant. cbn. split; [done|]. split; done.
  - unfold game_invariant. cbn. by exists h, w, ai.
Qed.

Lemma filter_all {A} (f : A -> bool) (l : list A) :
  length (List.filter f l) = length l -> Forall (fun x => f x = true) l.
Proof.
  induction l as [|a l IH]; cbn; [constructor|].
  pose proof (List.filter_length_le f l) as Hle.
  destruct (f a) eqn:E; cbn; [|lia]. intros [= H]. constructor; auto.
Qed.

Lemma all_filter {A} (f : A -> bool) (l : list A) :
  Forall (fun x => f x = true) l -> List.filter f l = l.
Proof.
  induction 1 as [|a l Ha _ IH]; cbn; [done|]. by rewrite Ha, IH.
Qed.

(** X14: in every reachable game that is being played or that the player has
    won, the strategy holds a fleet of five ships, [opponent_ships_left] is
    five minus the number of its ships all of whose flags are set, and the
    player has won exactly when all five are in that state. *)
Theorem player_wins_exactly_when_the_fleet_is_sunk (m : Manager.t) :
  reachable m ->
  Manager.game_state m = PLAYING \/ Manager.game_state m = PLAYER_WON ->
  exists fa,
    ai_fleet (LocalPlayer.ai (Manager.player m)) = Some fa
    /\ length (Fleet.ships fa) = 5%nat
    /\ Manager.opponent_ships_left m = 5 - Z.of_nat (length (sunk_ships fa))
    /\ (Manager.game_state m = PLAYER_WON
        <-> Forall (fun s => forallb id (Ship.hits s) = true) (Fleet.ships fa)).
Proof.
  intros Hr Hst. pose proof (reachable_game_invariant m Hr) as Hg.
  pose proof (reachable_counters m Hr) as (_ & _ & Hwon).
  unfold game_invariant in Hg.
  assert (playing_invariant m) as Hp by (by destruct Hst as [E|E]; rewrite E in Hg).
  destruct Hp as (_ & _ & _ & _ & fa & Hfa & _ & Hlen & _ & Hopp & Hpos).
  exists fa. split; [done|]. split; [done|]. split; [done|]. split.
  - intros Hw. apply filter_all. specialize (Hwon Hw).
    fold (sunk_ships fa). lia.
  - intros Hall. destruct Hst as [Hpl|?]; [|done].
    specialize (Hpos Hpl). apply all_filter in Hall.
    unfold sunk_ships in Hopp. rewrite Hall in Hopp. lia.
Qed.

(** X15: in every reachable game the guess log holds no target twice, and
    every target of it lies strictly inside the opponent's board. *)
Theorem guess_log_has_no_repeats (m : Manager.t) :
  reachable m ->
  NoDup (guessed m)
  /\ Forall (fun t => pos_in_bounds t (Manager.opponent_bounds_y m)
                        (Manager.opponent_bounds_x m) = true) (guessed m).
Proof.
  intros Hr. pose proof (reachable_game_invariant m Hr) as Hg.
  unfold game_invariant in Hg. destruct (Manager.game_state m).
  - destruct Hg as (h & w & ai & ->). split; constructor.
  - destruct Hg as (h & w & ai & f & -> & _). split; constructor.
  - by destruct Hg as (_ & _ & ? & ? & _).
  - by destruct Hg as (_ & _ & ? & ? & _).
  - done.
Qed.

(** X16: in every reachable game that is being played or won, a damage flag
    of the strategy's fleet is set exactly when the player has fired at
    the counterpart of its cell; the ships of that fleet have distinct
    cells, one flag per cell, and share no cell. *)
Theorem flags_of_the_strategy_follow_the_guesses (m : Manager.t) :
  reachable m ->
  Manager.game_state m = PLAYING \/ Manager.game_state m = PLAYER_WON ->
  exists fa,
    ai_fleet (LocalPlayer.ai (Manager.player m)) = Some fa
    /\ fleet_in_play fa
    /\ forall s i cell,
        s ∈ Fleet.ships fa -> Ship.positions s !! i = Some cell ->
        (Ship.hits s !! i = Some true <-> untranslate m cell ∈ guessed m).
Proof.
  intros Hr Hst. pose proof (reachable_game_invariant m Hr) as Hg.
  unfold game_invariant in Hg.
  assert (playing_invariant m) as Hp by (by destruct Hst as [E|E]; rewrite E in Hg).
  destruct Hp as (_ & _ & _ & _ & fa & Hfa & Hplay & _ & Hflags & _).
  by exists fa.
Qed.

Lemma take_turn_loop_turn ks : forall m target old m' ks',
  Manager.take_turn_loop ks m target old = Ok (m', ks') ->
  LocalPlayer.players_turn (Manager.player m') = false
  /\ exists used, ks = used ++ ks'.
Proof.
  induction ks as [|key ks IH]; intros m target old m' ks';
    cbn [Manager.take_turn_loop]; [done|].
  assert (forall tg od, Manager.take_turn_loop ks m tg od = Ok (m', ks') ->
            LocalPlayer.players_turn (Manager.player m') = false
            /\ exists used, key :: ks = used ++ ks') as IH'.
  { intros tg od H. apply IH in H as [H1 [used ->]]. split; [done|].
    by exists (key :: used). }
  repeat match goal with
         | |- context [if ?b then _ else _] => destruct b
         | |- context [match ?o with Some _ => _ | None => _ end] => destruct o
         end; eauto.
  all: destruct (Manager.fire_missile _ _) as [m1| |]; try done; cbn;
       intros [= <- <-]; split; [done|]; by exists [key].
Qed.

(** X17: one iteration of [__loop] takes SETUP to READY and READY to PLAYING
    (consuming no input); while PLAYING it hands the turn to the other
    side; in PLAYER_WON and OPPONENT_WON it consumes one key and changes
    nothing. *)
Theorem loop_body_transitions (m m' : Manager.t) (inp inp' : Input) :
  Manager.loop_body m inp = Ok (m', inp') ->
  match Manager.game_state m with
  | SETUP => Manager.game_state m' = READY
  | READY => m' = Manager.ready m /\ Manager.game_state m' = PLAYING /\ inp' = inp
  | PLAYING =>
      LocalPlayer.players_turn (Manager.player m')
      = negb (LocalPlayer.players_turn (Manager.player m))
  | PLAYER_WON | OPPONENT_WON =>
      m' = m /\ exists key, keys inp = key :: keys inp'
  end.
Proof.
  unfold Manager.loop_body. destruct (Manager.game_state m) eqn:Hst.
  - unfold Manager.place_ships.
    destruct (Manager.place_all _ _ _) as [[m1 ks]| |]; try done. cbn.
    by intros [= <- <-].
  - by intros [= <- <-].
  - destruct (LocalPlayer.players_turn _) eqn:Ht.
    + unfold Manager.take_turn.
      destruct (Manager.take_turn_loop _ _ _ _) as [[m1 ks]| |] eqn:E; try done. cbn.
      intros [= <- <-]. by apply take_turn_loop_turn in E as [-> _].
    + unfold Manager.opponents_turn.
      destruct (Manager.listen_for_move _ _) as [[[h m1] i1]| |]; try done. cbn.
      unfold Manager.check_game_over.
      destruct (Hit.hit_type h); intros [= <- <-]; try done.
      repeat match goal with |- context [if ?b then _ else _] => destruct b end; done.
  - unfold Manager.game_over. destruct (keys inp) as [|k ks]; [done|].
    intros [= <- <-]. split; [done|]. by exists k.
  - unfold Manager.game_over. destruct (keys inp) as [|k ks]; [done|].
    intros [= <- <-]. split; [done|]. by exists k.
Qed.

(** X18: [__fire_missile] at a target not fired at before resolves the shot
    against the strategy at the translated position, appends the target to
    the guess log, leaves the player's own fleet and counter alone, takes
    one off [opponent_ships_left] exactly when the answer is Sunk, keeps
    the state when it is not, and makes the player win when the counter
    gets to zero. *)
Theorem fire_missile_effect (m m' : Manager.t) (t : Pos) :
  t ∉ guessed m ->
  NoDup (guessed m) ->
  Manager.fire_missile m t = Ok m' ->
  exists h p,
    LocalPlayer.send_move (Manager.player m) (translate m t) = Ok (h, p)
    /\ Manager.player m' = p
    /\ Manager.fleet m' = Manager.fleet m
    /\ Manager.player_ships_left m' = Manager.player_ships_left m
    /\ guessed m' = guessed m ++ [t]
    /\ Manager.opponent_ships_left m'
       = Manager.opponent_ships_left m
         - match Hit.hit_type h with SUNK => 1 | _ => 0 end
    /\ (Hit.hit_type h <> SUNK -> Manager.game_state m' = Manager.game_state m)
    /\ (Hit.hit_type h = SUNK -> Manager.opponent_ships_left m' = 0 ->
        Manager.game_state m' = PLAYER_WON).
Proof.
  intros Hnew Hnd Hfire.
  assert (NoDup (guessed m ++ [t])) as Hnd'.
  { apply NoDup_app. split; [done|]. split; [|apply NoDup_singleton].
    intros x Hx ->%list_elem_of_singleton. done. }
  destruct (fire_missile_spec m t m' Hfire) as (h & p & Hsend & gs & Hm' & Hgs & Hns & Hs).
  exists h, p. split; [done|].
  split; [by rewrite Hm'|]. split; [by rewrite Hm'|]. split; [by rewrite Hm'|].
  split; [rewrite Hm'; by apply Hgs|]. split; [by rewrite Hm'|].
  split; [intros Hne; by apply Hns|].
  intros Hsunk Hz. rewrite (Hs Hsunk). rewrite Hm', Hsunk in Hz. cbn in Hz.
  by rewrite Hz.
Qed.

(** X19: [__opponents_turn] resolves the strategy's move against the player's
    fleet and hands the turn to the player; the guess log, both counters,
    the strategy's own fleet and the keys are left as they were. *)
Theorem opponents_turn_effect (m m' : Manager.t) (inp inp' : Input) :
  Manager.opponents_turn m inp = Ok (m', inp') ->
  LocalPlayer.players_turn (Manager.player m') = true
  /\ Manager.guesses m' = Manager.guesses m
  /\ Manager.opponent_ships_left m' = Manager.opponent_ships_left m
  /\ Manager.player_ships_left m' = Manager.player_ships_left m
  /\ ai_fleet (LocalPlayer.ai (Manager.player m'))
     = ai_fleet (LocalPlayer.ai (Manager.player m))
  /\ keys inp' = keys inp
  /\ exists ai_move h a ds,
      AI.send_move (LocalPlayer.ai (Manager.player m)) (draws inp)
      = Ok (Some ai_move, a, ds)
      /\ Fleet.check_hit (Manager.fleet m) ai_move true = Ok (h, Manager.fleet m')
      /\ draws inp' = ds.
Proof.
  unfold Manager.opponents_turn, Manager.listen_for_move.
  destruct (AI.send_move _ _) as [[[mv a] ds]| |] eqn:Hsend; try done. cbn.
  pose proof (ai_send_move_fleet _ _ _ _ _ Hsend) as Hfl.
  destruct mv as [mv|]; [|done].
  destruct (Fleet.check_hit _ _ _) as [[h f]| |] eqn:Hc; try done. cbn.
  unfold Manager.check_game_over.
  destruct (Hit.hit_type h); intros [= <- <-];
    repeat match goal with |- context [if ?b then _ else _] => destruct b end;
    cbn; (repeat (split; [done|])); by exists mv, h, a, ds.
Qed.

(** ** The strategies, further *)

Lemma zip_replicate_length i n ys :
  length (CopyCatWithRandomMissilesAI.zip (replicate n i) ys) = (n `min` length ys)%nat.
Proof.
  revert ys. induction n as [|n IH]; intros [|y ys]; cbn; try done.
  by rewrite IH.
Qed.

Lemma concat_const_length {A B} (f : A -> list B) (l : list A) k :
  (forall x, length (f x) = k) -> length (concat (map f l)) = (length l * k)%nat.
Proof.
  intros Hf. induction l as [|a l IH]; cbn; [done|].
  by rewrite length_app, Hf, IH.
Qed.

(** X20: with the left bound at -1 or more, [initialize] of the random
    strategy computes every cell strictly inside the bounds, each once:
    (height - 1) x (width - 1) cells; its fleet is untouched. *)
Theorem random_strategy_knows_the_whole_board
    (ai : CopyCatWithRandomMissilesAI.t) (by_ bx : Bounds) :
  -1 <= bx.1 ->
  let legal := CopyCatWithRandomMissilesAI.possible_moves
                 (CopyCatWithRandomMissilesAI.initialize ai by_ bx) in
  NoDup legal
  /\ (forall p, p ∈ legal <-> pos_in_bounds p by_ bx = true)
  /\ length legal
     = (Z.to_nat (by_.2 - by_.1 - 1) * Z.to_nat (bx.2 - bx.1 - 1))%nat
  /\ CopyCatWithRandomMissilesAI.fleet
       (CopyCatWithRandomMissilesAI.initialize ai by_ bx)
     = CopyCatWithRandomMissilesAI.fleet ai.
Proof.
  intros Hbx legal. split; [apply initialize_NoDup|].
  split; [intros p; by apply possible_moves_are_the_interior|]. split; [|done].
  unfold legal. cbn.
  rewrite (concat_const_length _ _ (Z.to_nat (bx.2 - bx.1 - 1))).
  - unfold CopyCatWithRandomMissilesAI.range. rewrite length_seqZ. f_equal. lia.
  - intros i. unfold CopyCatWithRandomMissilesAI.repeat_list,
      CopyCatWithRandomMissilesAI.range.
    rewrite zip_replicate_length, length_seqZ. lia.
Qed.

Lemma send_moves_app idxs1 idxs2 ai :
  send_moves ai (idxs1 ++ idxs2) =
  '(out1, ai1) ← send_moves ai idxs1;
  '(out2, ai2) ← send_moves ai1 idxs2;
  Ok (out1 ++ out2, ai2).
Proof.
  revert ai. induction idxs1 as [|i idxs1 IH]; intros ai; cbn.
  - by destruct (send_moves ai idxs2) as [[??]| |].
  - destruct (CopyCatWithRandomMissilesAI.send_move ai i) as [[mv ai1]| |]; try done.
    cbn. rewrite IH.
    destruct (send_moves ai1 idxs1) as [[out1 ai2]| |]; try done. cbn.
    by destruct (send_moves ai2 idxs2) as [[??]| |].
Qed.

(** X21: once the random strategy has returned as many moves as it had
    precomputed, the next [send_move] raises ValueError, whatever
    [randint] would draw. *)
Theorem random_strategy_runs_dry
    (ai0 : CopyCatWithRandomMissilesAI.t) (by_ bx : Bounds) (idxs : list nat)
    (move_idx : nat) :
  let ai := CopyCatWithRandomMissilesAI.initialize ai0 by_ bx in
  valid_draws (length (CopyCatWithRandomMissilesAI.possible_moves ai)) idxs ->
  length idxs = length (CopyCatWithRandomMissilesAI.possible_moves ai) ->
  send_moves ai (idxs ++ [move_idx]) = Raise ValueError.
Proof.
  intros ai Hv Hlen. rewrite send_moves_app.
  destruct (send_moves_spec idxs ai Hv) as (out & ai' & -> & Hperm & Hout & _). cbn.
  assert (CopyCatWithRandomMissilesAI.possible_moves ai' = []) as Hnil.
  { apply Permutation_length in Hperm. rewrite length_app in Hperm.
    apply nil_length_inv. lia. }
  unfold CopyCatWithRandomMissilesAI.send_move. by rewrite Hnil.
Qed.

Lemma take_turn_loop_fires ks : forall m target old m' ks',
  Manager.take_turn_loop ks m target old = Ok (m', ks') ->
  exists t m1,
    Manager.fire_missile m t = Ok m1
    /\ Manager.get_previous_guess_result m t = None
    /\ m' = Manager.set_player m1
              (LocalPlayer.set_players_turn (Manager.player m1) false).
Proof.
  induction ks as [|key ks IH]; intros m target old m' ks';
    cbn [Manager.take_turn_loop]; [done|].
  set (tgt := if negb (pos_in_bounds target _ _) then old else target).
  destruct (key =? ord_space).
  { destruct (Manager.get_previous_guess_result m tgt) eqn:Eg; [by apply IH|].
    destruct (Manager.fire_missile m tgt) as [m1| |] eqn:Ef; try done. cbn.
    intros [= <- <-]. by exists tgt, m1. }
  repeat match goal with |- context [if ?b then _ else _] => destruct b end;
    by apply IH.
Qed.

(** The omniscient strategy is there from the start to the end, and the
    game against it has seen one shot at most. *)
Lemma loop_body_omniscient m inp m' inp' :
  (exists a, LocalPlayer.ai (Manager.player m) = AI.OfOmniscient a) ->
  (LocalPlayer.players_turn (Manager.player m) = true -> Manager.guesses m = []) ->
  (length (Manager.guesses m) <= 1)%nat ->
  Manager.loop_body m inp = Ok (m', inp') ->
  (exists a, LocalPlayer.ai (Manager.player m') = AI.OfOmniscient a)
  /\ (LocalPlayer.players_turn (Manager.player m') = true -> Manager.guesses m' = [])
  /\ (length (Manager.guesses m') <= 1)%nat.
Proof.
  intros [a Ha] Hturn Hlen. unfold Manager.loop_body.
  destruct (Manager.game_state m).
  - unfold Manager.place_ships.
    destruct (Manager.place_all _ _ _) as [[m1 ks]| |] eqn:E; try done. cbn.
    apply place_all_frame in E as [f ->]. intros [= <- <-]. cbn. eauto.
  - intros [= <- <-]. cbn. rewrite Ha. cbn. eauto.
  - destruct (LocalPlayer.players_turn _) eqn:Ht.
    + unfold Manager.take_turn.
      destruct (Manager.take_turn_loop _ _ _ _) as [[m1 ks]| |] eqn:E; try done. cbn.
      intros [= <- <-]. specialize (Hturn eq_refl).
      apply take_turn_loop_fires in E as (t & m2 & Ef & _ & ->).
      destruct (fire_missile_spec _ _ _ Ef) as (h & p & Hsend & gs & Hm2 & Hgs & _).
      unfold guessed in Hgs. rewrite Hturn in Hgs. cbn in Hgs.
      specialize (Hgs (NoDup_singleton _)).
      unfold LocalPlayer.send_move in Hsend. rewrite Ha in Hsend. cbn in Hsend.
      destruct (OmniscientAI.get_move a _) as [[h1 a1]| |]; try done.
      cbn in Hsend. injection Hsend as <- <-.
      rewrite Hm2. cbn. split; [eauto|]. split; [done|].
      apply (f_equal length) in Hgs. rewrite length_fmap in Hgs. cbn in Hgs. lia.
    + unfold Manager.opponents_turn, Manager.listen_for_move. by rewrite Ha.
  - unfold Manager.game_over. destruct (keys inp); [done|]. intros [= <- <-]. eauto.
  - unfold Manager.game_over. destruct (keys inp); [done|]. intros [= <- <-]. eauto.
Qed.

(** X22: a game against the omniscient strategy never sees more than one
    shot: its [send_move] returns [None], so the opponent's turn raises
    TypeError. *)
Theorem omniscient_game_stops_after_one_shot
    (scrheight scrwidth : Z) (n : nat) (inp inp' : Input) (m : Manager.t) :
  Manager.loop n (Manager.start scrheight scrwidth AIType.Omniscient) inp
  = Ok (m, inp') ->
  (length (Manager.guesses m) <= 1)%nat
  /\ (Manager.game_state m = PLAYING ->
      LocalPlayer.players_turn (Manager.player m) = false ->
      forall inp2, Manager.loop_body m inp2 = Raise TypeError).
Proof.
  assert (forall n m0 inp0,
            (exists a, LocalPlayer.ai (Manager.player m0) = AI.OfOmniscient a) ->
            (LocalPlayer.players_turn (Manager.player m0) = true ->
             Manager.guesses m0 = []) ->
            (length (Manager.guesses m0) <= 1)%nat ->
            Manager.loop n m0 inp0 = Ok (m, inp') ->
            (exists a, LocalPlayer.ai (Manager.player m) = AI.OfOmniscient a)
            /\ (length (Manager.guesses m) <= 1)%nat) as Hloop.
  { clear. induction n as [|n IH]; intros m0 inp0 H1 H2 H3; cbn.
    - by intros [= <- <-].
    - destruct (Manager.loop_body m0 inp0) as [[m1 inp1]| |] eqn:E; try done. cbn.
      destruct (loop_body_omniscient _ _ _ _ H1 H2 H3 E) as (? & ? & ?).
      by apply IH. }
  intros H. apply Hloop in H as [[a Ha] Hlen]; cbn; eauto.
  split; [done|]. intros Hst Ht inp2.
  unfold Manager.loop_body, Manager.opponents_turn, Manager.listen_for_move.
  by rewrite Hst, Ht, Ha.
Qed.

(** ** Text on the screen *)

Lemma round_half_cases n :
  (Z.even n = true /\ n = 2 * round_half n)
  \/ (Z.even n = false /\ Z.even (round_half n) = true
      /\ (n = 2 * round_half n + 1 \/ n = 2 * round_half n - 1)).
Proof.
  unfold round_half. pose proof (Z.div_mod n 2 ltac:(lia)) as Hdm.
  pose proof (Z.mod_pos_bound n 2 ltac:(lia)) as Hb.
  destruct (Z.even n) eqn:En.
  - left. split; [done|]. apply Z.even_spec in En as [k ->].
    rewrite Z.mul_comm, Z.div_mul by lia. lia.
  - right. split; [done|].
    assert (n mod 2 = 1) as Hm.
    { destruct (Z.eq_dec (n mod 2) 0) as [E0|]; [|lia].
      assert (Z.even n = true); [|congruence].
      apply Z.even_spec. exists (n / 2). lia. }
    destruct (Z.even (n / 2)) eqn:Ek.
    + split; [done|]. left. lia.
    + split; [|right; lia]. rewrite Z.even_add, Ek. done.
Qed.

Lemma spaces_length n : String.length (spaces n) = Z.to_nat n.
Proof.
  unfold spaces. generalize (Z.to_nat n). intros k.
  induction k as [|k IH]; cbn; [done|]. by rewrite IH.
Qed.

(** X23: [TextAlignment.align] with CENTER starts the text so that [x] is
    within it, as many columns to the left of [x] as to the right up to
    one (an odd length puts an even number of columns to the left); with
    LEFT the text starts at [x]. *)
Theorem align_centres_the_text (x : Z) (text : string) :
  let len := Z.of_nat (String.length text) in
  let start := TextAlignment.align x text TextAlignment.CENTER in
  start <= x <= start + len
  /\ -1 <= len - 2 * (x - start) <= 1
  /\ (Z.even len = false -> Z.even (x - start) = true)
  /\ TextAlignment.align x text TextAlignment.LEFT = x.
Proof.
  intros len start. unfold start. cbn. fold len.
  destruct (round_half_cases len) as [[He H]|(He & Hk & H)].
  - split; [lia|]. split; [lia|]. split; [congruence|done].
  - split; [lia|]. split; [lia|]. split; [|done]. intros _.
    replace (x - (x - round_half len)) with (round_half len) by lia. done.
Qed.

(** X24: the blank line of [Information.__clear_status] ([scrwidth - 1]
    spaces centred on the window) starts at column 0 or 1 and ends within
    the width of the screen. *)
Theorem status_blank_fits_the_screen
    (scrheight scrwidth : Z) (player : LocalPlayer.t) :
  1 <= scrwidth ->
  let m := Manager.initialize scrheight scrwidth player in
  let blank := spaces (Manager.scrwidth m - 1) in
  Z.of_nat (String.length blank) = scrwidth - 1
  /\ 0 <= clear_status_column m <= 1
  /\ clear_status_column m + Z.of_nat (String.length blank) <= scrwidth.
Proof.
  intros Hw m blank. unfold clear_status_column, blank. cbn.
  rewrite spaces_length, Z2Nat.id by lia.
  split; [done|].
  destruct (round_half_cases scrwidth) as [[He H]|(He & Hk & H)];
    destruct (round_half_cases (scrwidth - 1)) as [[He' H']|(He' & Hk' & H')].
  - rewrite Z.even_sub, He in He'. done.
  - lia.
  - lia.
  - rewrite Z.even_sub, He in He'. done.
Qed.

(** ** The further properties at concrete inputs *)

Lemma in_bounds_covers_every_cell_witness :
  placed destroyer_5_5
  /\ Ship.in_bounds destroyer_5_5 = Ok true
  /\ Forall (fun p => pos_in_bounds p (0, 20) (0, 20) = true) [(5, 5); (5, 6); (5, 7)].
Proof.
  split; [reflexivity|]. split; [reflexivity|].
  exact (in_bounds_covers_every_cell destroyer_5_5 eq_refl eq_refl).
Defined.

Lemma move_shifts_every_cell_witness :
  placed destroyer_5_5
  /\ try_placement destroyer_5_5 (moved_start destroyer_5_5 DOWN) RIGHT = Ok true
  /\ exists s',
      Ship.move destroyer_5_5 DOWN = Ok s'
      /\ Ship.start_pos s' = (6, 5)
      /\ Ship.positions s' = [(6, 5); (6, 6); (6, 7)]
      /\ placed s'
      /\ Ship.in_bounds s' = Ok true.
Proof.
  split; [reflexivity|]. split; [reflexivity|].
  exact (move_shifts_every_cell destroyer_5_5 DOWN eq_refl eq_refl).
Defined.

Lemma move_there_and_back_witness :
  placed destroyer_5_5
  /\ Ship.in_bounds destroyer_5_5 = Ok true
  /\ try_placement destroyer_5_5 (moved_start destroyer_5_5 DOWN) RIGHT = Ok true
  /\ (s' ← Ship.move destroyer_5_5 DOWN; Ship.move s' UP) = Ok destroyer_5_5.
Proof.
  split; [reflexivity|]. split; [reflexivity|]. split; [reflexivity|].
  exact (move_there_and_back destroyer_5_5 DOWN eq_refl eq_refl eq_refl).
Defined.

Lemma rotate_takes_the_first_orientation_that_fits_witness :
  Ship.rotate 4 (turned edge_boat DOWN) = Ok (turned edge_boat UP)
  /\ next_valid (fits (turned edge_boat DOWN)) DOWN = Some UP
  /\ turned edge_boat UP = turned (turned edge_boat DOWN) UP
  /\ Ship.hits (turned edge_boat UP) = [false; false]
  /\ Ship.start_pos (turned edge_boat UP) = (10, 1).
Proof.
  split; [reflexivity|].
  exact (rotate_takes_the_first_orientation_that_fits 4 (turned edge_boat DOWN)
           (turned edge_boat UP) eq_refl).
Defined.


Lemma sunk_hit_names_a_sunk_ship_witness :
  exists h f',
    Fleet.check_hit
      (Fleet.Build [edge_boat; Ship.set_hits destroyer_5_5 [true; true; false]])
      (5, 7) true = Ok (h, f')
    /\ Hit.hit_type h = SUNK
    /\ exists s',
        s' ∈ Fleet.ships f'
        /\ (5, 7) ∈ Ship.positions s'
        /\ Hit.ship_positions h = Ship.positions s'
        /\ Hit.character h = ShipType.value (Ship.ship_type s')
        /\ forallb id (Ship.hits s') = true.
Proof.
  eexists _, _. split; [reflexivity|]. split; [reflexivity|].
  exact (proj2 (sunk_hit_names_a_sunk_ship
           (Fleet.Build [edge_boat; Ship.set_hits destroyer_5_5 [true; true; false]])
           _ (5, 7) true _ eq_refl eq_refl)).
Defined.

Lemma overlap_probe_on_an_undamaged_fleet_witness :
  let m := Manager.set_fleet (Manager.start 30 85 AIType.CopyCat)
             (Fleet.Build [destroyer_5_5]) in
  undamaged (Manager.fleet m)
  /\ fleet_ok (Manager.fleet m)
  /\ exists overlaps',
      Manager.draw_ship m [(4, 5); (5, 5)] false = Ok (overlaps', m)
      /\ (overlaps' = true <->
          false = true
          \/ exists cell, cell ∈ [(4, 5); (5, 5)] /\ occupied (Manager.fleet m) cell).
Proof.
  intros m.
  assert (undamaged (Manager.fleet m)) as Hu.
  { constructor; [|constructor]. repeat constructor. }
  assert (fleet_ok (Manager.fleet m)) as Hok.
  { constructor; [reflexivity|constructor]. }
  split; [exact Hu|]. split; [exact Hok|].
  exact (overlap_probe_on_an_undamaged_fleet m [(4, 5); (5, 5)] false Hu Hok).
Defined.

Lemma setup_builds_a_legal_fleet_witness :
  let m0 := Manager.initialize 30 85 (LocalPlayer.init AIType.CopyCat) in
  exists m' inp',
    Manager.place_ships m0 losing_input = Ok (m', inp')
    /\ Manager.game_state m' = READY
    /\ Ship.ship_type <$> Fleet.ships (Manager.fleet m') = ShipType.members
    /\ legal_fleet (Manager.player_bounds_y m') (Manager.player_bounds_x m')
         (Manager.fleet m')
    /\ m' = Manager.set_game_state (Manager.set_fleet m0 (Manager.fleet m')) READY
    /\ draws inp' = draws losing_input
    /\ exists used, keys losing_input = used ++ keys inp'.
Proof.
  intros m0. eexists _, _. split; [vm_compute; reflexivity|].
  apply (setup_builds_a_legal_fleet 30 85 (LocalPlayer.init AIType.CopyCat)
           losing_input). vm_compute. reflexivity.
Defined.

Lemma setup_never_raises_witness :
  let m0 := Manager.start 30 85 AIType.CopyCat in
  let inp := {| keys := [ord_r; ord_space; ord_space; KEY_LEFT; ord_r]; draws := [] |} in
  Manager.place_ships m0 inp = Pending
  /\ exists more m',
      Manager.place_ships m0 {| keys := keys inp ++ more; draws := [] |}
      = Ok (m', {| keys := []; draws := [] |}).
Proof.
  intros m0 inp.
  assert (Manager.place_ships m0 inp = Pending) as H by (vm_compute; reflexivity).
  split; [exact H|].
  exact (proj1 (proj2 (setup_never_raises 30 85 (LocalPlayer.init AIType.CopyCat) inp)) H).
Defined.

Lemma sample_game_reachable : reachable sample_game.
Proof.
  exists 30, 85, AIType.CopyCat, 3%nat, losing_input, sample_rest.
  vm_compute. reflexivity.
Defined.

Lemma sample_game_guessed : guessed sample_game = [(14, 52)].
Proof. vm_compute. reflexivity. Defined.

Lemma reveal_sunk_ship_marks_the_ship_witness :
  let h := Hit.sunk (14, 32) "P" [(14, 32); (14, 33)] in
  NoDup (guessed sample_game)
  /\ guessed (Manager.reveal_sunk_ship sample_game h) = [(14, 52)]
  /\ ((14, 52), h) ∈ Manager.guesses (Manager.reveal_sunk_ship sample_game h).
Proof.
  intros h.
  assert (NoDup (guessed sample_game)) as Hnd.
  { rewrite sample_game_guessed. apply NoDup_singleton. }
  split; [exact Hnd|].
  destruct (reveal_sunk_ship_marks_the_ship sample_game h Hnd) as (H1 & _ & _ & H4).
  split; [by rewrite H1, sample_game_guessed|].
  apply (H4 (14, 32)); [by left|].
  rewrite sample_game_guessed. by left.
Defined.

Lemma player_wins_exactly_when_the_fleet_is_sunk_witness :
  reachable sample_game
  /\ Manager.game_state sample_game = PLAYING
  /\ exists fa,
      ai_fleet (LocalPlayer.ai (Manager.player sample_game)) = Some fa
      /\ length (Fleet.ships fa) = 5%nat
      /\ Manager.opponent_ships_left sample_game
         = 5 - Z.of_nat (length (sunk_ships fa))
      /\ (Manager.game_state sample_game = PLAYER_WON
          <-> Forall (fun s => forallb id (Ship.hits s) = true) (Fleet.ships fa)).
Proof.
  split; [exact sample_game_reachable|]. split; [vm_compute; reflexivity|].
  apply (player_wins_exactly_when_the_fleet_is_sunk sample_game sample_game_reachable).
  left. vm_compute. reflexivity.
Defined.

Lemma guess_log_has_no_repeats_witness :
  reachable sample_game
  /\ NoDup (guessed sample_game)
  /\ Forall (fun t => pos_in_bounds t (Manager.opponent_bounds_y sample_game)
                        (Manager.opponent_bounds_x sample_game) = true)
       (guessed sample_game).
Proof.
  split; [exact sample_game_reachable|].
  exact (guess_log_has_no_repeats sample_game sample_game_reachable).
Defined.

Lemma flags_of_the_strategy_follow_the_guesses_witness :
  reachable sample_game
  /\ Manager.game_state sample_game = PLAYING
  /\ exists fa,
      ai_fleet (LocalPlayer.ai (Manager.player sample_game)) = Some fa
      /\ fleet_in_play fa
      /\ forall s i cell,
          s ∈ Fleet.ships fa -> Ship.positions s !! i = Some cell ->
          (Ship.hits s !! i = Some true
           <-> untranslate sample_game cell ∈ guessed sample_game).
Proof.
  split; [exact sample_game_reachable|]. split; [vm_compute; reflexivity|].
  apply (flags_of_the_strategy_follow_the_guesses sample_game sample_game_reachable).
  left. vm_compute. reflexivity.
Defined.

Lemma loop_body_transitions_witness :
  exists m' inp',
    Manager.loop_body sample_game sample_rest = Ok (m', inp')
    /\ Manager.game_state sample_game = PLAYING
    /\ LocalPlayer.players_turn (Manager.player sample_game) = false
    /\ LocalPlayer.players_turn (Manager.player m') = true.
Proof.
  eexists _, _. split; [vm_compute; reflexivity|].
  split; [vm_compute; reflexivity|]. split; [vm_compute; reflexivity|].
  refine (loop_body_transitions sample_game _ sample_rest _ _).
  vm_compute. reflexivity.
Defined.

Lemma fire_missile_effect_witness :
  ((15, 52) ∉ guessed sample_game)
  /\ NoDup (guessed sample_game)
  /\ exists m',
      Manager.fire_missile sample_game (15, 52) = Ok m'
      /\ exists h p,
          LocalPlayer.send_move (Manager.player sample_game)
            (translate sample_game (15, 52)) = Ok (h, p)
          /\ Manager.player m' = p
          /\ Manager.fleet m' = Manager.fleet sample_game
          /\ Manager.player_ships_left m' = Manager.player_ships_left sample_game
          /\ guessed m' = guessed sample_game ++ [(15, 52)]
          /\ Manager.opponent_ships_left m'
             = Manager.opponent_ships_left sample_game
               - match Hit.hit_type h with SUNK => 1 | _ => 0 end
          /\ (Hit.hit_type h <> SUNK ->
              Manager.game_state m' = Manager.game_state sample_game)
          /\ (Hit.hit_type h = SUNK -> Manager.opponent_ships_left m' = 0 ->
              Manager.game_state m' = PLAYER_WON).
Proof.
  assert ((15, 52) ∉ guessed sample_game) as Hnew.
  { rewrite sample_game_guessed. intros H. apply list_elem_of_singleton in H.
    discriminate. }
  assert (NoDup (guessed sample_game)) as Hnd.
  { rewrite sample_game_guessed. apply NoDup_singleton. }
  split; [exact Hnew|]. split; [exact Hnd|].
  eexists. split; [vm_compute; reflexivity|].
  apply (fire_missile_effect sample_game _ (15, 52) Hnew Hnd).
  vm_compute. reflexivity.
Defined.

Lemma opponents_turn_effect_witness :
  exists m' inp',
    Manager.opponents_turn sample_game sample_rest = Ok (m', inp')
    /\ LocalPlayer.players_turn (Manager.player m') = true
    /\ Manager.guesses m' = Manager.guesses sample_game
    /\ Manager.opponent_ships_left m' = Manager.opponent_ships_left sample_game
    /\ Manager.player_ships_left m' = Manager.player_ships_left sample_game
    /\ ai_fleet (LocalPlayer.ai (Manager.player m'))
       = ai_fleet (LocalPlayer.ai (Manager.player sample_game))
    /\ keys inp' = keys sample_rest
    /\ exists ai_move h a ds,
        AI.send_move (LocalPlayer.ai (Manager.player sample_game)) (draws sample_rest)
        = Ok (Some ai_move, a, ds)
        /\ Fleet.check_hit (Manager.fleet sample_game) ai_move true
           = Ok (h, Manager.fleet m')
        /\ draws inp' = ds.
Proof.
  eexists _, _. split; [vm_compute; reflexivity|].
  apply (opponents_turn_effect sample_game _ sample_rest _).
  vm_compute. reflexivity.
Defined.

Lemma random_strategy_knows_the_whole_board_witness :
  let legal := CopyCatWithRandomMissilesAI.possible_moves
                 (CopyCatWithRandomMissilesAI.initialize
                    CopyCatWithRandomMissilesAI.init (5, 25) (22, 42)) in
  -1 <= 22
  /\ NoDup legal
  /\ (forall p, p ∈ legal <-> pos_in_bounds p (5, 25) (22, 42) = true)
  /\ length legal = 361%nat.
Proof.
  intros legal. assert (-1 <= 22) as H by lia. split; [exact H|].
  destruct (random_strategy_knows_the_whole_board CopyCatWithRandomMissilesAI.init
              (5, 25) (22, 42) H) as (H1 & H2 & H3 & _).
  split; [exact H1|]. split; [exact H2|]. exact H3.
Defined.

Lemma random_strategy_runs_dry_witness :
  let ai := CopyCatWithRandomMissilesAI.initialize CopyCatWithRandomMissilesAI.init
              (0, 3) (0, 3) in
  valid_draws (length (CopyCatWithRandomMissilesAI.possible_moves ai)) [3; 0; 1; 0]%nat
  /\ length [3; 0; 1; 0]%nat = length (CopyCatWithRandomMissilesAI.possible_moves ai)
  /\ send_moves ai ([3; 0; 1; 0]%nat ++ [0%nat]) = Raise ValueError.
Proof.
  intros ai.
  assert (valid_draws (length (CopyCatWithRandomMissilesAI.possible_moves ai))
            [3; 0; 1; 0]%nat) as Hv by (vm_compute; lia).
  split; [exact Hv|]. split; [reflexivity|].
  exact (random_strategy_runs_dry CopyCatWithRandomMissilesAI.init (0, 3) (0, 3)
           [3; 0; 1; 0]%nat 0%nat Hv eq_refl).
Defined.

Lemma omniscient_game_stops_after_one_shot_witness :
  exists m inp',
    Manager.loop 3 (Manager.start 30 85 AIType.Omniscient) losing_input = Ok (m, inp')
    /\ length (Manager.guesses m) = 1%nat
    /\ Manager.game_state m = PLAYING
    /\ LocalPlayer.players_turn (Manager.player m) = false
    /\ Manager.loop_body m inp' = Raise TypeError.
Proof.
  eexists _, _. split; [vm_compute; reflexivity|].
  split; [vm_compute; reflexivity|].
  split; [vm_compute; reflexivity|]. split; [vm_compute; reflexivity|].
  refine (proj2 (omniscient_game_stops_after_one_shot 30 85 3 losing_input _ _ _)
            _ _ _); vm_compute; reflexivity.
Defined.

Lemma status_blank_fits_the_screen_witness :
  let m := Manager.initialize 30 86 (LocalPlayer.init AIType.CopyCat) in
  1 <= 86
  /\ clear_status_column m = 1
  /\ clear_status_column m + Z.of_nat (String.length (spaces (Manager.scrwidth m - 1)))
     <= 86.
Proof.
  intros m. assert (1 <= 86) as H by lia. split; [exact H|].
  split; [reflexivity|].
  exact (proj2 (proj2 (status_blank_fits_the_screen 30 86
                         (LocalPlayer.init AIType.CopyCat) H))).
Defined.
